(** * aqylly: radix-tree router, handler chain and route groups

    A shallow embedding of the core of the aqylly HTTP router
    ([tree.go], [context.go], [router.go] and the route-group code) together
    with the properties its specification states about it.

    Conventions of the embedding:
    - a Go [string] is a sequence of bytes, modelled as [list ascii];
    - [uint32] counters are [N] with the wrap-around written out;
    - a Go [panic] (explicit or a runtime index error) is the result [Panic];
    - loops that walk the tree carry an explicit fuel, [OutOfFuel] being the
      result of a loop that did not finish within it; the fuel [addRoute],
      [insertChild] and [getValue] give to their loops is shown to be enough;
    - Go maps are [gmap]s; a [nil] map and an empty map read alike, and every
      write in the source is preceded by an allocation, so both are [∅];
    - handlers are closures in Go.  Here a user handler is the sequence of
      context operations it performs ([Func]), and the closure built by
      [RouterGroup.handle] is the constructor [finalHandler]; a handler is
      never [nil], so that "no handler" is the absence of the key in the
      [handlers] map;
    - the [middleware] slice of a group is the list of its elements together
      with the place of the slice in its backing array, kept where an
      [append] in place can be seen through the slice of another group;
    - the [sync.Pool] of the router is the context it holds, if any, passed
      to [ServeHTTP]. *)

From Stdlib Require Import ZArith NArith Ascii String Lia.
From stdpp Require Import gmap strings list.

Set Warnings "-register-all".

Open Scope string_scope.
Open Scope list_scope.
Open Scope nat_scope.

(** * The program

    ** Strings, results *)

Abbreviation str := (list ascii).

Definition bytes (s : string) : str := list_ascii_of_string s.

Inductive result (A : Type) : Type :=
  | Ok (a : A)
  | Panic (msg : string)
  | OutOfFuel.
Arguments Ok {A} a.
Arguments Panic {A} msg.
Arguments OutOfFuel {A}.

Definition result_bind {A B} (f : A → result B) (r : result A) : result B :=
  match r with
  | Ok a => f a
  | Panic msg => Panic msg
  | OutOfFuel => OutOfFuel
  end.

#[global] Instance result_mbind : MBind result := @result_bind.
#[global] Instance result_mret : MRet result := @Ok.

(** ** Handlers

    [HandlerFunc] is the Go type of functions taking a context pointer.  A user-written handler is modelled by
    the context operations it performs, in order: emitting an observable
    event, calling [c.Next()], calling [c.Abort()].  [finalHandler g handler]
    is the closure of [RouterGroup.handle], which captures the group pointer
    [g] and the route handler. *)

Inductive stmt : Type :=
  | Emit (tag : string)
  | CallNext
  | CallAbort.

Inductive HandlerFunc : Type :=
  | Func (body : list stmt)
  | finalHandler (g : nat) (handler : HandlerFunc).

#[global] Instance stmt_eq_dec : EqDecision stmt.
Proof. solve_decision. Defined.

#[global] Instance HandlerFunc_eq_dec : EqDecision HandlerFunc.
Proof.
  refine (fix go (x y : HandlerFunc) {struct x} : Decision (x = y) :=
    match x, y with
    | Func a, Func b => cast_if (decide (a = b))
    | finalHandler g h, finalHandler g' h' =>
        cast_if_and (decide (g = g')) (go h h')
    | _, _ => right _
    end); abstract congruence.
Defined.

(** ** tree.go *)

Module Node.

Inductive nodeType : Type := static | root | param | catchAll.

#[global] Instance nodeType_eq_dec : EqDecision nodeType.
Proof. solve_decision. Defined.

Inductive node : Type := mkNode {
  path : str;
  indices : str;
  wildChild : bool;
  nType : nodeType;
  priority : N;
  children : list node;
  handlers : gmap string HandlerFunc;
  params : list str
}.

(** The zero value [&node{}]. *)
Definition empty : node := mkNode [] [] false static 0 [] ∅ [].

Definition set_path (n : node) (v : str) : node :=
  mkNode v (indices n) (wildChild n) (nType n) (priority n) (children n) (handlers n) (params n).
Definition set_indices (n : node) (v : str) : node :=
  mkNode (path n) v (wildChild n) (nType n) (priority n) (children n) (handlers n) (params n).
Definition set_wildChild (n : node) (v : bool) : node :=
  mkNode (path n) (indices n) v (nType n) (priority n) (children n) (handlers n) (params n).
Definition set_nType (n : node) (v : nodeType) : node :=
  mkNode (path n) (indices n) (wildChild n) v (priority n) (children n) (handlers n) (params n).
Definition set_priority (n : node) (v : N) : node :=
  mkNode (path n) (indices n) (wildChild n) (nType n) v (children n) (handlers n) (params n).
Definition set_children (n : node) (v : list node) : node :=
  mkNode (path n) (indices n) (wildChild n) (nType n) (priority n) v (handlers n) (params n).
Definition set_handlers (n : node) (v : gmap string HandlerFunc) : node :=
  mkNode (path n) (indices n) (wildChild n) (nType n) (priority n) (children n) v (params n).
Definition set_params (n : node) (v : list str) : node :=
  mkNode (path n) (indices n) (wildChild n) (nType n) (priority n) (children n) (handlers n) v.

(** [uint32] arithmetic of the [priority] counter. *)
Definition uint32_incr (x : N) : N := ((x + 1) mod 2 ^ 32)%N.
Definition uint32_decr (x : N) : N := ((x + 2 ^ 32 - 1) mod 2 ^ 32)%N.

Definition isWild (c : ascii) : bool :=
  bool_decide (c = ":"%char) || bool_decide (c = "*"%char).

(** [longestCommonPrefix]: the number of leading bytes [a] and [b] share. *)
Fixpoint longestCommonPrefix (a b : str) : nat :=
  match a, b with
  | x :: a', y :: b' => if decide (x = y) then S (longestCommonPrefix a' b') else 0
  | _, _ => 0
  end.

(** Inner loop of [findWildcard]: scans [path[start+1:]] for the end of the
    wildcard; [end_] counts the bytes passed, [valid] drops to [false] on a
    second [':'] or ['*']. *)
Fixpoint findWildcardEnd (rest : str) (end_ : nat) (valid : bool) : nat * bool :=
  match rest with
  | [] => (end_, valid)
  | c :: rest' =>
      if decide (c = "/"%char) then (end_, valid)
      else findWildcardEnd rest' (S end_) (if isWild c then false else valid)
  end.

(** Outer loop of [findWildcard]; [p] is [path[start:]]. *)
Fixpoint findWildcardFrom (p : str) (start : nat) : str * Z * bool :=
  match p with
  | [] => ([], (-1)%Z, false)
  | c :: rest =>
      if isWild c then
        let '(end_, valid) := findWildcardEnd rest 0 true in
        (take (1 + end_) p, Z.of_nat start, valid)
      else findWildcardFrom rest (S start)
  end.

Definition findWildcard (p : str) : str * Z * bool := findWildcardFrom p 0.

(** The swap loop of [incrementChildPrio]. *)
Fixpoint bubble (cs : list node) (prio : N) (newPos : nat) : list node * nat :=
  match newPos with
  | 0 => (cs, 0)
  | S k =>
      match cs !! k, cs !! S k with
      | Some a, Some b =>
          if (priority a <? prio)%N
          then bubble (<[k := b]> (<[S k := a]> cs)) prio k
          else (cs, newPos)
      | _, _ => (cs, newPos)
      end
  end.

Definition incrementChildPrio (n : node) (pos : nat) : result (node * nat) :=
  match children n !! pos with
  | None => Panic "runtime error: index out of range"
  | Some c =>
      let prio := uint32_incr (priority c) in
      let cs := <[pos := set_priority c prio]> (children n) in
      let '(cs, newPos) := bubble cs prio pos in
      let n := set_children n cs in
      if decide (newPos = pos) then Ok (n, newPos)
      else if decide (pos + 1 ≤ length (indices n)) then
        Ok (set_indices n (take newPos (indices n) ++
                           take 1 (drop pos (indices n)) ++
                           take (pos - newPos) (drop newPos (indices n)) ++
                           drop (pos + 1) (indices n)), newPos)
      else Panic "runtime error: slice bounds out of range"
  end.

(** The scan [for i := 0; i < len(n.indices); i++ { if c == n.indices[i] ... }]. *)
Fixpoint indexByte (c : ascii) (s : str) : option nat :=
  match s with
  | [] => None
  | x :: s' => if decide (c = x) then Some 0 else S <$> indexByte c s'
  end.

Fixpoint insertChildLoop (fuel : nat) (n : node) (p : str) (method : string)
    (handler : HandlerFunc) : result node :=
  match fuel with
  | 0 => OutOfFuel
  | S fuel =>
    let '(wildcard, i, valid) := findWildcard p in
    if (i <? 0)%Z then
      Ok (set_handlers (set_path n p) (<[method := handler]> (handlers n)))
    else if negb valid then
      Panic "only one wildcard per path segment is allowed"
    else if decide (length wildcard < 2) then
      Panic "wildcards must be named with a non-empty name"
    else if decide (0 < length (children n)) then
      Panic "wildcard segment conflicts with existing children"
    else
      let i := Z.to_nat i in
      if decide (head wildcard = Some ":"%char) then
        let '(n, p) :=
          if decide (0 < i) then (set_path n (take i p), drop i p) else (n, p) in
        let n := set_wildChild n true in
        let child := mkNode wildcard [] false param (uint32_incr 0) [] ∅ [] in
        if decide (length wildcard < length p) then
          let p := drop (length wildcard) p in
          let child' := mkNode [] [] false static 1 [] ∅ [] in
          child' ← insertChildLoop fuel child' p method handler;
          Ok (set_children n [set_children child [child']])
        else
          let child := set_handlers child (<[method := handler]> (handlers child)) in
          let child := set_params child (params child ++ [drop 1 wildcard]) in
          Ok (set_children n [child])
      else
        if decide (i + length wildcard ≠ length p) then
          Panic "catch-all routes are only allowed at the end of the path"
        else if decide (0 < length (path n) ∧ last (path n) = Some "/"%char) then
          Panic "catch-all conflicts with existing handle for the path segment root"
        else
          match i with
          | 0 => Panic "runtime error: index out of range [-1]"
          | S i =>
            if decide (p !! i ≠ Some "/"%char) then Panic "no / before catch-all"
            else
              let n := set_path n (take i p) in
              let second :=
                mkNode (drop i p) [] false catchAll 1 [] {[method := handler]}
                       [drop 1 wildcard] in
              let first :=
                mkNode [] [] true catchAll (uint32_incr 0) [second] ∅ [] in
              Ok (set_indices (set_children n [first]) (take 1 (drop i p)))
          end
  end.

(** Every iteration of the loop of [insertChild] drops at least two bytes of
    the path, so its length bounds the number of iterations. *)
Definition insertChild (n : node) (p : str) (method : string)
    (handler : HandlerFunc) : result node :=
  insertChildLoop (S (length p)) n p method handler.

(** The [walk] loop of [addRoute].  [n = n.children[i]] moves a pointer into
    the tree; here the child is rebuilt and stored back at its position. *)
Fixpoint addRouteWalk (fuel : nat) (n : node) (p : str) (method : string)
    (handler : HandlerFunc) : result node :=
  match fuel with
  | 0 => OutOfFuel
  | S fuel =>
    let i := longestCommonPrefix p (path n) in
    let n :=
      if decide (i < length (path n)) then
        let child :=
          mkNode (drop i (path n)) (indices n) (wildChild n) static
                 (uint32_decr (priority n)) (children n) (handlers n) (params n) in
        mkNode (take i p) (take 1 (drop i (path n))) false (nType n) (priority n)
               [child] ∅ []
      else n in
    if decide (i < length p) then
      let p := drop i p in
      match p with
      | [] => Panic "runtime error: index out of range"
      | c :: _ =>
        match indexByte c (indices n) with
        | Some i =>
            '(n, i) ← incrementChildPrio n i;
            match children n !! i with
            | None => Panic "runtime error: index out of range"
            | Some child =>
                child ← addRouteWalk fuel child p method handler;
                Ok (set_children n (<[i := child]> (children n)))
            end
        | None =>
            if negb (isWild c) then
              let n := set_indices n (indices n ++ [c]) in
              let n := set_children n (children n ++ [empty]) in
              let pos := length (indices n) - 1 in
              '(n, newPos) ← incrementChildPrio n pos;
              (* [child] still points at the appended node: it moved to
                 [newPos] when it was the one at [pos], and stayed last
                 otherwise *)
              let at_ := if decide (pos = length (children n) - 1)
                         then newPos else length (children n) - 1 in
              match children n !! at_ with
              | None => Panic "runtime error: index out of range"
              | Some child =>
                  child ← insertChild child p method handler;
                  Ok (set_children n (<[at_ := child]> (children n)))
              end
            else insertChild n p method handler
        end
      end
    else
      Ok (set_handlers n (<[method := handler]> (handlers n)))
  end.

Fixpoint height (n : node) : nat :=
  S (foldr (λ c acc, Nat.max (height c) acc) 0 (children n)).

(** [addRoute]: the walk descends one level per iteration. *)
Definition addRoute (n : node) (p : str) (method : string)
    (handler : HandlerFunc) : result node :=
  let n := set_priority n (uint32_incr (priority n)) in
  if decide (length (path n) = 0 ∧ length (children n) = 0) then
    n ← insertChild n p method handler;
    Ok (set_nType n root)
  else addRouteWalk (height n) n p method handler.

(** The loop [for end < len(path) && path[end] != '/' { end++ }]. *)
Fixpoint paramEnd (p : str) : nat :=
  match p with
  | [] => 0
  | c :: p' => if decide (c = "/"%char) then 0 else S (paramEnd p')
  end.

Definition found (h : option HandlerFunc) (ps : gmap str str)
    : result (option (HandlerFunc * gmap str str)) :=
  match h with
  | Some h => Ok (Some (h, ps))
  | None => Ok None
  end.

(** The [walk] loop of [getValue]; [ps] is the [params] map being filled.
    [Ok None] is the source's [return nil, nil]. *)
Fixpoint getValueWalk (fuel : nat) (n : node) (p : str) (method : string)
    (ps : gmap str str) : result (option (HandlerFunc * gmap str str)) :=
  match fuel with
  | 0 => OutOfFuel
  | S fuel =>
    let prefix := path n in
    if decide (length prefix < length p) then
      if decide (take (length prefix) p = prefix) then
        let p := drop (length prefix) p in
        if negb (wildChild n) then
          match p with
          | [] => Panic "runtime error: index out of range"
          | c :: _ =>
            match indexByte c (indices n) with
            | Some i =>
                match children n !! i with
                | None => Panic "runtime error: index out of range"
                | Some n => getValueWalk fuel n p method ps
                end
            | None => Ok None
            end
          end
        else
          match children n !! 0 with
          | None => Panic "runtime error: index out of range"
          | Some n =>
            match nType n with
            | param =>
                let end_ := paramEnd p in
                let ps := if decide (0 < length (path n))
                          then <[drop 1 (path n) := take end_ p]> ps else ps in
                if decide (end_ < length p) then
                  match children n with
                  | n :: _ => getValueWalk fuel n (drop end_ p) method ps
                  | [] => Ok None
                  end
                else
                  match handlers n !! method with
                  | Some h => Ok (Some (h, ps))
                  | None =>
                      match children n with
                      | [] => Ok None
                      | n :: _ => found (handlers n !! method) ps
                      end
                  end
            | catchAll =>
                ps ← (if decide (1 < length (path n)) then
                        match params n with
                        | name :: _ => Ok (<[name := p]> ps)
                        | [] => Panic "runtime error: index out of range"
                        end
                      else Ok ps);
                found (handlers n !! method) ps
            | _ => Panic "invalid node type"
            end
          end
      else Ok None
    else if decide (p = prefix) then found (handlers n !! method) ps
    else Ok None
  end.

Definition getValue (n : node) (p : str) (method : string)
    : result (option (HandlerFunc * gmap str str)) :=
  getValueWalk (height n) n p method ∅.

End Node.

(** ** Route groups: the data and the middleware operations

    A [*RouterGroup] is a pointer: [Use] mutates the group in place and the
    closures of [handle] and the [parent] links of nested groups observe the
    mutation.  Groups therefore live in a store, a list addressed by
    allocation index, and a group pointer is such an index.  The [router]
    field is left out: there is one router.

    The [middleware] of a group is a Go slice, a window on an array.
    [RouterGroup.Group] and [combineMiddleware] build their slices with
    [append] on a slice nobody else holds, so the array is the new group's
    own.  [Router.Group] stores the variadic slice of its caller as it is,
    and [Use] appends to the slice of the group, in place when the capacity
    allows: two groups whose slices lie over one array see each other's
    appends.  Beside the elements of its slice a group therefore records
    where the slice lies: [backing] is [Some (array, offset, capacity)], the
    capacity counted from the offset as Go does, or [None] for a slice over
    an array that no other slice shares, where appending in place and
    appending into a new array cannot be told apart. *)

Module RouterGroup.

Record RouterGroup : Type := mk {
  prefix : str;
  parent : option nat;
  middleware : list HandlerFunc;
  backing : option (nat * nat * nat)
}.

Definition set_middleware (g : RouterGroup) (v : list HandlerFunc) : RouterGroup :=
  mk (prefix g) (parent g) v (backing g).

Definition set_backing (g : RouterGroup) (v : option (nat * nat * nat))
    : RouterGroup :=
  mk (prefix g) (parent g) (middleware g) v.

(** [combineMiddleware] recurses along the [parent] links. *)
Fixpoint combineMiddlewareFrom (fuel : nat) (gs : list RouterGroup) (g : nat)
    : result (list HandlerFunc) :=
  match fuel with
  | 0 => OutOfFuel
  | S fuel =>
    match gs !! g with
    | None => Panic "runtime error: invalid memory address or nil pointer dereference"
    | Some G =>
      match parent G with
      | Some p =>
          ms ← combineMiddlewareFrom fuel gs p;
          Ok (ms ++ middleware G)
      | None => Ok ([] ++ middleware G)
      end
    end
  end.

(** A chain of [parent] links without a cycle visits every group at most
    once. *)
Definition combineMiddleware (gs : list RouterGroup) (g : nat)
    : result (list HandlerFunc) :=
  combineMiddlewareFrom (length gs) gs g.

(** [g.Group(prefix, middleware...)]: the new group and its pointer. *)
Definition Group (gs : list RouterGroup) (g : nat) (prefix' : str)
    (middleware' : list HandlerFunc) : result (list RouterGroup * nat) :=
  match gs !! g with
  | None => Panic "runtime error: invalid memory address or nil pointer dereference"
  | Some G =>
      ms ← combineMiddleware gs g;
      Ok (gs ++ [mk (prefix G ++ prefix') (Some g) (ms ++ middleware') None],
          length gs)
  end.

(** What a group [B] sees of the elements [xs] written into the array [arr]
    from position [start] on: element [i] of its slice is element [off + i]
    of the array. *)
Definition written (arr start : nat) (xs : list HandlerFunc) (B : RouterGroup)
    : RouterGroup :=
  match backing B with
  | Some (arr', off, _) =>
      if decide (arr' = arr) then
        set_middleware B
          (imap (λ i m, if decide (start ≤ off + i)
                        then default m (xs !! (off + i - start)) else m)
                (middleware B))
      else B
  | None => B
  end.

(** [g.Use(middleware...)]: [g.middleware = append(g.middleware, ...)].
    [append] writes behind the slice when the capacity holds the new
    elements, and every slice over the array sees what is written; it moves
    the elements to a new array otherwise. *)
Definition Use (gs : list RouterGroup) (g : nat) (middleware' : list HandlerFunc)
    : result (list RouterGroup) :=
  match gs !! g with
  | None => Panic "runtime error: invalid memory address or nil pointer dereference"
  | Some G =>
      match backing G with
      | Some (arr, off, cap) =>
          if decide (length (middleware G) + length middleware' ≤ cap) then
            Ok (<[g := set_middleware G (middleware G ++ middleware')]>
                  (written arr (off + length (middleware G)) middleware' <$> gs))
          else
            Ok (<[g := set_backing
                         (set_middleware G (middleware G ++ middleware')) None]> gs)
      | None => Ok (<[g := set_middleware G (middleware G ++ middleware')]> gs)
      end
  end.

End RouterGroup.

(** ** The request

    Of [*http.Request], what the code reads: the method, the headers (by
    canonical key, the first value of each), the remote address, and the
    credentials [BasicAuth()] decodes ([None] when it reports [ok = false]). *)

Module Request.

Record Request : Type := mk {
  Method : string;
  Header : gmap string str;
  RemoteAddr : str;
  BasicAuth : option (str * str)
}.

End Request.

(** ** context.go: the chain cursor *)

Module Context.

(** What a request leaves behind: [Invoke i] is recorded by the model each
    time the loop of [Next] calls [c.handlers[i]]; [Emitted tag] is the
    event of a handler's [Emit tag]. *)
Inductive event : Type :=
  | Invoke (index : Z)
  | Emitted (tag : string).

#[global] Instance event_eq_dec : EqDecision event.
Proof. solve_decision. Defined.

Record Context : Type := mk {
  Params : gmap str str;
  index : Z;
  handlers : list HandlerFunc;
  trace : list event
}.

Definition set_index (c : Context) (v : Z) : Context :=
  mk (Params c) v (handlers c) (trace c).
Definition set_handlers (c : Context) (v : list HandlerFunc) : Context :=
  mk (Params c) (index c) v (trace c).
Definition log (c : Context) (e : event) : Context :=
  mk (Params c) (index c) (handlers c) (trace c ++ [e]).

(** [Abort]: [c.index = len(c.handlers)]. *)
Definition Abort (c : Context) : Context :=
  set_index c (Z.of_nat (length (handlers c))).

(** [Param]: reading a Go map at a missing key yields the zero value. *)
Definition Param (c : Context) (key : str) : str :=
  default [] (Params c !! key).

(** [Next] and the calls it makes.  [Next] is [c.index++] followed by the
    loop [nextLoop]; [call] runs one handler, for [finalHandler] the body of
    the closure of [RouterGroup.handle]; [exec] runs the operations of a
    user handler.  [gs] is the group store at the time of the request. *)
Fixpoint Next (fuel : nat) (gs : list RouterGroup.RouterGroup) (c : Context)
    {struct fuel} : result Context :=
  match fuel with
  | 0 => OutOfFuel
  | S fuel => nextLoop fuel gs (set_index c (index c + 1))
  end
with nextLoop (fuel : nat) (gs : list RouterGroup.RouterGroup) (c : Context)
    {struct fuel} : result Context :=
  match fuel with
  | 0 => OutOfFuel
  | S fuel =>
    if decide (index c < Z.of_nat (length (handlers c)))%Z then
      if decide (index c < 0)%Z then Panic "runtime error: index out of range"
      else
        match handlers c !! Z.to_nat (index c) with
        | None => Panic "runtime error: index out of range"
        | Some h =>
            c ← call fuel gs h (log c (Invoke (index c)));
            nextLoop fuel gs (set_index c (index c + 1))
        end
    else Ok c
  end
with call (fuel : nat) (gs : list RouterGroup.RouterGroup) (h : HandlerFunc)
    (c : Context) {struct fuel} : result Context :=
  match fuel with
  | 0 => OutOfFuel
  | S fuel =>
    match h with
    | Func body => exec fuel gs body c
    | finalHandler g handler =>
        groupMiddleware ← RouterGroup.combineMiddleware gs g;
        let originalHandlers := handlers c in
        let originalIndex := index c in
        let newHandlers := groupMiddleware ++ [handler] in
        let c := set_index (set_handlers c newHandlers) (-1) in
        c ← Next fuel gs c;
        Ok (set_index (set_handlers c originalHandlers) originalIndex)
    end
  end
with exec (fuel : nat) (gs : list RouterGroup.RouterGroup) (body : list stmt)
    (c : Context) {struct fuel} : result Context :=
  match fuel with
  | 0 => OutOfFuel
  | S fuel =>
    match body with
    | [] => Ok c
    | s :: body =>
        c ← match s with
            | Emit tag => Ok (log c (Emitted tag))
            | CallNext => Next fuel gs c
            | CallAbort => Ok (Abort c)
            end;
        exec fuel gs body c
    end
  end.

(** [Header]: [http.Header.Get] yields the empty string for a header the
    request does not have. *)
Definition Header (req : Request.Request) (key : string) : str :=
  default [] (Request.Header req !! key).

(** [strings.Index] and [strings.LastIndex] for a separator of one byte;
    [None] is the source's [-1]. *)
Fixpoint Index (s : str) (sep : ascii) : option nat :=
  match s with
  | [] => None
  | x :: s' => if decide (x = sep) then Some 0 else S <$> Index s' sep
  end.

Fixpoint LastIndex (s : str) (sep : ascii) : option nat :=
  match s with
  | [] => None
  | x :: s' =>
      match LastIndex s' sep with
      | Some i => Some (S i)
      | None => if decide (x = sep) then Some 0 else None
      end
  end.

(** [ClientIP].  [TrimSpace] is [strings.TrimSpace]. *)
Definition ClientIP (TrimSpace : str → str) (req : Request.Request) : str :=
  let ip := Header req "X-Forwarded-For" in
  if decide (ip ≠ []) then
    match Index ip ","%char with
    | Some index => TrimSpace (take index ip)
    | None => ip
    end
  else
    let ip := Header req "X-Real-IP" in
    if decide (ip ≠ []) then ip
    else
      match LastIndex (Request.RemoteAddr req) ":"%char with
      | Some index => take index (Request.RemoteAddr req)
      | None => Request.RemoteAddr req
      end.

End Context.

(** ** router.go *)

Module Router.

Record Router : Type := mk {
  trees : gmap string Node.node;
  middleware : list HandlerFunc;
  NotFound : option HandlerFunc;
  MethodNotAllowed : option HandlerFunc;
  HandleOPTIONS : bool
}.

Definition New : Router := mk ∅ [] None None true.

Definition set_trees (r : Router) (v : gmap string Node.node) : Router :=
  mk v (middleware r) (NotFound r) (MethodNotAllowed r) (HandleOPTIONS r).

Definition Use (r : Router) (middleware' : list HandlerFunc) : Router :=
  mk (trees r) (middleware r ++ middleware') (NotFound r) (MethodNotAllowed r)
     (HandleOPTIONS r).

Definition addRoute (r : Router) (method : string) (p : str)
    (handler : HandlerFunc) : result Router :=
  match p with
  | [] => Panic "runtime error: index out of range"
  | c :: _ =>
    if decide (c ≠ "/"%char) then Panic "path must begin with '/'"
    else
      let root := default Node.empty (trees r !! method) in
      root ← Node.addRoute root p method handler;
      Ok (set_trees r (<[method := root]> (trees r)))
  end.

(** [r.Group(prefix, middleware...)]: a group without parent, whose
    [middleware] is the variadic slice itself.  [backing'] says where that
    slice lies: [None] for a call that lists its middleware, which gets an
    array of its own, the place of the caller's slice for a call that
    spreads one ([r.Group(prefix, ms...)]). *)
Definition Group (gs : list RouterGroup.RouterGroup) (prefix : str)
    (middleware' : list HandlerFunc) (backing' : option (nat * nat * nat))
    : list RouterGroup.RouterGroup * nat :=
  (gs ++ [RouterGroup.mk prefix None middleware' backing'], length gs).

(** What [ServeHTTP] did with the request. *)
Inductive served : Type :=
  | Matched (c : Context.Context)
  | AutoOptions (allowed : list string) (status : Z)
  | MethodNotAllowedHook (c : Context.Context)
  | PlainMethodNotAllowed (status : Z)
  | NotFoundHook (c : Context.Context)
  | PlainNotFound (status : Z).

(** The loop of [handleOPTIONS].  [range r.trees] visits the keys in an
    order Go leaves unspecified: [order] is that order. *)
Fixpoint allowedMethods (r : Router) (order : list string) (p : str)
    : result (list string) :=
  match order with
  | [] => Ok []
  | m :: order =>
    match trees r !! m with
    | Some root =>
        v ← Node.getValue root p m;
        allowed ← allowedMethods r order p;
        Ok (if v is Some _ then m :: allowed else allowed)
    | None => allowedMethods r order p
    end
  end.

(** The loop "check if path exists with different method". *)
Fixpoint otherMethodHas (r : Router) (order : list string) (method : string)
    (p : str) : result bool :=
  match order with
  | [] => Ok false
  | m :: order =>
    if decide (m ≠ method) then
      match trees r !! m with
      | Some root =>
          v ← Node.getValue root p m;
          if v is Some _ then Ok true else otherMethodHas r order method p
      | None => otherMethodHas r order method p
      end
    else otherMethodHas r order method p
  end.

(** [newContext(w, r)] starts with [r.Context()], which reads a field of
    [r]: on a nil request that is a nil pointer dereference. *)
Definition newContext (req : option Request.Request) : result Context.Context :=
  match req with
  | None => Panic "runtime error: invalid memory address or nil pointer dereference"
  | Some _ => Ok (Context.mk ∅ (-1) [] [])
  end.

(** [r.pool.Get()].  [pooled] is the context the pool holds, if it holds
    one; an empty pool calls [r.pool.New], which [New] sets to
    [newContext(nil, nil)]. *)
Definition poolGet (pooled : option Context.Context) : result Context.Context :=
  match pooled with
  | Some c => Ok c
  | None => newContext None
  end.

(** [ServeHTTP] takes its context from the pool, resets [Params] and
    [index] (the events of the request start with it), and puts the context
    back before it returns: the result is what it did with the request and
    the context it put back. *)
Definition ServeHTTP (fuel : nat) (r : Router)
    (gs : list RouterGroup.RouterGroup) (order : list string)
    (pooled : option Context.Context)
    (method : string) (p : str) : result (served * Context.Context) :=
  c ← poolGet pooled;
  let c := Context.mk ∅ (-1) (Context.handlers c) [] in
  own ← match trees r !! method with
        | Some root => Node.getValue root p method
        | None => Ok None
        end;
  match own with
  | Some (handler, params) =>
      let c := Context.mk params (Context.index c)
                 (middleware r ++ [handler]) (Context.trace c) in
      c ← Context.Next fuel gs c;
      Ok (Matched c, c)
  | None =>
    if decide (method = "OPTIONS" ∧ HandleOPTIONS r = true) then
      allowed ← allowedMethods r order p;
      Ok (AutoOptions allowed (if decide (0 < length allowed) then 204 else 404), c)
    else
      other ← otherMethodHas r order method p;
      if other : bool then
        match MethodNotAllowed r with
        | Some hook =>
            c ← Context.Next fuel gs (Context.set_handlers c [hook]);
            Ok (MethodNotAllowedHook c, c)
        | None => Ok (PlainMethodNotAllowed 405, c)
        end
      else
        match NotFound r with
        | Some hook =>
            c ← Context.Next fuel gs (Context.set_handlers c [hook]);
            Ok (NotFoundHook c, c)
        | None => Ok (PlainNotFound 404, c)
        end
  end.

(** [joinMethods]: [i] is the index of the loop, [result] its accumulator. *)
Fixpoint joinMethodsFrom (i : nat) (result : string) (methods : list string)
    : string :=
  match methods with
  | [] => result
  | method :: methods =>
      let result := if decide (0 < i) then result +:+ ", " else result in
      joinMethodsFrom (S i) (result +:+ method) methods
  end.

Definition joinMethods (methods : list string) : string :=
  joinMethodsFrom 0 "" methods.

(** [handleOPTIONS]: the [Allow] header it sets, if it sets one, and the
    status it writes. *)
Definition handleOPTIONS (r : Router) (order : list string) (p : str)
    : result (option string * Z) :=
  allowed ← allowedMethods r order p;
  Ok (if decide (0 < length allowed)
      then (Some (joinMethods allowed), 204%Z)
      else (None, 404%Z)).

(** The loop of [Any] over its [methods]. *)
Fixpoint addRouteEach (r : Router) (methods : list string) (p : str)
    (handler : HandlerFunc) : result Router :=
  match methods with
  | [] => Ok r
  | method :: methods =>
      r ← addRoute r method p handler;
      addRouteEach r methods p handler
  end.

Definition Any (r : Router) (p : str) (handler : HandlerFunc) : result Router :=
  addRouteEach r ["GET"; "POST"; "PUT"; "DELETE"; "PATCH"; "HEAD"; "OPTIONS"]
    p handler.

End Router.

(** ** Route groups: registration

    [RouterGroup.handle] registers the closure [finalHandler g handler] at
    [g.prefix + path]. *)

Definition handle (r : Router.Router) (gs : list RouterGroup.RouterGroup)
    (g : nat) (method : string) (p : str) (handler : HandlerFunc)
    : result Router.Router :=
  match gs !! g with
  | None => Panic "runtime error: invalid memory address or nil pointer dereference"
  | Some G =>
      Router.addRoute r method (RouterGroup.prefix G ++ p) (finalHandler g handler)
  end.

(** ** Middleware

    The closure a middleware constructor returns runs on one request; here
    the constructor takes the request as well and yields the operations the
    closure performs on it.  A response operation ([SetHeader], [Status],
    the encoding of a body, named by its object) is an observable event. *)

Module Middleware.

Definition SetHeader (key value : string) : stmt :=
  Emit ("SetHeader " +:+ key +:+ ": " +:+ value).

(** The double quote, for header values that contain it. *)
Definition quote : string := String (Ascii.ascii_of_nat 34) EmptyString.

Definition Status (code : string) : stmt := Emit ("Status " +:+ code).

(** [c.JSON(code, obj)]. *)
Definition JSON (code obj : string) : list stmt :=
  [SetHeader "Content-Type" "application/json; charset=utf-8"; Status code;
   Emit ("Encode " +:+ obj)].

(** [c.AbortWithStatus(code)]: [Status], then [Abort]. *)
Definition AbortWithStatus (code : string) : list stmt :=
  [Status code; CallAbort].

(** [c.AbortWithJSON(code, obj)]: [Abort], then [JSON]. *)
Definition AbortWithJSON (code obj : string) : list stmt :=
  CallAbort :: JSON code obj.

(** [joinSlice]: [i] is the index of the loop, [result] its accumulator. *)
Fixpoint joinSliceFrom (i : nat) (result : string) (slice : list string)
    : string :=
  match slice with
  | [] => result
  | s :: slice =>
      let result := if decide (0 < i) then result +:+ ", " else result in
      joinSliceFrom (S i) (result +:+ s) slice
  end.

Definition joinSlice (slice : list string) : string := joinSliceFrom 0 "" slice.

(** [CORS(allowOrigins, allowMethods, allowHeaders)] on the request [req]. *)
Definition CORS (allowOrigins : list str) (allowMethods allowHeaders : list string)
    (req : Request.Request) : HandlerFunc :=
  let origin := Context.Header req "Origin" in
  let allowed :=
    existsb (λ allowOrigin,
               bool_decide (allowOrigin = bytes "*" ∨ allowOrigin = origin))
      allowOrigins in
  Func
    ((if allowed then
        [SetHeader "Access-Control-Allow-Origin"
           (if decide (length allowOrigins = 1 ∧
                       allowOrigins !! 0 = Some (bytes "*"))
            then "*" else string_of_list_ascii origin);
         SetHeader "Access-Control-Allow-Methods" (joinSlice allowMethods);
         SetHeader "Access-Control-Allow-Headers" (joinSlice allowHeaders);
         SetHeader "Access-Control-Allow-Credentials" "true"]
      else [])
     ++ (if decide (Request.Method req = "OPTIONS")
         then AbortWithStatus "204"
         else [CallNext])).

(** [BasicAuth(username, password)] on the request [req]. *)
Definition BasicAuth (username password : str) (req : Request.Request)
    : HandlerFunc :=
  let '(user, pass, ok) :=
    match Request.BasicAuth req with
    | Some (user, pass) => (user, pass, true)
    | None => ([], [], false)
    end in
  Func
    (if decide (ok = false ∨ user ≠ username ∨ pass ≠ password) then
       SetHeader "WWW-Authenticate"
         ("Basic realm=" +:+ quote +:+ "Restricted" +:+ quote)
       :: AbortWithJSON "401" "error: Unauthorized"
     else [CallNext]).

End Middleware.

(** * Vocabulary of the properties *)

(** ** Results *)

Definition unwrap {A} (d : A) (r : result A) : A :=
  match r with
  | Ok a => a
  | _ => d
  end.

(** ** The handler chain *)

(** A statement that emits an event: a body of such statements returns
    without calling [Next] and without calling [Abort]. *)
Definition isEmit (s : stmt) : Prop :=
  match s with
  | Emit _ => True
  | _ => False
  end.

Definition tagOf (s : stmt) : string :=
  match s with
  | Emit tag => tag
  | _ => ""
  end.

(** A user handler that only emits events. *)
Definition plainHandler (h : HandlerFunc) : Prop :=
  match h with
  | Func body => Forall isEmit body
  | finalHandler _ _ => False
  end.

Definition bodyOf (h : HandlerFunc) : list stmt :=
  match h with
  | Func body => body
  | finalHandler _ _ => []
  end.

(** The canonical middleware: pre-work, [c.Next()], post-work. *)
Definition around (pre post : string) : HandlerFunc :=
  Func [Emit pre; CallNext; Emit post].

(** The canonical middleware of each pair of tags. *)
Definition arounds (ws : list (string * string)) : list HandlerFunc :=
  (λ w, around w.1 w.2) <$> ws.

(** The context after the events of [body] have been recorded. *)
Definition emitAll (c : Context.Context) (body : list stmt) : Context.Context :=
  Context.mk (Context.Params c) (Context.index c) (Context.handlers c)
    (Context.trace c ++ (Context.Emitted ∘ tagOf <$> body)).

(** The tags a request emitted, in order. *)
Definition emitted (t : list Context.event) : list string :=
  omap (λ e, match e with Context.Emitted tag => Some tag | _ => None end) t.

(** The handler indices the loop of [Next] called, in order. *)
Definition invoked (t : list Context.event) : list Z :=
  omap (λ e, match e with Context.Invoke i => Some i | _ => None end) t.

(** The trace of a chain of plain handlers run from index [k]. *)
Fixpoint plainTrace (k : nat) (hs : list HandlerFunc) : list Context.event :=
  match hs with
  | [] => []
  | h :: hs =>
      Context.Invoke (Z.of_nat k) :: (Context.Emitted ∘ tagOf <$> bodyOf h)
      ++ plainTrace (S k) hs
  end.

(** The trace of a chain of canonical middleware around a last handler whose
    own trace is [inner], run from index [k]: the onion. *)
Fixpoint onionTrace (k : nat) (ws : list (string * string))
    (inner : list Context.event) : list Context.event :=
  match ws with
  | [] => inner
  | w :: ws =>
      Context.Invoke (Z.of_nat k) :: Context.Emitted w.1
      :: onionTrace (S k) ws inner ++ [Context.Emitted w.2]
  end.

(** "The chain terminates implicitly at [k]": in no run of the chain [hs]
    from the start is a handler of index greater than [k] called. *)
Definition terminatesImplicitly (hs : list HandlerFunc) (k : nat) : Prop :=
  ∀ fuel gs ps c',
    Context.Next fuel gs (Context.mk ps (-1) hs []) = Ok c' →
    ∀ j, (Z.of_nat k < j)%Z → Context.Invoke j ∉ Context.trace c'.

(** ** Route groups *)

(** [onChain gs g a]: the group [a] is [g] or one of its ancestors along
    the [parent] links. *)
Inductive onChain (gs : list RouterGroup.RouterGroup) : nat → nat → Prop :=
  | onChain_self g G :
      gs !! g = Some G → onChain gs g g
  | onChain_parent g G p a :
      gs !! g = Some G → RouterGroup.parent G = Some p → onChain gs p a →
      onChain gs g a.

(** The slice of every nested group lies over an array of its own: so
    [RouterGroup.Group] makes it, and [Use] keeps it. *)
Definition nestedOwn (gs : list RouterGroup.RouterGroup) : Prop :=
  ∀ g G, gs !! g = Some G → is_Some (RouterGroup.parent G) →
         RouterGroup.backing G = None.

(** ** The router *)

(** What the pool of a router can hold when a request arrives: nothing, or
    the context that an earlier call of [ServeHTTP] put back when it
    returned.  Nothing else puts a context into the pool. *)
Inductive pooledContext : option Context.Context → Prop :=
  | pooled_nothing : pooledContext None
  | pooled_put fuel r gs order pooled method p s c :
      pooledContext pooled →
      Router.ServeHTTP fuel r gs order pooled method p = Ok (s, c) →
      pooledContext (Some c).

(** Registrations through the router, the failing ones skipped. *)
Fixpoint routerOf (r : Router.Router) (routes : list (string * str * HandlerFunc))
    : Router.Router :=
  match routes with
  | [] => r
  | (method, p, handler) :: routes =>
      match Router.addRoute r method p handler with
      | Ok r => routerOf r routes
      | _ => r
      end
  end.

(** ** The radix tree *)

(** A sequence of registrations on one tree, stopping at the first that
    fails. *)
Fixpoint addRoutes (n : Node.node) (routes : list (string * str * HandlerFunc))
    : result Node.node :=
  match routes with
  | [] => Ok n
  | (method, p, handler) :: routes =>
      n ← Node.addRoute n p method handler;
      addRoutes n routes
  end.

(** The tree of a sequence of registrations that succeed (the empty tree
    otherwise). *)
Definition treeOf (routes : list (string * str * HandlerFunc)) : Node.node :=
  unwrap Node.empty (addRoutes Node.empty routes).

(** A path without [':'] and ['*']. *)
Definition literal (p : str) : Prop := Forall (λ c, Node.isWild c = false) p.

(** A wildcard name: not empty, without ['/'], [':'] and ['*']. *)
Definition wildcardName (name : str) : Prop :=
  name ≠ [] ∧ Forall (λ c, c ≠ "/"%char ∧ Node.isWild c = false) name.

(** [staticHandler n p method h]: in the tree [n], the path [p] leads by
    literal edges only (consuming the [path] of each node and dispatching on
    [indices]) to a node that holds [h] for [method]. *)
Inductive staticHandler : Node.node → str → string → HandlerFunc → Prop :=
  | staticHandler_here n method h :
      Node.handlers n !! method = Some h →
      staticHandler n (Node.path n) method h
  | staticHandler_down n c rest i child method h :
      Node.wildChild n = false →
      Node.indexByte c (Node.indices n) = Some i →
      Node.children n !! i = Some child →
      staticHandler child (c :: rest) method h →
      staticHandler n (Node.path n ++ c :: rest) method h.

(** The tree of the single route [prefix/*name]. *)
Definition catchAllTree (prefix name : str) (method : string)
    (handler : HandlerFunc) : Node.node :=
  Node.mkNode prefix (bytes "/") false Node.root 1
    [Node.mkNode [] [] true Node.catchAll 1
       [Node.mkNode ("/"%char :: "*"%char :: name) [] false Node.catchAll 1 []
          {[ method := handler ]} [name]]
       ∅ []]
    ∅ [].

(** ** Invariants of the tree *)

(** [allNodes P n]: [P] holds of [n] and of every node below it. *)
Inductive allNodes (P : Node.node → Prop) : Node.node → Prop :=
  | allNodes_intro n :
      P n → Forall (allNodes P) (Node.children n) → allNodes P n.



(** [len(n.indices) == len(n.children)] and
    [n.children[i].path[0] == n.indices[i]]. *)
Definition aligned (n : Node.node) : Prop :=
  Forall2 (λ c child, head (Node.path child) = Some c)
          (Node.indices n) (Node.children n).

(** The nodes of a tree of literal routes. *)
Definition literalNode (n : Node.node) : Prop :=
  aligned n ∧ Node.wildChild n = false.

(** The child of [incrementChildPrio] with its counter incremented. *)
Definition bumped (c : Node.node) : Node.node :=
  Node.set_priority c (Node.uint32_incr (Node.priority c)).

(** The list [l] with the element at [pos] moved to the front position
    [k]: the shape [incrementChildPrio] gives to [indices]. *)
Definition rot {A} (k pos : nat) (l : list A) : list A :=
  take k l ++ take 1 (drop pos l) ++ take (pos - k) (drop k l) ++ drop (pos + 1) l.

(** ** Further vocabulary *)

(** The child that the byte [c] selects through [indices]. *)
Definition childAt (n : Node.node) (c : ascii) : option Node.node :=
  i ← Node.indexByte c (Node.indices n); Node.children n !! i.

(** What is left of a path after the [path] of the node [n] leads by literal
    edges to the handler [h] of [method]. *)
Definition handlerAfter (n : Node.node) (x : str) (method : string)
    (h : HandlerFunc) : Prop :=
  match x with
  | [] => Node.handlers n !! method = Some h
  | c :: _ =>
      Node.wildChild n = false ∧
      ∃ child, childAt n c = Some child ∧ staticHandler child x method h
  end.

(** The handler a sequence of registrations leaves for a method and a path:
    the one registered last. *)
Fixpoint registeredFrom (acc : option HandlerFunc)
    (routes : list (string * str * HandlerFunc)) (method : string) (p : str)
    : option HandlerFunc :=
  match routes with
  | [] => acc
  | (m, q, h) :: routes =>
      registeredFrom (if decide (q = p ∧ m = method) then Some h else acc)
        routes method p
  end.

Definition registered (routes : list (string * str * HandlerFunc))
    (method : string) (p : str) : option HandlerFunc :=
  registeredFrom None routes method p.

(** The root of a tree holds no handler before it has a path or a child. *)
Definition rootOk (n : Node.node) : Prop :=
  Node.path n = [] → Node.children n = [] → Node.handlers n = ∅.

(** The tree of the single route [prefix:name]. *)
Definition paramTree (prefix name : str) (method : string)
    (handler : HandlerFunc) : Node.node :=
  Node.mkNode prefix [] true Node.root 1
    [Node.mkNode (":"%char :: name) [] false Node.param 1 []
       {[ method := handler ]} [name]]
    ∅ [].

(** The lookup [ServeHTTP] makes for a request: the tree of the method,
    then [getValue]. *)
Definition ownHandler (r : Router.Router) (method : string) (p : str)
    : result (option (HandlerFunc * gmap str str)) :=
  match Router.trees r !! method with
  | Some root => Node.getValue root p method
  | None => Ok None
  end.

(** A router whose trees hold literal routes only. *)
Definition literalRouter (r : Router.Router) : Prop :=
  ∀ m t, Router.trees r !! m = Some t → allNodes literalNode t ∧ rootOk t.

(** The tree of [m] has a handler for the path. *)
Definition hasHandler (r : Router.Router) (p : str) (m : string) : bool :=
  match ownHandler r m p with
  | Ok (Some _) => true
  | _ => false
  end.

(** ** Example configurations *)

(** [api := router.Group("/api", around api)]. *)
Definition apiStore : list RouterGroup.RouterGroup :=
  (Router.Group [] (bytes "/api") [around "api>" "api<"] None).1.

(** [v1 := api.Group("/v1", around v1)]: the group [api] is at 0, [v1] at 1. *)
Definition nestedStore : list RouterGroup.RouterGroup :=
  (unwrap ([], 0)
     (RouterGroup.Group apiStore 0 (bytes "/v1") [around "v1>" "v1<"])).1.

(** [ms := make([]HandlerFunc, 1, 2)] holding [around m], then
    [a := router.Group("/a", ms...)] and [b := router.Group("/b", ms...)]:
    the slices of the groups [a], at 0, and [b], at 1, lie over the array of
    [ms], called 0 here. *)
Definition sharedStore : list RouterGroup.RouterGroup :=
  (Router.Group
     (Router.Group [] (bytes "/a") [around "m>" "m<"] (Some (0, 0, 2))).1
     (bytes "/b") [around "m>" "m<"] (Some (0, 0, 2))).1.

(** [api.GET("/x", h)] on a fresh router. *)
Definition apiRouter : Router.Router :=
  unwrap Router.New
    (handle Router.New apiStore 0 "GET" (bytes "/x") (Func [Emit "h"])).

(** [router.Use(around R)] and [v1.GET("/x", h)]. *)
Definition nestedRouter : Router.Router :=
  unwrap Router.New
    (handle (Router.Use Router.New [around "R>" "R<"]) nestedStore 1 "GET"
       (bytes "/x") (Func [Emit "h"])).

(** [api := router.Group("/api", A...)] and [v1 := api.Group("/v1", V...)]
    for canonical middleware [A] and [V]. *)
Definition nestedStoreOf (A V : list (string * string))
    : list RouterGroup.RouterGroup :=
  (unwrap ([], 0)
     (RouterGroup.Group (Router.Group [] (bytes "/api") (arounds A) None).1 0
        (bytes "/v1") (arounds V))).1.

(** [router.Use(R...)] and [v1.GET("/x", h)], [h] a user handler. *)
Definition nestedRouterOf (R A V : list (string * string)) (body : list stmt)
    : Router.Router :=
  unwrap Router.New
    (handle (Router.Use Router.New (arounds R)) (nestedStoreOf A V) 1 "GET"
       (bytes "/x") (Func body)).

(** * Properties *)

Import Node.

(** ** Parameters of a matched route *)

(** C10. On a context whose parameters are those of a matched route,
    [Param] of a name the match did not capture is the empty string; [Param]
    is a total function and has no failing case. *)
Theorem Param_not_captured (n : node) (p : str) (method : string)
    (h : HandlerFunc) (ps : gmap str str) (c : Context.Context) (name : str) :
  getValue n p method = Ok (Some (h, ps)) →
  Context.Params c = ps →
  name ∉ dom ps →
  Context.Param c name = [].
Proof.
  intros _ Hps Hname. unfold Context.Param.
  apply not_elem_of_dom in Hname. rewrite Hps, Hname. reflexivity.
Qed.

Lemma Param_not_captured_witness :
  Context.Param (Context.mk {[ bytes "id" := bytes "42" ]} (-1) [] [])
    (bytes "name") = [].
Proof.
  apply (Param_not_captured
           (treeOf [("GET", bytes "/users/:id", Func [Emit "user"])])
           (bytes "/users/42") "GET" (Func [Emit "user"])
           {[ bytes "id" := bytes "42" ]}).
  - vm_compute. reflexivity.
  - reflexivity.
  - apply not_elem_of_dom. vm_compute. reflexivity.
Defined.

(** ** Dispatch *)

(** C8, as the code has it.  [ServeHTTP] takes its context from the pool
    before it looks anything up.  The pool of a router made by [New] holds
    nothing when the first request arrives and makes its contexts with
    [newContext(nil, nil)], which calls [Context] on the nil request: the
    request panics and puts no context back, and so does every request
    after it.  No request reaches the lookup in the trees of the other
    methods, a hook, the 405 or the 404. *)
Theorem ServeHTTP_panics_before_lookup (pooled : option Context.Context) :
  pooledContext pooled →
  ∀ fuel r gs order method p,
    Router.ServeHTTP fuel r gs order pooled method p
    = Panic "runtime error: invalid memory address or nil pointer dereference".
Proof.
  induction 1 as [|fuel r gs order pooled method p s c _ IH Hserve]; intros.
  - reflexivity.
  - rewrite IH in Hserve. discriminate.
Qed.

Lemma ServeHTTP_panics_before_lookup_witness :
  Router.ServeHTTP 8
    (routerOf Router.New [("GET", bytes "/x", Func [Emit "get"]);
                          ("POST", bytes "/x", Func [Emit "post"])])
    [] ["GET"; "POST"] None "PUT" (bytes "/x")
  = Panic "runtime error: invalid memory address or nil pointer dereference".
Proof.
  apply (ServeHTTP_panics_before_lookup None). apply pooled_nothing.
Defined.

(** ** The handler chain *)

Lemma bind_Ok {A B} (a : A) (f : A → result B) : (x ← Ok a; f x) = f a.
Proof. reflexivity. Qed.

Lemma Next_S (fuel : nat) (gs : list RouterGroup.RouterGroup) (c : Context.Context) :
  Context.Next (S fuel) gs c
  = Context.nextLoop fuel gs (Context.set_index c (Context.index c + 1)).
Proof. reflexivity. Qed.

Lemma nextLoop_call (fuel : nat) (gs : list RouterGroup.RouterGroup)
    (c : Context.Context) (k : nat) (h : HandlerFunc) :
  Context.index c = Z.of_nat k →
  Context.handlers c !! k = Some h →
  Context.nextLoop (S fuel) gs c
  = (c' ← Context.call fuel gs h (Context.log c (Context.Invoke (Z.of_nat k)));
     Context.nextLoop fuel gs (Context.set_index c' (Context.index c' + 1))).
Proof.
  intros Hk Hh. simpl. rewrite Hk.
  apply lookup_lt_Some in Hh as Hlt.
  destruct (decide (Z.of_nat k < Z.of_nat (length (Context.handlers c)))%Z); [|lia].
  destruct (decide (Z.of_nat k < 0)%Z); [lia|].
  rewrite Nat2Z.id, Hh. reflexivity.
Qed.

Lemma nextLoop_done (fuel : nat) (gs : list RouterGroup.RouterGroup)
    (c : Context.Context) :
  (Z.of_nat (length (Context.handlers c)) ≤ Context.index c)%Z →
  Context.nextLoop (S fuel) gs c = Ok c.
Proof.
  intros Hge. simpl.
  destruct (decide (Context.index c < Z.of_nat (length (Context.handlers c)))%Z);
    [lia|reflexivity].
Qed.

Lemma emitAll_cons (c : Context.Context) (tag : string) (body : list stmt) :
  emitAll (Context.log c (Context.Emitted tag)) body = emitAll c (Emit tag :: body).
Proof. unfold emitAll, Context.log. simpl. by rewrite <- app_assoc. Qed.

Lemma emitAll_nil (c : Context.Context) : emitAll c [] = c.
Proof. destruct c. unfold emitAll. simpl. by rewrite app_nil_r. Qed.

(** A body of [Emit]s runs to its end and leaves the cursor alone. *)
Lemma exec_plain (body : list stmt) :
  Forall isEmit body →
  ∀ fuel gs c, length body < fuel → Context.exec fuel gs body c = Ok (emitAll c body).
Proof.
  induction 1 as [|s body Hs _ IH]; intros fuel gs c Hfuel.
  - destruct fuel; [simpl in Hfuel; lia|]. simpl. by rewrite emitAll_nil.
  - destruct fuel; [simpl in Hfuel; lia|]. simpl in Hfuel.
    destruct s as [tag| |]; try contradiction. simpl.
    change (Context.exec fuel gs body (Context.log c (Context.Emitted tag))
            = Ok (emitAll c (Emit tag :: body))).
    rewrite IH by lia. by rewrite emitAll_cons.
Qed.

Lemma call_plain (body : list stmt) (fuel : nat)
    (gs : list RouterGroup.RouterGroup) (c : Context.Context) :
  Forall isEmit body → length body < fuel →
  Context.call (S fuel) gs (Func body) c = Ok (emitAll c body).
Proof. intros Hb Hf. simpl. by apply exec_plain. Qed.

(** C2, as the code has it.  When the handler at index [k] returns without
    calling [Next] and without calling [Abort], the loop of the [Next] that
    called it advances the cursor and calls the handler at index [k + 1]:
    the chain does not stop by itself. *)
Theorem nextLoop_continues_after_plain_handler (fuel : nat)
    (gs : list RouterGroup.RouterGroup) (c : Context.Context) (k : nat)
    (body : list stmt) (h' : HandlerFunc) :
  Context.index c = Z.of_nat k →
  Context.handlers c !! k = Some (Func body) →
  Forall isEmit body →
  Context.handlers c !! S k = Some h' →
  length body < fuel →
  Context.nextLoop (S (S fuel)) gs c
  = (c' ← Context.call fuel gs h'
            (Context.log
               (Context.set_index
                  (emitAll (Context.log c (Context.Invoke (Z.of_nat k))) body)
                  (Z.of_nat (S k)))
               (Context.Invoke (Z.of_nat (S k))));
     Context.nextLoop fuel gs (Context.set_index c' (Context.index c' + 1))).
Proof.
  intros Hk Hh Hbody Hh' Hfuel.
  rewrite (nextLoop_call _ _ _ k (Func body)) by done.
  rewrite call_plain, bind_Ok by done.
  assert (Hidx : (Context.index
                    (emitAll (Context.log c (Context.Invoke (Z.of_nat k))) body)
                  + 1)%Z = Z.of_nat (S k)) by (simpl; lia).
  rewrite Hidx. by rewrite (nextLoop_call _ _ _ (S k) h').
Qed.

(** A chain in which no handler calls [Next] or [Abort] runs every handler,
    once, in the order of the chain. *)
Lemma nextLoop_plain_chain (M : nat) (gs : list RouterGroup.RouterGroup)
    (ps : gmap str str) (rest : list HandlerFunc) :
  Forall plainHandler rest →
  Forall (λ h, length (bodyOf h) ≤ M) rest →
  ∀ done fuel tr,
    length rest + M + 2 ≤ fuel →
    Context.nextLoop fuel gs (Context.mk ps (Z.of_nat (length done)) (done ++ rest) tr)
    = Ok (Context.mk ps (Z.of_nat (length (done ++ rest))) (done ++ rest)
            (tr ++ plainTrace (length done) rest)).
Proof.
  intros Hplain HM. induction rest as [|h rest IH]; intros done fuel tr Hfuel.
  - destruct fuel as [|fuel]; [lia|]. simpl plainTrace. rewrite !app_nil_r.
    by rewrite nextLoop_done by (simpl; lia).
  - inversion Hplain as [|? ? Hh Hrest]; subst.
    inversion HM as [|? ? Hlen HMrest]; subst.
    destruct h as [body|]; [|done]. simpl in Hh, Hlen, Hfuel.
    destruct fuel as [|[|fuel]]; [lia|lia|].
    rewrite (nextLoop_call _ _ _ (length done) (Func body));
      [|done|by apply list_lookup_middle].
    rewrite call_plain, bind_Ok by (done || lia).
    specialize (IH Hrest HMrest (done ++ [Func body]) (S fuel)
                  (tr ++ Context.Invoke (Z.of_nat (length done))
                      :: (Context.Emitted ∘ tagOf <$> body))
                  ltac:(lia)).
    rewrite <- !app_assoc, length_app in IH. cbn [app length] in IH.
    rewrite Nat.add_1_r in IH.
    cbn [plainTrace bodyOf]. rewrite <- IH. f_equal.
    unfold emitAll, Context.log, Context.set_index.
    simpl. f_equal; [lia|]. by rewrite <- app_assoc.
Qed.

Lemma invoked_plainTrace (hs : list HandlerFunc) (k : nat) :
  invoked (plainTrace k hs) = Z.of_nat <$> seq k (length hs).
Proof.
  revert k. induction hs as [|h hs IH]; intros k; [done|].
  simpl. unfold invoked in *. rewrite omap_app, IH. f_equal.
  assert (omap (λ e, match e with
                     | Context.Invoke i => Some i
                     | Context.Emitted _ => None
                     end) (Context.Emitted ∘ tagOf <$> bodyOf h) = []) as ->; [|done].
  induction (bodyOf h) as [|s b IHb]; [done|]. simpl. exact IHb.
Qed.

Lemma nextLoop_continues_after_plain_handler_witness :
  Context.nextLoop 6 []
    (Context.mk ∅ 0 [Func [Emit "first"]; Func [Emit "second"]] [])
  = Ok (Context.mk ∅ 2 [Func [Emit "first"]; Func [Emit "second"]]
          [Context.Invoke 0; Context.Emitted "first";
           Context.Invoke 1; Context.Emitted "second"]).
Proof.
  rewrite (nextLoop_continues_after_plain_handler 4 [] _ 0 [Emit "first"]
             (Func [Emit "second"]));
    [reflexivity | reflexivity | reflexivity | | reflexivity | simpl; lia].
  repeat constructor.
Defined.

(** C2, as the specification words it, fails: a first handler that only
    emits an event is followed by the second. *)
Lemma implicit_termination_counterexample :
  let hs := [Func [Emit "first"]; Func [Emit "second"]] in
  hs !! 0 = Some (Func [Emit "first"]) ∧ Forall isEmit [Emit "first"] ∧
  ¬ terminatesImplicitly hs 0.
Proof.
  split; [reflexivity|]. split; [repeat constructor|].
  intros Hstop.
  apply (Hstop 6 [] ∅ _ eq_refl 1%Z); [lia|].
  vm_compute. apply list_elem_of_In. simpl. tauto.
Qed.

(** ** The onion

    A chain of canonical middleware around a last handler runs the pre-work
    in the order of the chain, then the last handler, then the post-work in
    the reverse order.  The last handler is any handler that returns with
    the trace extended by [T], leaving the cursor and the chain as they
    were, when it has at least the fuel [ft]. *)

Lemma nextLoop_onion (gs : list RouterGroup.RouterGroup) (t : HandlerFunc)
    (T : list Context.event) (ft : nat) (ws : list (string * string)) :
  ∀ done fuel c,
    Context.handlers c = done ++ arounds ws ++ [t] →
    Context.index c = Z.of_nat (length done) →
    (∀ f c0, ft ≤ f → Context.handlers c0 = Context.handlers c →
             Context.call f gs t c0
             = Ok (Context.mk (Context.Params c0) (Context.index c0)
                     (Context.handlers c0) (Context.trace c0 ++ T))) →
    ft + 5 * length ws + 2 ≤ fuel →
    Context.nextLoop fuel gs c
    = Ok (Context.mk (Context.Params c)
            (Z.of_nat (length (Context.handlers c) + length ws))
            (Context.handlers c)
            (Context.trace c ++
             onionTrace (length done) ws
               (Context.Invoke (Z.of_nat (length done + length ws)) :: T))).
Proof.
  induction ws as [|[pre post] ws IH]; intros done fuel c Hhs Hidx Ht Hfuel.
  - simpl in *. destruct fuel as [|[|fuel]]; [lia|lia|].
    rewrite (nextLoop_call _ _ _ (length done) t);
      [|done|rewrite Hhs; by apply list_lookup_middle].
    rewrite Ht by (done || lia). rewrite bind_Ok.
    rewrite nextLoop_done.
    2:{ simpl. rewrite Hhs, length_app. simpl. lia. }
    unfold Context.set_index, Context.log. simpl.
    rewrite !Nat.add_0_r, <- app_assoc. simpl.
    f_equal. f_equal. rewrite Hhs, length_app. simpl. lia.
  - simpl length in Hfuel.
    destruct fuel as [|[|[|[|[|fuel]]]]]; try lia.
    rewrite (nextLoop_call _ _ _ (length done) (around pre post));
      [|done|rewrite Hhs; by apply list_lookup_middle].
    set (c1 := Context.log c (Context.Invoke (Z.of_nat (length done)))).
    set (c2 := Context.log c1 (Context.Emitted pre)).
    assert (Hcall : Context.call (S (S (S (S fuel)))) gs (around pre post) c1
                    = (c3 ← Context.nextLoop fuel gs
                              (Context.set_index c2 (Context.index c2 + 1));
                       Context.exec (S fuel) gs [Emit post] c3))
      by reflexivity.
    rewrite Hcall.
    rewrite (IH (done ++ [around pre post]) fuel
               (Context.set_index c2 (Context.index c2 + 1))).
    + rewrite bind_Ok.
      destruct fuel as [|fuel]; [lia|].
      cbn [Context.exec]. rewrite !bind_Ok.
      rewrite nextLoop_done.
      2:{ simpl. lia. }
      unfold Context.set_index, Context.log, c2, c1, Context.log. simpl.
      rewrite length_app. simpl.
      f_equal. f_equal.
      * lia.
      * rewrite <- !app_assoc. simpl. do 4 f_equal.
        rewrite Nat.add_1_r. do 3 f_equal. lia.
    + simpl. rewrite Hhs. by rewrite <- app_assoc.
    + simpl. rewrite Hidx, length_app. simpl. lia.
    + intros f c0 Hf Hc0. apply Ht; [lia|]. rewrite Hc0. done.
    + lia.
Qed.

Lemma emitted_app (t1 t2 : list Context.event) :
  emitted (t1 ++ t2) = emitted t1 ++ emitted t2.
Proof. apply omap_app. Qed.

Lemma emitted_onionTrace (ws : list (string * string)) (k : nat)
    (inner : list Context.event) :
  emitted (onionTrace k ws inner)
  = (fst <$> ws) ++ emitted inner ++ reverse (snd <$> ws).
Proof.
  revert k. induction ws as [|[pre post] ws IH]; intros k; simpl.
  - by rewrite app_nil_r.
  - change (emitted (Context.Invoke (Z.of_nat k) :: Context.Emitted pre
                     :: onionTrace (S k) ws inner ++ [Context.Emitted post]))
      with (pre :: emitted (onionTrace (S k) ws inner ++ [Context.Emitted post])).
    rewrite emitted_app, IH, reverse_cons, <- !app_assoc. reflexivity.
Qed.

Lemma emitted_plain (body : list stmt) :
  Forall isEmit body → emitted (Context.Emitted ∘ tagOf <$> body) = tagOf <$> body.
Proof.
  induction 1 as [|s body Hs _ IH]; [done|].
  destruct s; try done. unfold emitted in *. cbn. f_equal. exact IH.
Qed.

(** ** Route groups *)

Lemma written_own (arr start : nat) (xs : list HandlerFunc)
    (B : RouterGroup.RouterGroup) :
  RouterGroup.backing B = None → RouterGroup.written arr start xs B = B.
Proof. intros H. unfold RouterGroup.written. by rewrite H. Qed.

Lemma written_keeps (arr start : nat) (xs : list HandlerFunc)
    (B : RouterGroup.RouterGroup) :
  RouterGroup.parent (RouterGroup.written arr start xs B) = RouterGroup.parent B ∧
  RouterGroup.backing (RouterGroup.written arr start xs B) = RouterGroup.backing B ∧
  RouterGroup.prefix (RouterGroup.written arr start xs B) = RouterGroup.prefix B.
Proof.
  unfold RouterGroup.written.
  destruct (RouterGroup.backing B) as [[[arr' off] cap]|] eqn:Hb.
  - destruct (decide (arr' = arr)); simpl; by rewrite ?Hb.
  - by rewrite Hb.
Qed.

Lemma combineMiddlewareFrom_S (gs : list RouterGroup.RouterGroup)
    (fuel g : nat) (ms : list HandlerFunc) :
  RouterGroup.combineMiddlewareFrom fuel gs g = Ok ms →
  RouterGroup.combineMiddlewareFrom (S fuel) gs g = Ok ms.
Proof.
  revert g ms. induction fuel as [|fuel IH]; intros g ms Hc; [done|].
  change (RouterGroup.combineMiddlewareFrom (S (S fuel)) gs g)
    with (match gs !! g with
          | None => Panic "runtime error: invalid memory address or nil pointer dereference"
          | Some G =>
              match RouterGroup.parent G with
              | Some p =>
                  ms ← RouterGroup.combineMiddlewareFrom (S fuel) gs p;
                  Ok (ms ++ RouterGroup.middleware G)
              | None => Ok ([] ++ RouterGroup.middleware G)
              end
          end).
  simpl in Hc. destruct (gs !! g) as [G|]; [|done].
  destruct (RouterGroup.parent G) as [p|]; [|done].
  destruct (RouterGroup.combineMiddlewareFrom fuel gs p) as [X| |] eqn:HX;
    try done.
  by rewrite (IH _ _ HX).
Qed.

Section group_store.
Variables (gs gs' : list RouterGroup.RouterGroup) (a : nat)
          (late : list HandlerFunc).
Hypothesis use_a : RouterGroup.Use gs a late = Ok gs'.

Lemma Use_length : length gs' = length gs.
Proof.
  unfold RouterGroup.Use in use_a. destruct (gs !! a) as [A|]; [|done].
  destruct (RouterGroup.backing A) as [[[arr off] cap]|].
  - destruct (decide (_ ≤ cap)); injection use_a as <-.
    + by rewrite length_insert, length_fmap.
    + by rewrite length_insert.
  - injection use_a as <-. by rewrite length_insert.
Qed.

(** The group [a] after the [Use]. *)
Lemma Use_lookup_eq (A : RouterGroup.RouterGroup) :
  gs !! a = Some A →
  ∃ A', gs' !! a = Some A' ∧
        RouterGroup.middleware A' = RouterGroup.middleware A ++ late ∧
        RouterGroup.parent A' = RouterGroup.parent A ∧
        RouterGroup.prefix A' = RouterGroup.prefix A ∧
        (RouterGroup.backing A' = RouterGroup.backing A ∨
         RouterGroup.backing A' = None).
Proof.
  intros HA. apply lookup_lt_Some in HA as Hlt.
  unfold RouterGroup.Use in use_a. rewrite HA in use_a.
  destruct (RouterGroup.backing A) as [[[arr off] cap]|] eqn:Hb.
  - destruct (decide (_ ≤ cap)); injection use_a as <-.
    + eexists. split; [apply list_lookup_insert_eq; by rewrite length_fmap|].
      simpl. rewrite Hb. auto.
    + eexists. split; [by apply list_lookup_insert_eq|]. simpl. auto.
  - injection use_a as <-.
    eexists. split; [by apply list_lookup_insert_eq|]. simpl. rewrite Hb. auto.
Qed.

(** Another group after the [Use]: its links are what they were. *)
Lemma Use_lookup_ne (g : nat) (G' : RouterGroup.RouterGroup) :
  g ≠ a → gs' !! g = Some G' →
  ∃ G, gs !! g = Some G ∧
       RouterGroup.parent G' = RouterGroup.parent G ∧
       RouterGroup.backing G' = RouterGroup.backing G ∧
       RouterGroup.prefix G' = RouterGroup.prefix G.
Proof.
  intros Hne HG'. unfold RouterGroup.Use in use_a.
  destruct (gs !! a) as [A|]; [|done].
  destruct (RouterGroup.backing A) as [[[arr off] cap]|].
  - destruct (decide (_ ≤ cap)); injection use_a as <-;
      rewrite list_lookup_insert_ne in HG' by done.
    + rewrite list_lookup_fmap in HG'.
      destruct (gs !! g) as [G|]; [|done]. injection HG' as <-.
      exists G. split; [done|]. apply written_keeps.
    + by exists G'.
  - injection use_a as <-. rewrite list_lookup_insert_ne in HG' by done.
    by exists G'.
Qed.

(** Another group whose slice has an array of its own is what it was. *)
Lemma Use_lookup_own (g : nat) (G : RouterGroup.RouterGroup) :
  g ≠ a → gs !! g = Some G → RouterGroup.backing G = None →
  gs' !! g = Some G.
Proof.
  intros Hne HG Hown. unfold RouterGroup.Use in use_a.
  destruct (gs !! a) as [A|]; [|done].
  destruct (RouterGroup.backing A) as [[[arr off] cap]|].
  - destruct (decide (_ ≤ cap)); injection use_a as <-;
      rewrite list_lookup_insert_ne by done; [|done].
    rewrite list_lookup_fmap, HG. simpl. by rewrite written_own.
  - injection use_a as <-. by rewrite list_lookup_insert_ne.
Qed.

(** [Use] on a group whose slice has an array of its own changes that
    group only. *)
Lemma Use_own (A : RouterGroup.RouterGroup) :
  gs !! a = Some A → RouterGroup.backing A = None →
  gs' = <[a := RouterGroup.set_middleware A (RouterGroup.middleware A ++ late)]> gs.
Proof.
  intros HA Hown. unfold RouterGroup.Use in use_a.
  rewrite HA, Hown in use_a. congruence.
Qed.

Lemma nestedOwn_Use : nestedOwn gs → nestedOwn gs'.
Proof.
  intros Hinv g G' HG' Hp. destruct (decide (g = a)) as [->|Hne].
  - assert (is_Some (gs !! a)) as [A HA].
    { apply lookup_lt_is_Some. rewrite <- Use_length.
      by eapply lookup_lt_Some. }
    destruct (Use_lookup_eq A HA) as (A' & HA' & _ & Hpar & _ & [Hb|Hb]).
    + rewrite HA' in HG'. injection HG' as <-. rewrite Hb.
      apply (Hinv a A HA). by rewrite <- Hpar.
    + rewrite HA' in HG'. by injection HG' as <-.
  - destruct (Use_lookup_ne g G' Hne HG') as (G & HG & Hpar & Hb & _).
    rewrite Hb. apply (Hinv g G HG). by rewrite <- Hpar.
Qed.

(** A group whose chain of parents does not pass through [a] combines the
    same middleware before and after a [Use] on [a] that changes [a] only. *)
Lemma combineMiddlewareFrom_off_chain (A : RouterGroup.RouterGroup)
    (fuel g : nat) :
  gs !! a = Some A → RouterGroup.backing A = None →
  ¬ onChain gs g a →
  RouterGroup.combineMiddlewareFrom fuel gs' g
  = RouterGroup.combineMiddlewareFrom fuel gs g.
Proof.
  intros HA Hown. rewrite (Use_own A HA Hown).
  revert g. induction fuel as [|fuel IH]; intros g Hoff; [done|].
  simpl. destruct (decide (g = a)) as [->|Hne].
  - exfalso. apply Hoff. by eapply onChain_self.
  - rewrite list_lookup_insert_ne by done.
    destruct (gs !! g) as [G|] eqn:HG; [|done].
    destruct (RouterGroup.parent G) as [p|] eqn:Hp; [|done].
    rewrite IH; [done|].
    intros Hon. apply Hoff. by eapply onChain_parent.
Qed.

Lemma onChain_trans (g b c : nat) :
  onChain gs g b → onChain gs b c → onChain gs g c.
Proof.
  induction 1 as [g G HG|g G p b HG Hp _ IH]; intros Hbc; [done|].
  eapply onChain_parent; eauto.
Qed.

(** [combineMiddleware] returns only for a chain of parents without a
    cycle. *)
Lemma combineMiddlewareFrom_acyclic (fuel g : nat)
    (G : RouterGroup.RouterGroup) (p : nat) (ms : list HandlerFunc) :
  RouterGroup.combineMiddlewareFrom fuel gs g = Ok ms →
  gs !! g = Some G → RouterGroup.parent G = Some p →
  ¬ onChain gs p g.
Proof.
  revert g G p ms. induction fuel as [|fuel IH]; intros g G p ms Hc HG Hp Hon;
    [done|].
  simpl in Hc. rewrite HG, Hp in Hc.
  destruct (RouterGroup.combineMiddlewareFrom fuel gs p) as [X| |] eqn:HX;
    try done.
  inversion Hon as [? P HP|? P q ? HP Hq Hqg]; subst.
  - rewrite HG in HP. injection HP as <-.
    eapply (IH g G g X); eauto.
  - eapply (IH p P q X); eauto.
    eapply onChain_trans; [exact Hqg|].
    eapply onChain_parent; eauto. by eapply onChain_self.
Qed.

(** The middleware a group on the chain of [a] combines after the [Use]:
    what [a] combined, then [late], then the rest of what the group
    combined. *)
Lemma combineMiddlewareFrom_Use (fuel g : nat) (ms : list HandlerFunc) :
  nestedOwn gs →
  RouterGroup.combineMiddlewareFrom fuel gs g = Ok ms →
  onChain gs g a →
  ∃ ma ms2,
    RouterGroup.combineMiddlewareFrom fuel gs a = Ok ma ∧ ms = ma ++ ms2 ∧
    RouterGroup.combineMiddlewareFrom fuel gs' g = Ok (ma ++ late ++ ms2).
Proof.
  intros Hinv. revert g ms.
  induction fuel as [|fuel IH]; intros g ms Hc Hon; [done|].
  pose proof Hc as Hc0. simpl in Hc. simpl.
  destruct (gs !! g) as [G|] eqn:HG; [|done].
  destruct (decide (g = a)) as [->|Hne].
  - destruct (Use_lookup_eq G HG) as (A' & -> & Hmw & Hpar & _).
    rewrite Hpar, Hmw.
    exists ms, []. split; [exact Hc0|]. split; [by rewrite app_nil_r|].
    rewrite app_nil_r.
    destruct (RouterGroup.parent G) as [p|] eqn:Hp.
    + destruct (RouterGroup.combineMiddlewareFrom fuel gs p) as [X| |] eqn:HX;
        try done.
      injection Hc as <-.
      rewrite (combineMiddlewareFrom_off_chain G), HX.
      * simpl. by rewrite app_assoc.
      * done.
      * apply (Hinv a G HG). by rewrite Hp.
      * eapply (combineMiddlewareFrom_acyclic (S fuel) a G p); eauto.
    + by injection Hc as <-.
  - inversion Hon as [|? G' p ? HG' Hp Hpa]; subst; [done|].
    rewrite HG in HG'. injection HG' as <-.
    rewrite (Use_lookup_own g G Hne HG) by (apply (Hinv g G HG); by rewrite Hp).
    rewrite Hp in Hc |- *.
    destruct (RouterGroup.combineMiddlewareFrom fuel gs p) as [X| |] eqn:HX;
      try done.
    injection Hc as <-.
    destruct (IH p X HX Hpa) as (ma & x2 & Ha & -> & ->).
    exists ma, (x2 ++ RouterGroup.middleware G). simpl.
    split; [by apply combineMiddlewareFrom_S|].
    split; [by rewrite app_assoc|]. by rewrite <- !app_assoc.
Qed.
End group_store.

(** [nestedOwn] holds of the empty store, and the two ways of making a group
    keep it. *)
Lemma nestedOwn_nil : nestedOwn [].
Proof. intros g G HG. by rewrite lookup_nil in HG. Qed.

Lemma nestedOwn_Router_Group (gs : list RouterGroup.RouterGroup) (prefix : str)
    (mws : list HandlerFunc) (b : option (nat * nat * nat)) :
  nestedOwn gs → nestedOwn (Router.Group gs prefix mws b).1.
Proof.
  intros Hinv g G HG Hp. simpl in HG.
  apply lookup_app_Some in HG as [HG|[_ HG]]; [by eapply Hinv|].
  apply list_lookup_singleton_Some in HG as [_ <-].
  simpl in Hp. by destruct Hp.
Qed.

Lemma nestedOwn_Group (gs gs' : list RouterGroup.RouterGroup) (g g' : nat)
    (prefix : str) (mws : list HandlerFunc) :
  nestedOwn gs → RouterGroup.Group gs g prefix mws = Ok (gs', g') →
  nestedOwn gs'.
Proof.
  intros Hinv Hg. unfold RouterGroup.Group in Hg.
  destruct (gs !! g) as [G0|]; [|done].
  destruct (RouterGroup.combineMiddleware gs g) as [ms| |]; try done.
  simpl in Hg. injection Hg as <- <-. intros i G HG Hp.
  apply lookup_app_Some in HG as [HG|[_ HG]]; [by eapply Hinv|].
  by apply list_lookup_singleton_Some in HG as [_ <-].
Qed.

Lemma combineMiddlewareFrom_extend (gs ext : list RouterGroup.RouterGroup)
    (fuel g : nat) (ms : list HandlerFunc) :
  RouterGroup.combineMiddlewareFrom fuel gs g = Ok ms →
  RouterGroup.combineMiddlewareFrom fuel (gs ++ ext) g = Ok ms.
Proof.
  revert g ms. induction fuel as [|fuel IH]; intros g ms Hc; [done|].
  simpl in *. destruct (gs !! g) as [G|] eqn:HG; [|done].
  rewrite (lookup_app_l_Some _ _ _ _ HG).
  destruct (RouterGroup.parent G) as [p|]; [|done].
  destruct (RouterGroup.combineMiddlewareFrom fuel gs p) as [X| |] eqn:HX; try done.
  by rewrite (IH _ _ HX).
Qed.

(** The defect behind C4: [Group] stores the combined middleware of the
    parent in the new group, and [combineMiddleware] of the new group
    combines the parent's again in front of it. *)
Lemma Group_combines_parent_twice (gs : list RouterGroup.RouterGroup) (g : nat)
    (prefix : str) (mws ms : list HandlerFunc) :
  RouterGroup.combineMiddleware gs g = Ok ms →
  ∃ gs' g', RouterGroup.Group gs g prefix mws = Ok (gs', g') ∧
            RouterGroup.combineMiddleware gs' g' = Ok (ms ++ (ms ++ mws)).
Proof.
  intros Hms. unfold RouterGroup.Group. rewrite Hms.
  unfold RouterGroup.combineMiddleware in Hms.
  destruct (gs !! g) as [G|] eqn:HG.
  - eexists _, _. split; [reflexivity|].
    unfold RouterGroup.combineMiddleware. rewrite length_app, Nat.add_1_r.
    simpl. rewrite lookup_app_r, Nat.sub_diag by done. simpl.
    by rewrite (combineMiddlewareFrom_extend _ _ _ _ _ Hms).
  - destruct (length gs); simpl in Hms; [done|]. by rewrite HG in Hms.
Qed.

Lemma call_plain_spec (body : list stmt) (f : nat)
    (gs : list RouterGroup.RouterGroup) (c0 : Context.Context) :
  Forall isEmit body → length body + 2 ≤ f →
  Context.call f gs (Func body) c0
  = Ok (Context.mk (Context.Params c0) (Context.index c0) (Context.handlers c0)
          (Context.trace c0 ++ (Context.Emitted ∘ tagOf <$> body))).
Proof.
  intros Hb Hf. destruct f as [|f]; [lia|].
  rewrite call_plain by (done || lia). reflexivity.
Qed.

(** The closure of [handle] is an onion of the middleware its group
    combines, inside the chain that called it. *)
Lemma call_finalHandler_onion (gs : list RouterGroup.RouterGroup) (g : nat)
    (ws : list (string * string)) (body : list stmt) (f : nat)
    (c0 : Context.Context) :
  RouterGroup.combineMiddleware gs g = Ok (arounds ws) →
  Forall isEmit body →
  length body + 5 * length ws + 6 ≤ f →
  Context.call f gs (finalHandler g (Func body)) c0
  = Ok (Context.mk (Context.Params c0) (Context.index c0) (Context.handlers c0)
          (Context.trace c0 ++
           onionTrace 0 ws
             (Context.Invoke (Z.of_nat (length ws))
              :: (Context.Emitted ∘ tagOf <$> body)))).
Proof.
  intros Hms Hb Hf. destruct f as [|[|f]]; [lia|lia|].
  cbn [Context.call]. rewrite Hms, bind_Ok. rewrite Next_S.
  rewrite (nextLoop_onion gs (Func body) (Context.Emitted ∘ tagOf <$> body)
             (length body + 2) ws []).
  - reflexivity.
  - reflexivity.
  - reflexivity.
  - intros f' c' Hf' _. by apply call_plain_spec.
  - lia.
Qed.

(** What the closure of [handle] emits, inside the chain that called it. *)
Lemma call_finalHandler_emitted (gs : list RouterGroup.RouterGroup) (g : nat)
    (ws : list (string * string)) (body : list stmt) (f : nat)
    (c0 : Context.Context) :
  RouterGroup.combineMiddleware gs g = Ok (arounds ws) →
  Forall isEmit body →
  length body + 5 * length ws + 6 ≤ f →
  ∃ c, Context.call f gs (finalHandler g (Func body)) c0 = Ok c ∧
       Context.handlers c = Context.handlers c0 ∧
       Context.index c = Context.index c0 ∧
       emitted (Context.trace c)
       = emitted (Context.trace c0) ++ (fst <$> ws) ++ (tagOf <$> body)
         ++ reverse (snd <$> ws).
Proof.
  intros Hms Hb Hf. eexists. split; [by apply call_finalHandler_onion|].
  split; [done|]. split; [done|]. cbn [Context.trace].
  rewrite emitted_app, emitted_onionTrace.
  change (emitted (Context.Invoke ?i :: ?t)) with (emitted t).
  by rewrite emitted_plain.
Qed.

(** C9, as the code has it.  The closure registered by [handle] reads the
    middleware of its group and of the ancestors when it is called.  After
    [a.Use(late...)], for [a] the group of the route or an ancestor of it
    (the slices of nested groups lying over arrays of their own, as [Group]
    makes them), the closure of a route registered before drives the chain
    that [a] combined before the [Use], then [late], then the rest of the
    chain the group of the route combined; and when these are canonical
    middleware around a handler that only emits, the closure runs them in
    this order, the pre-work of [late] directly after that of the chain of
    [a] and its post-work directly before. *)
Theorem group_middleware_read_at_dispatch
    (gs gs' : list RouterGroup.RouterGroup) (g a : nat)
    (late ms : list HandlerFunc) (handler : HandlerFunc) :
  nestedOwn gs →
  RouterGroup.combineMiddleware gs g = Ok ms →
  onChain gs g a →
  RouterGroup.Use gs a late = Ok gs' →
  ∃ ma ms2,
    RouterGroup.combineMiddleware gs a = Ok ma ∧ ms = ma ++ ms2 ∧
    RouterGroup.combineMiddleware gs' g = Ok (ma ++ late ++ ms2) ∧
    (∀ fuel c,
      Context.call (S fuel) gs' (finalHandler g handler) c
      = (c' ← Context.Next fuel gs'
                (Context.set_index
                   (Context.set_handlers c ((ma ++ late ++ ms2) ++ [handler]))
                   (-1));
         Ok (Context.set_index
               (Context.set_handlers c' (Context.handlers c))
               (Context.index c)))) ∧
    (∀ A L V body fuel c,
      ma = arounds A → late = arounds L → ms2 = arounds V →
      handler = Func body → Forall isEmit body →
      length body + 5 * length (A ++ L ++ V) + 6 ≤ fuel →
      ∃ c', Context.call fuel gs' (finalHandler g handler) c = Ok c' ∧
            emitted (Context.trace c')
            = emitted (Context.trace c) ++ (fst <$> A ++ L ++ V)
              ++ (tagOf <$> body) ++ reverse (snd <$> A ++ L ++ V)).
Proof.
  intros Hinv Hms Hon Huse. unfold RouterGroup.combineMiddleware in Hms.
  destruct (combineMiddlewareFrom_Use gs gs' a late Huse _ g ms Hinv Hms Hon)
    as (ma & ms2 & Hma & -> & Hnew).
  assert (Hnew' : RouterGroup.combineMiddleware gs' g = Ok (ma ++ late ++ ms2)).
  { unfold RouterGroup.combineMiddleware.
    by rewrite (Use_length gs gs' a late Huse). }
  exists ma, ms2. split; [exact Hma|]. split; [done|]. split; [exact Hnew'|].
  split.
  - intros fuel c. simpl. rewrite Hnew'. reflexivity.
  - intros A L V body fuel c -> -> -> -> Hb Hfuel.
    destruct (call_finalHandler_emitted gs' g (A ++ L ++ V) body fuel c)
      as (c' & Hc' & _ & _ & He); [|done|done|by exists c'].
    rewrite Hnew'. unfold arounds. by rewrite !fmap_app.
Qed.

Lemma group_middleware_read_at_dispatch_witness :
  ∃ ma ms2,
    RouterGroup.combineMiddleware nestedStore 0 = Ok ma ∧
    [around "api>" "api<"; around "api>" "api<"; around "v1>" "v1<"] = ma ++ ms2 ∧
    RouterGroup.combineMiddleware
      (unwrap [] (RouterGroup.Use nestedStore 0 [around "late>" "late<"])) 1
    = Ok (ma ++ [around "late>" "late<"] ++ ms2).
Proof.
  destruct (group_middleware_read_at_dispatch nestedStore
              (unwrap [] (RouterGroup.Use nestedStore 0 [around "late>" "late<"]))
              1 0 [around "late>" "late<"]
              [around "api>" "api<"; around "api>" "api<"; around "v1>" "v1<"]
              (Func [Emit "h"]))
    as (ma & ms2 & Ha & Hms & Hnew & _).
  - intros [|[|g]] G HG Hp; simpl in HG.
    + injection HG as <-. simpl in Hp. by destruct Hp.
    + by injection HG as <-.
    + by rewrite lookup_nil in HG.
  - reflexivity.
  - eapply onChain_parent; [reflexivity|reflexivity|].
    eapply onChain_self. reflexivity.
  - reflexivity.
  - by exists ma, ms2.
Defined.

(** C9, as the specification words it, fails.  [api.GET("/x", h)] registers
    the closure of the group [api] and of [h]; called before
    [api.Use(late)] the closure runs [api] around [h], called after it the
    closure runs [late] as well.  So does the closure of a route of the
    nested group [v1] after [api.Use(late)] on its parent. *)
Lemma fixed_at_registration_counterexample :
  ownHandler apiRouter "GET" (bytes "/api/x")
  = Ok (Some (finalHandler 0 (Func [Emit "h"]), ∅)) ∧
  (∃ c, Context.call 20 apiStore (finalHandler 0 (Func [Emit "h"]))
          (Context.mk ∅ 0 [finalHandler 0 (Func [Emit "h"])] []) = Ok c ∧
        emitted (Context.trace c) = ["api>"; "h"; "api<"]) ∧
  (∃ gs', RouterGroup.Use apiStore 0 [around "late>" "late<"] = Ok gs' ∧
     ∃ c, Context.call 20 gs' (finalHandler 0 (Func [Emit "h"]))
            (Context.mk ∅ 0 [finalHandler 0 (Func [Emit "h"])] []) = Ok c ∧
          emitted (Context.trace c) = ["api>"; "late>"; "h"; "late<"; "api<"]) ∧
  ownHandler nestedRouter "GET" (bytes "/api/v1/x")
  = Ok (Some (finalHandler 1 (Func [Emit "h"]), ∅)) ∧
  (∃ gs', RouterGroup.Use nestedStore 0 [around "late>" "late<"] = Ok gs' ∧
     ∃ c, Context.call 40 gs' (finalHandler 1 (Func [Emit "h"]))
            (Context.mk ∅ 0 [finalHandler 1 (Func [Emit "h"])] []) = Ok c ∧
          emitted (Context.trace c)
          = ["api>"; "late>"; "api>"; "v1>"; "h"; "v1<"; "api<"; "late<"; "api<"]).
Proof.
  split; [vm_compute; reflexivity|].
  split; [eexists; split; vm_compute; reflexivity|].
  split; [eexists; split; [reflexivity|eexists; split; vm_compute; reflexivity]|].
  split; [vm_compute; reflexivity|].
  eexists; split; [reflexivity|eexists; split; vm_compute; reflexivity].
Qed.

(** C4 for every canonical middleware of the router ([R]), of the outer
    group ([A]) and of the nested group ([V]): the chain of the router's
    middleware and the closure registered for the route, which is the chain
    [ServeHTTP] installs for a request the route matches, runs the onion
    [R], [A], [A], [V] around the handler, the middleware of the outer
    group twice. *)
Lemma nested_groups_onion (R A V : list (string * string)) (body : list stmt)
    (fuel : nat) :
  Forall isEmit body →
  length body + 5 * (length R + length (A ++ A ++ V)) + 9 ≤ fuel →
  ownHandler (nestedRouterOf R A V body) "GET" (bytes "/api/v1/x")
  = Ok (Some (finalHandler 1 (Func body), ∅)) ∧
  ∃ c, Context.Next fuel (nestedStoreOf A V)
         (Context.mk ∅ (-1)
            (Router.middleware (nestedRouterOf R A V body)
             ++ [finalHandler 1 (Func body)]) []) = Ok c ∧
       emitted (Context.trace c)
       = (fst <$> R) ++ (fst <$> A ++ A ++ V) ++ (tagOf <$> body)
         ++ reverse (snd <$> A ++ A ++ V) ++ reverse (snd <$> R).
Proof.
  intros Hb Hfuel. split; [reflexivity|].
  change (Router.middleware (nestedRouterOf R A V body)) with (arounds R).
  assert (Hms : RouterGroup.combineMiddleware (nestedStoreOf A V) 1
                = Ok (arounds (A ++ A ++ V))).
  { unfold arounds. rewrite !fmap_app. reflexivity. }
  destruct fuel as [|fuel]; [lia|]. rewrite Next_S.
  rewrite (nextLoop_onion (nestedStoreOf A V) (finalHandler 1 (Func body))
             (onionTrace 0 (A ++ A ++ V)
                (Context.Invoke (Z.of_nat (length (A ++ A ++ V)))
                 :: (Context.Emitted ∘ tagOf <$> body)))
             (length body + 5 * length (A ++ A ++ V) + 6) R []).
  - eexists. split; [reflexivity|].
    change (Context.trace (Context.set_index _ _)) with (@nil Context.event).
    cbn [Context.trace app].
    rewrite emitted_onionTrace.
    change (emitted (Context.Invoke ?i :: ?t)) with (emitted t).
    rewrite emitted_onionTrace.
    change (emitted (Context.Invoke ?i :: ?t)) with (emitted t).
    rewrite emitted_plain by done.
    by rewrite <- !app_assoc.
  - reflexivity.
  - reflexivity.
  - intros f c0 Hf _. by apply call_finalHandler_onion.
  - lia.
Qed.

(** C4 at a route under [api] and its nested group [v1], with router
    middleware [R].  The nested group combines the middleware of the outer
    group twice; the handler registered for the route is the closure of the
    nested group, and called on a context it runs the middleware of the
    outer group twice around the middleware of the nested group; the chain
    of the router's middleware and this closure runs [R] around that. *)
Theorem nested_groups_dispatch_order :
  RouterGroup.Group apiStore 0 (bytes "/v1") [around "v1>" "v1<"]
  = Ok (nestedStore, 1) ∧
  RouterGroup.combineMiddleware nestedStore 1
  = Ok [around "api>" "api<"; around "api>" "api<"; around "v1>" "v1<"] ∧
  ownHandler nestedRouter "GET" (bytes "/api/v1/x")
  = Ok (Some (finalHandler 1 (Func [Emit "h"]), ∅)) ∧
  (∀ c0, ∃ c,
     Context.call 40 nestedStore (finalHandler 1 (Func [Emit "h"])) c0 = Ok c ∧
     emitted (Context.trace c)
     = emitted (Context.trace c0)
       ++ ["api>"; "api>"; "v1>"; "h"; "v1<"; "api<"; "api<"]) ∧
  ∃ c, Context.Next 40 nestedStore
         (Context.mk ∅ (-1)
            (Router.middleware nestedRouter ++ [finalHandler 1 (Func [Emit "h"])])
            []) = Ok c ∧
       emitted (Context.trace c)
       = ["R>"; "api>"; "api>"; "v1>"; "h"; "v1<"; "api<"; "api<"; "R<"].
Proof.
  split; [reflexivity|]. split; [reflexivity|].
  split; [vm_compute; reflexivity|]. split.
  - intros c0.
    destruct (call_finalHandler_emitted nestedStore 1
                [("api>", "api<"); ("api>", "api<"); ("v1>", "v1<")]
                [Emit "h"] 40 c0) as (c & Hc & _ & _ & He).
    + reflexivity.
    + by repeat constructor.
    + simpl. lia.
    + by exists c.
  - eexists. split; vm_compute; reflexivity.
Qed.

(** ** The radix tree: failing inputs *)

(** The lookup at a node whose child is a parameter node without children:
    a handler it returns is one of the parameter node. *)
Lemma getValueWalk_above_param (fuel : nat) (n pnode : node) (q : str)
    (method : string) (ps : gmap str str) :
  wildChild n = true → children n !! 0 = Some pnode →
  nType pnode = param → children pnode = [] →
  handlers n !! method = None →
  getValueWalk (S fuel) n q method ps = Ok None ∨
  ∃ h ps', handlers pnode !! method = Some h ∧
           getValueWalk (S fuel) n q method ps = Ok (Some (h, ps')).
Proof.
  intros Hw Hc Ht Hcs Hh. simpl.
  destruct (decide (length (path n) < length q)).
  - destruct (decide (take (length (path n)) q = path n)); [|by left].
    rewrite Hw, Hc, Ht, Hcs. simpl.
    destruct (decide (paramEnd _ < _)); [by left|].
    destruct (handlers pnode !! method) as [h|] eqn:Hp; [|by left].
    right. by eexists _, _.
  - destruct (decide (q = path n)); [|by left]. rewrite Hh. by left.
Qed.

(** C5 at [GET /a/:x] followed by [GET /a/b]: the literal segment is
    registered under the node whose child is the wildcard, the registration
    returns, the priority of the parameter node is incremented in place of
    that of the new child, and no lookup returns the new handler. *)
Theorem literal_under_wildcard_is_accepted :
  ∃ n1 n2,
    addRoute empty (bytes "/a/:x") "GET" (Func [Emit "x"]) = Ok n1 ∧
    wildChild n1 = true ∧
    addRoute n1 (bytes "/a/b") "GET" (Func [Emit "b"]) = Ok n2 ∧
    indices n2 = bytes "b" ∧ path <$> children n2 = [bytes ":x"; bytes "b"] ∧
    priority <$> children n2 = [2%N; 0%N] ∧
    ∀ q, getValue n2 q "GET" = Ok None ∨
         ∃ ps, getValue n2 q "GET" = Ok (Some (Func [Emit "x"], ps)).
Proof.
  eexists _, _. repeat split; try (vm_compute; reflexivity).
  intros q.
  lazymatch goal with
  | |- getValue ?n2 _ _ = _ ∨ _ =>
      destruct (getValueWalk_above_param 1 n2
                  (mkNode (bytes ":x") [] false param 2 []
                     {[ "GET" := Func [Emit "x"] ]} [bytes "x"])
                  q "GET" ∅) as [Hnone|(h & ps' & Hh & Hsome)];
        try (vm_compute; reflexivity)
  end.
  - by left.
  - right. exists ps'. cbn [handlers] in Hh.
    rewrite lookup_singleton_eq in Hh. injection Hh as <-. exact Hsome.
Qed.

(** The direction of C5 the code does implement: a wildcard segment at a
    node that has children is refused. *)
Lemma wildcard_at_children_panics (n : node) (p : str) (method : string)
    (handler : HandlerFunc) :
  0 < length (children n) → (0 ≤ (findWildcard p).1.2)%Z →
  ∃ msg, insertChild n p method handler = Panic msg.
Proof.
  intros Hcs Hw. unfold insertChild. simpl.
  destruct (findWildcard p) as [[wildcard i] valid]. simpl in Hw.
  destruct (i <? 0)%Z eqn:Hi; [apply Z.ltb_lt in Hi; lia|].
  destruct valid; simpl; [|by eexists].
  destruct (decide (length wildcard < 2)); [by eexists|].
  destruct (decide (0 < length (children n))); [by eexists|done].
Qed.

(** C3 at the same two registrations: both return, and the lookup of the
    second route yields the handler of the first, with a captured
    parameter. *)
Theorem lookup_of_shadowed_route :
  ∃ n,
    addRoutes empty [("GET", bytes "/a/:x", Func [Emit "x"]);
                     ("GET", bytes "/a/b", Func [Emit "b"])] = Ok n ∧
    getValue n (bytes "/a/b") "GET"
    = Ok (Some (Func [Emit "x"], {[ bytes "x" := bytes "b" ]})).
Proof. eexists. split; vm_compute; reflexivity. Qed.

(** C1, as the specification words it, fails: the second registration of
    [GET /x] returns. *)
Lemma duplicate_route_counterexample :
  ∃ n1 n2,
    addRoute empty (bytes "/x") "GET" (Func [Emit "first"]) = Ok n1 ∧
    getValue n1 (bytes "/x") "GET" = Ok (Some (Func [Emit "first"], ∅)) ∧
    addRoute n1 (bytes "/x") "GET" (Func [Emit "second"]) = Ok n2.
Proof. eexists _, _. repeat split; vm_compute; reflexivity. Qed.

(** ** Moving a child to the front *)

Section rot.
Context {A : Type}.
Implicit Types l : list A.

Lemma rot_length k pos l : k ≤ pos < length l → length (rot k pos l) = length l.
Proof.
  intros H. unfold rot.
  rewrite !length_app, !length_take, !length_drop. lia.
Qed.

Lemma rot_lookup k pos l i :
  k ≤ pos < length l →
  rot k pos l !! i =
    if decide (i < k) then l !! i
    else if decide (i = k) then l !! pos
    else if decide (i ≤ pos) then l !! (i - 1)
    else l !! i.
Proof.
  intros H. unfold rot.
  destruct (decide (i < k)).
  { rewrite lookup_app_l by (rewrite length_take; lia).
    by rewrite lookup_take_lt by lia. }
  rewrite lookup_app_r by (rewrite length_take; lia).
  rewrite length_take, Nat.min_l by lia.
  destruct (decide (i = k)) as [->|].
  { rewrite Nat.sub_diag. rewrite lookup_app_l by (rewrite length_take, length_drop; lia).
    rewrite lookup_take_lt by lia. rewrite lookup_drop. f_equal. lia. }
  rewrite lookup_app_r by (rewrite length_take, length_drop; lia).
  rewrite length_take, length_drop, Nat.min_l by lia.
  destruct (decide (i ≤ pos)).
  { rewrite lookup_app_l by (rewrite length_take, length_drop; lia).
    rewrite lookup_take_lt by lia. rewrite lookup_drop. f_equal. lia. }
  rewrite lookup_app_r by (rewrite length_take, length_drop; lia).
  rewrite length_take, length_drop, Nat.min_l by lia.
  rewrite lookup_drop. f_equal. lia.
Qed.

Lemma rot_id pos l : pos < length l → rot pos pos l = l.
Proof.
  intros H. apply list_eq. intros i. rewrite rot_lookup by lia.
  repeat case_decide; try done; try lia; subst; try done.
Qed.

Lemma rot_swap k pos l x a :
  S k ≤ pos < length l → l !! pos = Some x → l !! k = Some a →
  <[k := x]> (<[S k := a]> (rot (S k) pos l)) = rot k pos l.
Proof.
  intros H Hx Ha. apply list_eq. intros i.
  rewrite (rot_lookup k) by lia.
  destruct (Nat.lt_total i k) as [Hi|[->|Hi]].
  - rewrite !list_lookup_insert_ne by lia.
    rewrite rot_lookup by lia. by rewrite !decide_True by lia.
  - rewrite list_lookup_insert_eq by (rewrite length_insert, rot_length; lia).
    rewrite decide_False by lia. by rewrite decide_True.
  - rewrite list_lookup_insert_ne by lia.
    rewrite (decide_False (P := i < k)) by lia.
    rewrite (decide_False (P := i = k)) by lia.
    destruct (decide (i = S k)) as [->|].
    + rewrite list_lookup_insert_eq by (rewrite rot_length; lia).
      rewrite decide_True by lia. simpl. by rewrite Nat.sub_0_r.
    + rewrite list_lookup_insert_ne by done.
      rewrite rot_lookup by lia.
      rewrite (decide_False (P := i < S k)) by lia.
      by rewrite (decide_False (P := i = S k)) by lia.
Qed.

Lemma rot_insert k pos l y :
  k ≤ pos < length l → <[k := y]> (rot k pos l) = rot k pos (<[pos := y]> l).
Proof.
  intros H. apply list_eq. intros i.
  destruct (Nat.eq_dec i k) as [->|Hne].
  - rewrite list_lookup_insert_eq by (rewrite rot_length; lia).
    rewrite rot_lookup by (rewrite length_insert; lia).
    rewrite decide_False by lia. rewrite decide_True by done.
    by rewrite list_lookup_insert_eq by lia.
  - rewrite list_lookup_insert_ne by done.
    rewrite !rot_lookup by (rewrite ?length_insert; lia).
    repeat case_decide; try lia; by rewrite list_lookup_insert_ne by lia.
Qed.

Lemma rot_Forall (P : A → Prop) k pos l :
  k ≤ pos < length l → Forall P l → Forall P (rot k pos l).
Proof.
  intros H Hl. unfold rot. rewrite !Forall_app.
  repeat split; auto using Forall_take, Forall_drop.
Qed.

Lemma rot_Forall2 {B} (R : A → B → Prop) k pos l (l' : list B) :
  Forall2 R l l' → Forall2 R (rot k pos l) (rot k pos l').
Proof.
  intros Hl. unfold rot.
  repeat apply Forall2_app; auto using Forall2_take, Forall2_drop.
Qed.
End rot.

Lemma bubble_rot (prio : N) (pos : nat) (cs : list node) (x : node) :
  pos < length cs → cs !! pos = Some x →
  ∀ j, j ≤ pos →
    ∃ k, k ≤ j ∧ bubble (rot j pos cs) prio j = (rot k pos cs, k) ∧
         (∀ i a, k ≤ i < j → cs !! i = Some a → (priority a < prio)%N) ∧
         (∀ a, 0 < k → cs !! (k - 1) = Some a → ¬ (priority a < prio)%N).
Proof.
  intros Hpos Hx. induction j as [|j IH]; intros Hj.
  - exists 0. repeat split; [done| |]; intros; lia.
  - destruct (lookup_lt_is_Some_2 cs j ltac:(lia)) as [a Ha].
    simpl. rewrite !rot_lookup by lia.
    rewrite (decide_True (P := j < S j)) by lia.
    rewrite (decide_False (P := S j < S j)) by lia.
    rewrite (decide_True (P := S j = S j)) by done.
    rewrite Ha, Hx.
    destruct (priority a <? prio)%N eqn:Hlt.
    + apply N.ltb_lt in Hlt.
      rewrite (rot_swap j pos cs x a) by (done || lia).
      destruct IH as (k & Hk & Hb & Hrange & Hstop); [lia|].
      exists k. repeat split; [lia|done| |done].
      intros i b Hi Hb'. destruct (decide (i = j)) as [->|].
      * congruence.
      * apply (Hrange i); [lia|done].
    + apply N.ltb_ge in Hlt.
      exists (S j). repeat split; [done| |].
      * intros; lia.
      * intros b _ Hb. simpl in Hb. rewrite Nat.sub_0_r in Hb.
        assert (b = a) as -> by congruence. lia.
Qed.

(** What a successful [incrementChildPrio] did: the child at [pos], its
    counter incremented, is moved to [k], past the children of smaller
    priority, and [indices] follows. *)
Lemma incrementChildPrio_inv (n n' : node) (pos k : nat) :
  incrementChildPrio n pos = Ok (n', k) →
  ∃ c, children n !! pos = Some c ∧ k ≤ pos ∧
       children n' = rot k pos (<[pos := bumped c]> (children n)) ∧
       (k ≠ pos → pos < length (indices n)) ∧
       indices n' = (if decide (k = pos) then indices n
                     else rot k pos (indices n)) ∧
       path n' = path n ∧ wildChild n' = wildChild n ∧ nType n' = nType n ∧
       priority n' = priority n ∧ handlers n' = handlers n ∧
       params n' = params n ∧
       (∀ i a, k ≤ i < pos → children n !! i = Some a →
               (priority a < uint32_incr (priority c))%N) ∧
       (∀ a, 0 < k → children n !! (k - 1) = Some a →
             ¬ (priority a < uint32_incr (priority c))%N).
Proof.
  unfold incrementChildPrio. intros H.
  destruct (children n !! pos) as [c|] eqn:Hc; [|done].
  exists c. split; [done|].
  apply lookup_lt_Some in Hc as Hlt.
  set (cs := <[pos := set_priority c (uint32_incr (priority c))]> (children n)) in *.
  assert (Hx : cs !! pos = Some (bumped c))
    by (apply list_lookup_insert_eq; lia).
  assert (Hlen : pos < length cs) by (unfold cs; rewrite length_insert; lia).
  destruct (bubble_rot (uint32_incr (priority c)) pos cs _ Hlen Hx pos (le_n _))
    as (k' & Hk' & Hb & Hrange & Hstop).
  rewrite rot_id in Hb by done. rewrite Hb in H.
  assert (Hrange' : ∀ i a, k' ≤ i < pos → children n !! i = Some a →
                           (priority a < uint32_incr (priority c))%N).
  { intros i a Hi Ha. apply (Hrange i a Hi).
    unfold cs. by rewrite list_lookup_insert_ne by lia. }
  assert (Hstop' : ∀ a, 0 < k' → children n !! (k' - 1) = Some a →
                        ¬ (priority a < uint32_incr (priority c))%N).
  { intros a Hk0 Ha. apply (Hstop a Hk0).
    destruct (decide (k' - 1 = pos)) as [He|Hne]; [lia|].
    unfold cs. by rewrite list_lookup_insert_ne by lia. }
  destruct (decide (k' = pos)) as [->|Hne].
  - injection H as <- <-. rewrite decide_True by done.
    repeat split; done.
  - simpl in H.
    destruct (decide (pos + 1 ≤ length (indices n))); [|done].
    injection H as <- <-. rewrite decide_False by done.
    repeat split; try done. lia.
Qed.




(** ** Invariants of registration *)

Lemma bind_Ok_inv {A B} (r : result A) (f : A → result B) (b : B) :
  (x ← r; f x) = Ok b → ∃ a, r = Ok a ∧ f a = Ok b.
Proof. destruct r as [a| |]; intros H; try done. by exists a. Qed.


Lemma allNodes_inv (P : node → Prop) (n : node) :
  allNodes P n → P n ∧ Forall (allNodes P) (children n).
Proof. by intros [n' Hp Hcs]. Qed.













(** ** Alignment of [indices] with the children, for literal routes *)

Lemma findWildcardFrom_literal (p : str) (start : nat) :
  literal p → findWildcardFrom p start = ([], (-1)%Z, false).
Proof.
  intros Hp. revert start. induction Hp as [|c p Hc _ IH]; intros start; [done|].
  simpl. by rewrite Hc.
Qed.

Lemma insertChildLoop_literal (fuel : nat) (n : node) (p : str)
    (method : string) (handler : HandlerFunc) :
  literal p →
  insertChildLoop (S fuel) n p method handler
  = Ok (set_handlers (set_path n p) (<[method := handler]> (handlers n))).
Proof.
  intros Hp. simpl. unfold findWildcard. by rewrite findWildcardFrom_literal.
Qed.

Lemma literal_drop (p : str) (i : nat) : literal p → literal (drop i p).
Proof. apply Forall_drop. Qed.

Lemma indexByte_lookup (c : ascii) (s : str) (i : nat) :
  indexByte c s = Some i → s !! i = Some c.
Proof.
  revert i. induction s as [|x s IH]; intros i H; [done|].
  simpl in H. destruct (decide (c = x)) as [->|].
  - by injection H as <-.
  - destruct (indexByte c s) as [j|]; [|done]. injection H as <-.
    simpl. by apply IH.
Qed.

Lemma longestCommonPrefix_head (c : ascii) (a b : str) :
  0 < longestCommonPrefix (c :: a) (c :: b).
Proof. simpl. rewrite decide_True by done. lia. Qed.

Lemma longestCommonPrefix_le_l (a b : str) : longestCommonPrefix a b ≤ length a.
Proof.
  revert b. induction a as [|x a IH]; intros [|y b]; simpl; try lia.
  destruct (decide (x = y)); [|lia]. specialize (IH b). lia.
Qed.

Lemma Forall2_insert_r {A B} (R : A → B → Prop) (l : list A) (l' : list B)
    (i : nat) (x : A) (y : B) :
  Forall2 R l l' → l !! i = Some x → R x y → Forall2 R l (<[i := y]> l').
Proof.
  intros Hl Hx Hxy. rewrite <- (list_insert_id l i x) by done.
  by apply Forall2_insert.
Qed.

(** After [incrementChildPrio], [indices] has the rotated shape also when
    the child did not move. *)
Lemma incrementChildPrio_indices (n n' : node) (pos k : nat) :
  incrementChildPrio n pos = Ok (n', k) → pos < length (indices n) →
  indices n' = rot k pos (indices n).
Proof.
  intros H Hpos.
  apply incrementChildPrio_inv in H as (c & _ & _ & _ & _ & Hi & _).
  rewrite Hi. destruct (decide (k = pos)) as [->|]; [|done].
  by rewrite rot_id.
Qed.

(** ** Registering a route the tree already has *)

Lemma longestCommonPrefix_app (q r : str) :
  longestCommonPrefix (q ++ r) q = length q.
Proof.
  induction q as [|x q IH]; simpl.
  - by destruct r.
  - rewrite decide_True by done. by rewrite IH.
Qed.

Lemma longestCommonPrefix_refl (q : str) : longestCommonPrefix q q = length q.
Proof. rewrite <- (app_nil_r q) at 1. apply longestCommonPrefix_app. Qed.

Lemma indexByte_Some (c : ascii) (s : str) (i : nat) :
  indexByte c s = Some i ↔ s !! i = Some c ∧ ∀ j, j < i → s !! j ≠ Some c.
Proof.
  revert i. induction s as [|x s IH]; intros i; simpl.
  - split; [done|]. by intros [? _].
  - destruct (decide (c = x)) as [->|Hne].
    + split.
      * intros [= <-]. split; [done|]. intros; lia.
      * intros [Hi Hj]. destruct i as [|i]; [done|].
        exfalso. by apply (Hj 0); [lia|].
    + split.
      * destruct (indexByte c s) as [j|] eqn:Hj; [|done]. intros [= <-].
        destruct (proj1 (IH j) eq_refl) as [Hj1 Hj2]. split; [done|].
        intros [|j'] Hlt; simpl; [congruence|]. apply Hj2. lia.
      * intros [Hi Hj]. destruct i as [|i]; simpl in Hi; [congruence|].
        assert (indexByte c s = Some i) as ->; [|done].
        apply IH. split; [done|]. intros j Hlt. apply (Hj (S j)). lia.
Qed.

Lemma indexByte_rot (c : ascii) (s : str) (k pos : nat) :
  indexByte c s = Some pos → k ≤ pos → indexByte c (rot k pos s) = Some k.
Proof.
  intros [Hpos Hfirst]%indexByte_Some Hk.
  apply lookup_lt_Some in Hpos as Hlt.
  apply indexByte_Some. split.
  - rewrite rot_lookup by lia. rewrite decide_False by lia.
    by rewrite decide_True.
  - intros j Hj. rewrite rot_lookup by lia. rewrite decide_True by lia.
    apply Hfirst. lia.
Qed.

Lemma incrementChildPrio_Ok (n : node) (pos : nat) (c : node) :
  children n !! pos = Some c → pos < length (indices n) →
  ∃ n' k, incrementChildPrio n pos = Ok (n', k).
Proof.
  intros Hc Hpos. unfold incrementChildPrio. rewrite Hc.
  destruct (bubble _ _ pos) as [cs k]. unfold set_children. simpl.
  destruct (decide (k = pos)); [by eexists _, _|].
  rewrite decide_True by lia. by eexists _, _.
Qed.

Lemma height_child (n c : node) (i : nat) :
  children n !! i = Some c → height c < height n.
Proof.
  destruct n as [pa idx wc nt pr cs hd ps]. simpl.
  revert i. induction cs as [|x cs IH]; intros i Hi; [done|].
  destruct i as [|i]; simpl in *.
  - injection Hi as ->. lia.
  - specialize (IH i Hi). lia.
Qed.

Lemma height_set_priority (n : node) (v : N) :
  height (set_priority n v) = height n.
Proof. by destruct n. Qed.

Lemma height_pos (n : node) : 0 < height n.
Proof. destruct n. simpl. lia. Qed.

Lemma staticHandler_set_priority (n : node) (v : N) (p : str)
    (method : string) (h : HandlerFunc) :
  staticHandler n p method h → staticHandler (set_priority n v) p method h.
Proof.
  destruct 1 as [n method h Hh|n c rest i child method h Hw Hi Hc Hrest].
  - by apply (staticHandler_here (set_priority n v)).
  - by apply (staticHandler_down (set_priority n v) c rest i child).
Qed.

Lemma staticHandler_at (n : node) (p : str) (method : string) (h : HandlerFunc) :
  p = path n → handlers n !! method = Some h → staticHandler n p method h.
Proof. intros ->. apply staticHandler_here. Qed.

Lemma staticHandler_below (n : node) (p : str) (c : ascii) (rest : str)
    (i : nat) (child : node) (method : string) (h : HandlerFunc) :
  p = path n ++ c :: rest →
  wildChild n = false → indexByte c (indices n) = Some i →
  children n !! i = Some child →
  staticHandler child (c :: rest) method h →
  staticHandler n p method h.
Proof. intros ->. apply staticHandler_down. Qed.

(** The lookup follows a literal route to its handler. *)
Lemma getValueWalk_static (n : node) (p : str) (method : string)
    (h : HandlerFunc) :
  staticHandler n p method h →
  ∀ fuel ps, height n ≤ fuel →
    getValueWalk fuel n p method ps = Ok (Some (h, ps)).
Proof.
  induction 1 as [n method h Hh|n c rest i child method h Hw Hi Hc _ IH];
    intros fuel ps Hfuel.
  - pose proof (height_pos n). destruct fuel as [|fuel]; [lia|]. simpl.
    destruct (decide (length (path n) < length (path n))); [lia|].
    rewrite decide_True by done. by rewrite Hh.
  - pose proof (height_child _ _ _ Hc).
    destruct fuel as [|fuel]; [lia|]. simpl.
    rewrite decide_True by (rewrite length_app; simpl; lia).
    rewrite take_app_length. rewrite decide_True by done.
    rewrite drop_app_length, Hw. simpl. rewrite Hi, Hc.
    apply IH. lia.
Qed.

Lemma addRouteWalk_static (fuel : nat) :
  ∀ n p method h1 h2,
    staticHandler n p method h1 → height n ≤ fuel →
    ∃ n', addRouteWalk fuel n p method h2 = Ok n' ∧
          staticHandler n' p method h2 ∧ path n' = path n.
Proof.
  induction fuel as [|fuel IH]; intros n p method h1 h2 Hst Hfuel.
  { pose proof (height_pos n). lia. }
  destruct Hst as [n method h1 Hh|n c rest i child method h1 Hw Hi Hc Hrest].
  - simpl. rewrite longestCommonPrefix_refl.
    destruct (decide (length (path n) < length (path n))); [lia|].
    eexists. split; [reflexivity|]. split; [|done].
    apply (staticHandler_here (set_handlers n _)). simpl.
    by rewrite lookup_insert_eq.
  - simpl. rewrite longestCommonPrefix_app.
    destruct (decide (length (path n) < length (path n))); [lia|].
    rewrite decide_True by (rewrite length_app; simpl; lia).
    rewrite drop_app_length, Hi.
    pose proof Hi as [Hidx _]%indexByte_Some. apply lookup_lt_Some in Hidx.
    destruct (incrementChildPrio_Ok n i child Hc Hidx) as (n2 & k2 & Hinc).
    rewrite Hinc. simpl.
    pose proof (incrementChildPrio_indices _ _ _ _ Hinc Hidx) as Hi2.
    apply incrementChildPrio_inv in Hinc
      as (c0 & Hc0 & Hle & Hch & _ & _ & Hp2 & Hw2 & _).
    assert (c0 = child) as -> by congruence.
    apply lookup_lt_Some in Hc as Hlt.
    assert (Hk2 : children n2 !! k2 = Some (bumped child)).
    { rewrite Hch, rot_lookup by (rewrite length_insert; lia).
      rewrite decide_False by lia. rewrite decide_True by done.
      by rewrite list_lookup_insert_eq by lia. }
    rewrite Hk2.
    pose proof (height_child _ _ _ Hc) as Hh.
    destruct (IH (bumped child) (c :: rest) method h1 h2) as (child' & Hwalk & Hst' & _).
    { by apply staticHandler_set_priority. }
    { unfold bumped. rewrite height_set_priority. lia. }
    rewrite Hwalk. simpl. eexists. split; [reflexivity|].
    split; [|by simpl].
    rewrite <- Hp2.
    apply (staticHandler_down (set_children n2 _) c rest k2 child').
    + simpl. congruence.
    + simpl. rewrite Hi2. by apply indexByte_rot.
    + simpl. apply list_lookup_insert_eq. by eapply lookup_lt_Some.
    + done.
Qed.

Lemma addRoute_static (n : node) (p : str) (method : string)
    (h1 h2 : HandlerFunc) :
  staticHandler n p method h1 →
  ∃ n', addRoute n p method h2 = Ok n' ∧
        staticHandler n' p method h2 ∧
        getValue n' p method = Ok (Some (h2, ∅)).
Proof.
  intros Hst. unfold addRoute.
  set (n0 := set_priority n (uint32_incr (priority n))).
  assert (Hst0 : staticHandler n0 p method h1)
    by (by apply staticHandler_set_priority).
  assert (∃ n', (if decide (length (path n0) = 0 ∧ length (children n0) = 0)
                 then n1 ← insertChild n0 p method h2; Ok (set_nType n1 root)
                 else addRouteWalk (height n0) n0 p method h2) = Ok n' ∧
                staticHandler n' p method h2) as (n' & Hadd & Hst').
  { destruct (decide _) as [[Hpath Hcs]|Hne].
    - destruct Hst0 as [n1 method h1 Hh|n1 c rest i child method h1 Hw Hi Hc Hrest].
      + destruct (path n1) as [|? ?] eqn:Hp; [|done].
        eexists. split; [reflexivity|].
        pose proof (staticHandler_here
                      (set_nType (set_handlers (set_path n1 [])
                                    (<[method := h2]> (handlers n1))) root)
                      method h2) as Hnew.
        simpl in Hnew. apply Hnew. by rewrite lookup_insert_eq.
      + apply lookup_lt_Some in Hc. lia.
    - destruct (addRouteWalk_static (height n0) n0 p method h1 h2 Hst0 (le_n _))
        as (n' & Hwalk & Hst' & _).
      by exists n'. }
  exists n'. split; [done|]. split; [done|].
  unfold getValue. by apply getValueWalk_static.
Qed.

(** C1, as the code has it.  Registering a route for a (method, path) pair
    that the tree routes by literal edges to a registered handler does not
    fail: [addRoute] returns, the handler of the pair is replaced by the new
    one, and the lookup of the path yields the new handler. *)
Theorem addRoute_registered_route_overwrites (n : node) (p : str)
    (method : string) (h1 h2 : HandlerFunc) :
  staticHandler n p method h1 →
  ∃ n', addRoute n p method h2 = Ok n' ∧
        staticHandler n' p method h2 ∧
        getValue n' p method = Ok (Some (h2, ∅)).
Proof. apply addRoute_static. Qed.

Lemma addRoute_registered_route_overwrites_witness :
  let n := treeOf [("GET", bytes "/users", Func [Emit "users"]);
                   ("GET", bytes "/user", Func [Emit "user"]);
                   ("GET", bytes "/about", Func [Emit "about"])] in
  ∃ n', addRoute n (bytes "/users") "GET" (Func [Emit "again"]) = Ok n' ∧
        staticHandler n' (bytes "/users") "GET" (Func [Emit "again"]) ∧
        getValue n' (bytes "/users") "GET" = Ok (Some (Func [Emit "again"], ∅)).
Proof.
  intros n.
  apply (addRoute_registered_route_overwrites n (bytes "/users") "GET"
           (Func [Emit "users"])).
  eapply (staticHandler_below n _ "u"%char (bytes "sers"));
    [reflexivity | reflexivity | vm_compute; reflexivity
    | vm_compute; reflexivity |].
  eapply (staticHandler_below _ _ "s"%char []);
    [reflexivity | reflexivity | vm_compute; reflexivity
    | vm_compute; reflexivity |].
  eapply staticHandler_at; [reflexivity | vm_compute; reflexivity].
Defined.

Lemma findWildcard_at_wildcard (c : ascii) (rest : str) :
  isWild c = true → (0 ≤ (findWildcard (c :: rest)).1.2)%Z.
Proof.
  intros Hc. unfold findWildcard. simpl. rewrite Hc.
  by destruct (findWildcardEnd rest 0 true).
Qed.

(** The conflict the code does detect, at the level of [addRoute]: at a node
    that has children, none of them under the index of the wildcard byte, a
    route that continues with a wildcard segment is refused. *)
Lemma addRouteWalk_wildcard_at_children (fuel : nat) (n : node) (c : ascii)
    (rest : str) (method : string) (handler : HandlerFunc) :
  isWild c = true → indexByte c (indices n) = None →
  0 < length (children n) →
  ∃ msg, addRouteWalk (S fuel) n (path n ++ c :: rest) method handler
         = Panic msg.
Proof.
  intros Hc Hidx Hcs. simpl. rewrite longestCommonPrefix_app.
  destruct (decide (length (path n) < length (path n))); [lia|].
  rewrite decide_True by (rewrite length_app; simpl; lia).
  rewrite drop_app_length, Hidx, Hc. simpl.
  apply wildcard_at_children_panics; [done|].
  by apply findWildcard_at_wildcard.
Qed.

Lemma snoc_insert {A} (l : list A) (x y : A) :
  <[length l := y]> (l ++ [x]) = l ++ [y].
Proof.
  rewrite insert_app_r_alt by lia. by rewrite Nat.sub_diag.
Qed.

Lemma literalNode_bumped (c : node) :
  allNodes literalNode c → allNodes literalNode (bumped c).
Proof. intros [Ha Hcs]%allNodes_inv. by constructor. Qed.

Lemma longestCommonPrefix_take (a b : str) :
  take (longestCommonPrefix a b) a = take (longestCommonPrefix a b) b.
Proof.
  revert b. induction a as [|x a IH]; intros [|y b]; simpl; try done.
  destruct (decide (x = y)) as [->|]; [|done]. simpl. by rewrite IH.
Qed.

Lemma longestCommonPrefix_le_r (a b : str) : longestCommonPrefix a b ≤ length b.
Proof.
  revert b. induction a as [|x a IH]; intros [|y b]; simpl; try lia.
  destruct (decide (x = y)); [|lia]. specialize (IH b). lia.
Qed.

Lemma indexByte_snoc (c : ascii) (s : str) :
  indexByte c s = None → indexByte c (s ++ [c]) = Some (length s).
Proof.
  induction s as [|x s IH]; simpl.
  - intros _. by rewrite decide_True.
  - destruct (decide (c = x)); [done|].
    destruct (indexByte c s); [done|]. intros _. by rewrite IH.
Qed.

(** Registering a literal path in a tree of literal routes: the invariant
    of such trees is kept, and the tree routes the path to the handler. *)
Lemma addRouteWalk_literal (fuel : nat) :
  ∀ n p method handler n',
    literal p → allNodes literalNode n →
    addRouteWalk fuel n p method handler = Ok n' →
    allNodes literalNode n' ∧ staticHandler n' p method handler ∧
    (∀ c, head p = Some c → head (path n) = Some c → head (path n') = Some c).
Proof.
  induction fuel as [|fuel IH]; intros n p method handler n' Hlit Hn H; [done|].
  simpl in H.
  set (i := longestCommonPrefix p (path n)) in H.
  set (n1 := if decide (i < length (path n)) then _ else n) in H.
  assert (Hn1 : allNodes literalNode n1 ∧
                (∀ c, head p = Some c → head (path n) = Some c →
                      head (path n1) = Some c) ∧
                path n1 = take i p).
  { unfold n1. destruct (decide (i < length (path n))) as [Hi|Hi].
    - apply allNodes_inv in Hn as [[Ha Hw] Hcs]. split; [|split; [|done]].
      + destruct (drop i (path n)) as [|c0 tl] eqn:Hd.
        { apply (f_equal length) in Hd. rewrite length_drop in Hd.
          simpl in Hd. lia. }
        constructor; simpl.
        * split; [|done]. unfold aligned. simpl. repeat constructor.
        * repeat constructor; done.
      + intros c Hp Hpn. simpl.
        destruct p as [|c1 p]; [done|]. destruct (path n) as [|c2 pn]; [done|].
        simpl in Hp, Hpn. injection Hp as ->. injection Hpn as ->.
        pose proof (longestCommonPrefix_head c p pn) as Hpos. fold i in Hpos.
        destruct i; [lia|done].
    - split; [done|split; [done|]].
      pose proof (longestCommonPrefix_le_r p (path n)) as Hle. fold i in Hle.
      pose proof (longestCommonPrefix_take p (path n)) as Ht. fold i in Ht.
      rewrite Ht. by rewrite take_ge by lia. }
  clearbody n1. destruct Hn1 as (Hall1 & Hhead1 & Hpath1).
  assert (path n' = path n1 → ∀ c, head p = Some c → head (path n) = Some c →
                                   head (path n') = Some c) as Hfin.
  { intros ->. done. }
  apply allNodes_inv in Hall1 as [[Ha1 Hw1] Hcs1].
  destruct (decide (i < length p)) as [Hip|Hip].
  2:{ injection H as <-. split; [by constructor|split; [|by apply Hfin]].
      pose proof (longestCommonPrefix_le_l p (path n)) as Hle. fold i in Hle.
      apply staticHandler_at; simpl.
      - rewrite Hpath1. by rewrite take_ge by lia.
      - by rewrite lookup_insert_eq. }
  destruct (drop i p) as [|c rest] eqn:Hdrop; [done|].
  assert (Hlit' : literal (c :: rest)) by (rewrite <- Hdrop; by apply literal_drop).
  assert (Hc : isWild c = false) by (by inversion Hlit').
  assert (Hp_eq : p = path n1 ++ c :: rest)
    by (by rewrite Hpath1, <- Hdrop, take_drop).
  destruct (indexByte c (indices n1)) as [pos|] eqn:Hidx0.
  - pose proof Hidx0 as Hidx. apply indexByte_lookup in Hidx.
    apply lookup_lt_Some in Hidx as Hpos.
    apply bind_Ok_inv in H as ([n2 k2] & Hinc & H).
    pose proof (incrementChildPrio_indices _ _ _ _ Hinc Hpos) as Hi2.
    apply incrementChildPrio_inv in Hinc
      as (c0 & Hc0 & Hle & Hch & _ & _ & Hp2 & Hw2 & _).
    apply lookup_lt_Some in Hc0 as Hpos'.
    assert (Hk2 : children n2 !! k2 = Some (bumped c0)).
    { rewrite Hch, rot_lookup by (rewrite length_insert; lia).
      rewrite decide_False by lia. rewrite decide_True by done.
      by rewrite list_lookup_insert_eq by lia. }
    rewrite Hk2 in H.
    apply bind_Ok_inv in H as (child' & Hwalk & H). injection H as <-.
    pose proof (Forall2_lookup_lr _ _ _ _ _ _ Ha1 Hidx Hc0) as Hhead0.
    pose proof (Forall_lookup_1 _ _ _ _ Hcs1 Hc0) as Hc0all.
    apply IH in Hwalk as (Hchild' & Hst' & Hhead');
      [|done|by apply literalNode_bumped].
    specialize (Hhead' c eq_refl Hhead0).
    split; [|split; [|by apply Hfin]].
    + constructor; simpl.
      * split; [|unfold set_children; simpl; congruence]. unfold aligned. simpl. rewrite Hi2, Hch.
        eapply Forall2_insert_r; [| |exact Hhead'].
        -- apply rot_Forall2.
           eapply Forall2_insert_r; [exact Ha1|exact Hidx|done].
        -- rewrite rot_lookup by lia.
           rewrite decide_False by lia. by rewrite decide_True.
      * rewrite Hch. apply Forall_insert; [|done].
        apply rot_Forall; [rewrite length_insert; lia|].
        apply Forall_insert; [done|]. by apply literalNode_bumped.
    + apply (staticHandler_below _ p c rest k2 child'); unfold set_children; simpl.
      * by rewrite Hp2.
      * congruence.
      * rewrite Hi2. by apply indexByte_rot.
      * apply list_lookup_insert_eq. by eapply lookup_lt_Some.
      * done.
  - rewrite Hc in H. simpl in H.
    apply bind_Ok_inv in H as ([n3 newPos] & Hinc & H).
    pose proof (Forall2_length _ _ _ Ha1) as Hlen.
    assert (Hpos : length (indices n1 ++ [c]) - 1 = length (children n1))
      by (rewrite length_app; simpl; lia).
    rewrite Hpos in Hinc, H.
    pose proof (incrementChildPrio_indices _ _ _ _ Hinc) as Hi3.
    simpl in Hi3. specialize (Hi3 ltac:(rewrite length_app; simpl; lia)).
    apply incrementChildPrio_inv in Hinc
      as (c0 & Hc0 & Hle & Hch & _ & _ & Hp3 & Hw3 & _).
    simpl in Hc0, Hch, Hp3, Hw3.
    rewrite lookup_app_r, Nat.sub_diag in Hc0 by lia. injection Hc0 as <-.
    rewrite snoc_insert in Hch.
    assert (Hlen3 : length (children n3) = S (length (children n1))).
    { rewrite Hch, rot_length; rewrite length_app; simpl; lia. }
    rewrite Hlen3 in H. simpl in H. rewrite Nat.sub_0_r in H.
    rewrite decide_True in H by done.
    assert (Hk3 : children n3 !! newPos = Some (bumped empty)).
    { rewrite Hch, rot_lookup by (rewrite length_app; simpl; lia).
      rewrite decide_False by lia. rewrite decide_True by done.
      rewrite lookup_app_r, Nat.sub_diag by lia. done. }
    rewrite Hk3 in H.
    apply bind_Ok_inv in H as (child' & Hins & H). injection H as <-.
    unfold insertChild in Hins. rewrite insertChildLoop_literal in Hins by done.
    injection Hins as Hchild'.
    assert (Hhead' : head (path child') = Some c) by (by subst child').
    assert (Hall' : allNodes literalNode child')
      by (subst child'; repeat constructor).
    assert (Hst' : staticHandler child' (c :: rest) method handler).
    { subst child'. apply staticHandler_at; simpl; [done|].
      by rewrite lookup_insert_eq. }
    clear Hchild'.
    assert (Hnew : <[newPos := child']> (children n3)
                   = rot newPos (length (children n1)) (children n1 ++ [child'])).
    { rewrite Hch, rot_insert by (rewrite length_app; simpl; lia).
      by rewrite snoc_insert. }
    split; [|split; [|by apply Hfin]].
    + constructor; simpl; rewrite Hnew.
      * split; [|unfold set_children; simpl; congruence]. unfold aligned. simpl. rewrite Hi3.
        apply rot_Forall2.
        apply Forall2_app; [done|]. constructor; [done|constructor].
      * apply rot_Forall; [rewrite length_app; simpl; lia|].
        apply Forall_app. split; [done|]. constructor; [done|constructor].
    + apply (staticHandler_below _ p c rest newPos child'); unfold set_children; simpl.
      * by rewrite Hp3.
      * congruence.
      * rewrite Hi3. apply indexByte_rot; [|lia].
        rewrite <- Hlen. by apply indexByte_snoc.
      * apply list_lookup_insert_eq. by eapply lookup_lt_Some.
      * done.
Qed.

Lemma addRoute_literal (n n' : node) (p : str) (method : string)
    (handler : HandlerFunc) :
  literal p → allNodes literalNode n →
  addRoute n p method handler = Ok n' →
  allNodes literalNode n' ∧ staticHandler n' p method handler.
Proof.
  intros Hlit Hn H. unfold addRoute in H.
  destruct (decide _) as [Hempty|Hne].
  - unfold insertChild in H. rewrite insertChildLoop_literal in H by done.
    injection H as <-. apply allNodes_inv in Hn as [Ha Hcs]. split.
    + by constructor.
    + apply staticHandler_at; simpl; [done|]. by rewrite lookup_insert_eq.
  - apply addRouteWalk_literal in H as (H1 & H2 & _); [done|done|].
    by apply literalNode_bumped.
Qed.

Lemma addRoutes_literal (routes : list (string * str * HandlerFunc)) :
  ∀ n n',
    Forall (λ r, literal r.1.2) routes → allNodes literalNode n →
    addRoutes n routes = Ok n' →
    allNodes literalNode n'.
Proof.
  induction routes as [|[[method p] handler] routes IH]; intros n n' Hlit Hn H.
  - by injection H as <-.
  - simpl in H. apply bind_Ok_inv in H as (n1 & Hadd & H).
    inversion Hlit as [|? ? Hp Hrest]; subst. simpl in Hp.
    eapply IH; [done| |exact H]. by eapply addRoute_literal.
Qed.

(** In a tree of literal routes, a literal route that was just registered is
    found by the lookup, and registering it again replaces its handler. *)
Lemma literal_route_found (routes : list (string * str * HandlerFunc))
    (n n' : node) (p : str) (method : string) (h : HandlerFunc) :
  Forall (λ r, literal r.1.2) routes → literal p →
  addRoutes empty routes = Ok n →
  addRoute n p method h = Ok n' →
  getValue n' p method = Ok (Some (h, ∅)).
Proof.
  intros Hroutes Hp Hn Hadd.
  apply addRoutes_literal in Hn; [|done|constructor; [split|]; constructor].
  apply addRoute_literal in Hadd as [_ Hst]; [|done|done].
  unfold getValue. by apply getValueWalk_static.
Qed.

Lemma literal_route_registered_twice (routes : list (string * str * HandlerFunc))
    (n n1 : node) (p : str) (method : string) (h1 h2 : HandlerFunc) :
  Forall (λ r, literal r.1.2) routes → literal p →
  addRoutes empty routes = Ok n →
  addRoute n p method h1 = Ok n1 →
  ∃ n2, addRoute n1 p method h2 = Ok n2 ∧
        getValue n2 p method = Ok (Some (h2, ∅)).
Proof.
  intros Hroutes Hp Hn Hadd.
  apply addRoutes_literal in Hn; [|done|constructor; [split|]; constructor].
  apply addRoute_literal in Hadd as [_ Hst]; [|done|done].
  destruct (addRoute_static n1 p method h1 h2 Hst) as (n2 & H2 & _ & Hget).
  by exists n2.
Qed.




(** ** Catch-all routes *)

Lemma findWildcardEnd_name (name : str) (end_ : nat) :
  Forall (λ c, c ≠ "/"%char ∧ isWild c = false) name →
  findWildcardEnd name end_ true = (end_ + length name, true).
Proof.
  intros Hname. revert end_.
  induction Hname as [|c name [Hc1 Hc2] _ IH]; intros end_; simpl.
  - by rewrite Nat.add_0_r.
  - rewrite decide_False by done. rewrite Hc2, IH. f_equal. lia.
Qed.

Lemma findWildcardFrom_catchAll (prefix name : str) (start : nat) :
  literal prefix →
  Forall (λ c, c ≠ "/"%char ∧ isWild c = false) name →
  findWildcardFrom (prefix ++ "/"%char :: "*"%char :: name) start
  = ("*"%char :: name, Z.of_nat (start + length prefix + 1), true).
Proof.
  intros Hprefix Hname. revert start.
  induction Hprefix as [|c prefix Hc _ IH]; intros start.
  - change (findWildcardFrom ([] ++ "/"%char :: "*"%char :: name) start)
      with (let '(end_, valid) := findWildcardEnd name 0 true in
            (take (1 + end_) ("*"%char :: name), Z.of_nat (S start), valid)).
    rewrite findWildcardEnd_name by done.
    rewrite take_ge by (simpl; lia).
    replace (start + length (@nil ascii) + 1) with (S start) by (simpl; lia).
    reflexivity.
  - cbn [app findWildcardFrom]. rewrite Hc, IH.
    replace (S start + length prefix + 1) with (start + length (c :: prefix) + 1)
      by (simpl; lia).
    reflexivity.
Qed.

Lemma insertChild_catchAll (n : node) (prefix name : str) (method : string)
    (handler : HandlerFunc) :
  literal prefix → wildcardName name →
  children n = [] → path n = [] →
  insertChild n (prefix ++ "/"%char :: "*"%char :: name) method handler
  = Ok (set_indices
          (set_children (set_path n prefix)
             [mkNode [] [] true catchAll 1
                [mkNode ("/"%char :: "*"%char :: name) [] false catchAll 1 []
                   {[ method := handler ]} [name]]
                ∅ []])
          (bytes "/")).
Proof.
  intros Hprefix [Hne Hname] Hcs Hpath. unfold insertChild.
  cbn [insertChildLoop]. unfold findWildcard.
  rewrite findWildcardFrom_catchAll by done.
  destruct (Z.ltb_spec (Z.of_nat (0 + length prefix + 1)) 0); [lia|].
  cbn [negb]. rewrite Nat2Z.id.
  rewrite decide_False by (destruct name; [done|simpl; lia]).
  rewrite Hcs. rewrite decide_False by (simpl; lia).
  rewrite decide_False by done.
  rewrite decide_False.
  2:{ rewrite length_app. simpl. lia. }
  rewrite Hpath. rewrite decide_False by (simpl; lia).
  replace (0 + length prefix + 1) with (S (length prefix)) by lia.
  rewrite list_lookup_middle by done.
  rewrite decide_False by (intros Hx; by apply Hx).
  rewrite take_app_length, drop_app_length. reflexivity.
Qed.

(** The lookup step at a node without wildcard child. *)
Lemma getValueWalk_descend (fuel : nat) (n : node) (c : ascii) (rest : str)
    (i : nat) (child : node) (method : string) (ps : gmap str str) :
  wildChild n = false → indexByte c (indices n) = Some i →
  children n !! i = Some child →
  getValueWalk (S fuel) n (path n ++ c :: rest) method ps
  = getValueWalk fuel child (c :: rest) method ps.
Proof.
  intros Hw Hi Hc. simpl.
  rewrite decide_True by (rewrite length_app; simpl; lia).
  rewrite take_app_length, decide_True by done.
  rewrite drop_app_length, Hw. simpl. by rewrite Hi, Hc.
Qed.

(** The lookup step at the node above a catch-all: the remaining path, as
    it is, becomes the value of the parameter. *)
Lemma getValueWalk_catchAll (fuel : nat) (n child : node) (rest name : str)
    (names : list str) (method : string) (h : HandlerFunc) (ps : gmap str str) :
  wildChild n = true → children n !! 0 = Some child →
  nType child = catchAll → 1 < length (path child) →
  params child = name :: names → handlers child !! method = Some h →
  rest ≠ [] →
  getValueWalk (S fuel) n (path n ++ rest) method ps
  = Ok (Some (h, <[name := rest]> ps)).
Proof.
  intros Hw Hc Ht Hp Hn Hh Hrest. simpl.
  rewrite decide_True.
  2:{ rewrite length_app. destruct rest; [done|simpl; lia]. }
  rewrite take_app_length, decide_True by done.
  rewrite drop_app_length, Hw, Hc, Ht. simpl.
  rewrite decide_True by done. by rewrite Hn, Hh.
Qed.

(** The route [prefix/*name] registered on an empty tree, and the lookup of
    [prefix/rest] on it. *)
Lemma catchAll_route_lookup (prefix name rest : str)
    (method : string) (handler : HandlerFunc) :
  literal prefix → wildcardName name →
  addRoute empty (prefix ++ bytes "/*" ++ name) method handler
  = Ok (catchAllTree prefix name method handler) ∧
  getValue (catchAllTree prefix name method handler)
    (prefix ++ "/"%char :: rest) method
  = Ok (Some (handler, {[ name := "/"%char :: rest ]})).
Proof.
  intros Hprefix Hname. split.
  - unfold addRoute. rewrite decide_True by done.
    change (bytes "/*" ++ name) with ("/"%char :: "*"%char :: name).
    rewrite insertChild_catchAll by done. reflexivity.
  - unfold getValue. change (height _) with 3.
    etransitivity.
    { apply (getValueWalk_descend 2 (catchAllTree prefix name method handler)
               "/"%char rest 0
               (mkNode [] [] true catchAll 1
                  [mkNode ("/"%char :: "*"%char :: name) [] false catchAll 1 []
                     {[ method := handler ]} [name]]
                  ∅ [])); reflexivity. }
    apply (getValueWalk_catchAll 1
             (mkNode [] [] true catchAll 1
                [mkNode ("/"%char :: "*"%char :: name) [] false catchAll 1 []
                   {[ method := handler ]} [name]]
                ∅ [])
             (mkNode ("/"%char :: "*"%char :: name) [] false catchAll 1 []
                {[ method := handler ]} [name])
             ("/"%char :: rest) name []); try done.
    + simpl. lia.
    + simpl. by rewrite lookup_singleton_eq.
Qed.

(** C7. When the lookup is at a node whose child is a catch-all, with the
    path [rest] remaining after the path of the node, it returns the handler
    of the catch-all for the method and binds the parameter to [rest], the
    whole remaining path.  In particular, on the tree of the route
    [prefix/*name], the lookup of [prefix/rest] returns the handler of the
    route with the parameter map that binds [name] to [/rest], the leading
    ['/'] included. *)
Theorem catchAll_captures_remaining_path :
  (∀ (fuel : nat) (n child : node) (rest name : str) (names : list str)
     (method : string) (h : HandlerFunc) (ps : gmap str str),
     wildChild n = true → children n !! 0 = Some child →
     nType child = catchAll → 1 < length (path child) →
     params child = name :: names → handlers child !! method = Some h →
     rest ≠ [] →
     getValueWalk (S fuel) n (path n ++ rest) method ps
     = Ok (Some (h, <[name := rest]> ps))) ∧
  (∀ (prefix name rest : str) (method : string) (handler : HandlerFunc),
     literal prefix → wildcardName name →
     addRoute empty (prefix ++ bytes "/*" ++ name) method handler
     = Ok (catchAllTree prefix name method handler) ∧
     getValue (catchAllTree prefix name method handler)
       (prefix ++ "/"%char :: rest) method
     = Ok (Some (handler, {[ name := "/"%char :: rest ]}))).
Proof.
  split.
  - apply getValueWalk_catchAll.
  - apply catchAll_route_lookup.
Qed.

Lemma catchAll_captures_remaining_path_witness :
  addRoute empty (bytes "/files/*filepath") "GET" (Func [Emit "file"])
  = Ok (catchAllTree (bytes "/files") (bytes "filepath") "GET" (Func [Emit "file"])) ∧
  getValue (catchAllTree (bytes "/files") (bytes "filepath") "GET" (Func [Emit "file"]))
    (bytes "/files/a/b/c.txt") "GET"
  = Ok (Some (Func [Emit "file"], {[ bytes "filepath" := bytes "/a/b/c.txt" ]})).
Proof.
  apply (proj2 catchAll_captures_remaining_path (bytes "/files")
           (bytes "filepath") (bytes "a/b/c.txt") "GET" (Func [Emit "file"])).
  - repeat constructor.
  - split; [discriminate|]. repeat constructor; discriminate.
Defined.

(** ** The fuel of the tree walks is enough

    [insertChild], [addRoute] and [getValue] end in a value or in a panic:
    the bounds the model gives to their loops are never reached. *)

Lemma bind_not_OutOfFuel {A B} (r : result A) (f : A → result B) :
  r ≠ OutOfFuel → (∀ a, r = Ok a → f a ≠ OutOfFuel) → (x ← r; f x) ≠ OutOfFuel.
Proof. destruct r as [a| |]; intros Hr Hf; try done. by apply Hf. Qed.

Lemma insertChildLoop_fuel (fuel : nat) :
  ∀ n p method handler,
    length p < fuel → insertChildLoop fuel n p method handler ≠ OutOfFuel.
Proof.
  induction fuel as [|fuel IH]; intros n p method handler Hfuel; [lia|].
  simpl. destruct (findWildcard p) as [[wildcard i] valid].
  destruct (i <? 0)%Z; [done|].
  destruct valid; simpl; [|done].
  destruct (decide (length wildcard < 2)); [done|].
  destruct (decide (0 < length (children n))); [done|].
  destruct (decide (head wildcard = Some ":"%char)).
  - destruct (decide (0 < Z.to_nat i)).
    + destruct (decide (length wildcard < length (drop (Z.to_nat i) p))) as [Hl|];
        [|done].
      apply bind_not_OutOfFuel; [|done].
      apply IH. rewrite !length_drop in *. lia.
    + destruct (decide (length wildcard < length p)); [|done].
      apply bind_not_OutOfFuel; [|done].
      apply IH. rewrite length_drop. lia.
  - destruct (decide (Z.to_nat i + length wildcard ≠ length p)); [done|].
    destruct (decide (0 < length (path n) ∧ last (path n) = Some "/"%char));
      [done|].
    destruct (Z.to_nat i) as [|i']; [done|].
    by destruct (decide (p !! i' ≠ Some "/"%char)).
Qed.

Lemma insertChild_fuel (n : node) (p : str) (method : string)
    (handler : HandlerFunc) :
  insertChild n p method handler ≠ OutOfFuel.
Proof. apply insertChildLoop_fuel. lia. Qed.

Lemma longestCommonPrefix_differ (a b : str) :
  longestCommonPrefix a b < length a → longestCommonPrefix a b < length b →
  a !! longestCommonPrefix a b ≠ b !! longestCommonPrefix a b.
Proof.
  revert b. induction a as [|x a IH]; intros [|y b]; simpl; try lia.
  destruct (decide (x = y)) as [->|Hne]; simpl.
  - intros Ha Hb. apply IH; lia.
  - intros _ _. congruence.
Qed.

Lemma addRouteWalk_fuel (fuel : nat) :
  ∀ n p method handler,
    height n ≤ fuel → addRouteWalk fuel n p method handler ≠ OutOfFuel.
Proof.
  assert (Hinc : ∀ n pos, incrementChildPrio n pos ≠ OutOfFuel).
  { intros n pos. unfold incrementChildPrio. destruct (_ !! _); [|done].
    destruct (bubble _ _ _). destruct (decide _); [done|].
    by destruct (decide _). }
  induction fuel as [|fuel IH]; intros n p method handler Hfuel.
  { pose proof (height_pos n). lia. }
  simpl. set (i := longestCommonPrefix p (path n)).
  destruct (decide (i < length (path n))) as [Hin|Hin];
    (destruct (decide (i < length p)) as [Hip|Hip]; [|done]);
    (destruct (drop i p) as [|c rest] eqn:Hdrop; [done|]);
    assert (Hpi : p !! i = Some c)
      by (rewrite <- (Nat.add_0_r i), <- lookup_drop; by rewrite Hdrop).
  - (* after a split the scan of the single index fails *)
    cbn [indices].
    destruct (drop i (path n)) as [|x tl] eqn:Hdropn.
    { apply (f_equal length) in Hdropn. rewrite length_drop in Hdropn.
      simpl in Hdropn. lia. }
    assert (Hni : path n !! i = Some x).
    { rewrite <- (Nat.add_0_r i), <- lookup_drop. by rewrite Hdropn. }
    pose proof (longestCommonPrefix_differ p (path n) Hip Hin) as Hdiff.
    fold i in Hdiff. rewrite Hpi, Hni in Hdiff.
    cbn [take indexByte]. rewrite decide_False by congruence.
    cbn [fmap option_fmap option_map].
    destruct (isWild c); cbn [negb].
    + apply insertChild_fuel.
    + apply bind_not_OutOfFuel; [apply Hinc|].
      intros [n3 newPos] _. destruct (children n3 !! _); [|done].
      apply bind_not_OutOfFuel; [apply insertChild_fuel|done].
  - destruct (indexByte c (indices n)) as [pos|].
    + apply bind_not_OutOfFuel; [apply Hinc|].
      intros [n2 k2] Hinc2.
      apply incrementChildPrio_inv in Hinc2 as (c0 & Hc0 & Hle & Hch & _).
      apply lookup_lt_Some in Hc0 as Hlt.
      assert (Hk2 : children n2 !! k2 = Some (bumped c0)).
      { rewrite Hch, rot_lookup by (rewrite length_insert; lia).
        rewrite decide_False by lia. rewrite decide_True by done.
        by rewrite list_lookup_insert_eq by lia. }
      rewrite Hk2. apply bind_not_OutOfFuel; [|done].
      apply IH. unfold bumped. rewrite height_set_priority.
      pose proof (height_child _ _ _ Hc0). lia.
    + destruct (isWild c); cbn [negb].
      * apply insertChild_fuel.
      * apply bind_not_OutOfFuel; [apply Hinc|].
        intros [n3 newPos] _. destruct (children n3 !! _); [|done].
        apply bind_not_OutOfFuel; [apply insertChild_fuel|done].
Qed.

Lemma addRoute_fuel (n : node) (p : str) (method : string)
    (handler : HandlerFunc) :
  addRoute n p method handler ≠ OutOfFuel.
Proof.
  unfold addRoute. destruct (decide _).
  - apply bind_not_OutOfFuel; [apply insertChild_fuel|done].
  - by apply addRouteWalk_fuel.
Qed.

Lemma getValueWalk_fuel (fuel : nat) :
  ∀ n p method ps,
    height n ≤ fuel → getValueWalk fuel n p method ps ≠ OutOfFuel.
Proof.
  induction fuel as [|fuel IH]; intros n p method ps Hfuel.
  { pose proof (height_pos n). lia. }
  simpl. destruct (decide (length (path n) < length p)).
  2:{ destruct (decide _); [|done]. by destruct (handlers n !! method). }
  destruct (decide _); [|done].
  destruct (wildChild n); simpl.
  - destruct (children n !! 0) as [c0|] eqn:Hc0; [|done].
    pose proof (height_child _ _ _ Hc0) as Hh0.
    destruct (nType c0); try done.
    + destruct (decide (paramEnd _ < _)).
      * destruct (children c0) as [|g gs] eqn:Hg; [done|].
        apply IH.
        pose proof (height_child c0 g 0 ltac:(by rewrite Hg)). lia.
      * destruct (handlers c0 !! method); [done|].
        destruct (children c0); [done|].
        by destruct (handlers _ !! method).
    + apply bind_not_OutOfFuel.
      * destruct (decide _); [|done]. by destruct (params c0).
      * intros a _. by destruct (handlers c0 !! method).
  - destruct (drop _ p) as [|c rest]; [done|].
    destruct (indexByte c (indices n)) as [i|]; [|done].
    destruct (children n !! i) as [child|] eqn:Hc; [|done].
    apply IH. pose proof (height_child _ _ _ Hc). lia.
Qed.

Lemma getValue_fuel (n : node) (p : str) (method : string) :
  getValue n p method ≠ OutOfFuel.
Proof. by apply getValueWalk_fuel. Qed.

(** * Further properties of the code *)

Ltac by_compute := apply (bool_decide_unpack _); vm_compute; exact I.

(** ** Abort *)

Lemma exec_plain_app (pre : list stmt) :
  Forall isEmit pre →
  ∀ fuel gs rest c,
    Context.exec (length pre + fuel) gs (pre ++ rest) c
    = Context.exec fuel gs rest (emitAll c pre).
Proof.
  induction 1 as [|s pre Hs Hpre IH]; intros fuel gs rest c.
  - by rewrite emitAll_nil.
  - destruct s as [tag| |]; try done.
    cbn [length app Nat.add]. simpl. rewrite IH. by rewrite emitAll_cons.
Qed.

Lemma nextLoop_abort (gs : list RouterGroup.RouterGroup)
    (ps : gmap str str) (done rest : list HandlerFunc) (pre post : list stmt)
    (tr : list Context.event) (fuel : nat) :
  Forall isEmit pre → Forall isEmit post →
  length pre + length post + 4 ≤ fuel →
  Context.nextLoop fuel gs
    (Context.mk ps (Z.of_nat (length done))
       (done ++ Func (pre ++ CallAbort :: post) :: rest) tr)
  = Ok (Context.mk ps
          (Z.of_nat (length (done ++ Func (pre ++ CallAbort :: post) :: rest)) + 1)
          (done ++ Func (pre ++ CallAbort :: post) :: rest)
          (tr ++ Context.Invoke (Z.of_nat (length done))
              :: (Context.Emitted ∘ tagOf <$> pre ++ post))).
Proof.
  intros Hpre Hpost Hfuel.
  set (hs := done ++ _ :: rest).
  destruct fuel as [|fuel]; [lia|].
  rewrite (nextLoop_call fuel gs _ (length done) (Func (pre ++ CallAbort :: post)));
    [|done|by apply list_lookup_middle].
  destruct fuel as [|fuel]; [lia|].
  replace fuel with (length pre + (fuel - length pre)) by lia.
  cbn [Context.call]. 
  replace (S (length pre + (fuel - length pre))) with (length pre + S (fuel - length pre)) by lia.
  rewrite exec_plain_app by done.
  destruct (fuel - length pre) as [|f] eqn:Hf; [lia|].
  cbn [Context.exec]. rewrite bind_Ok.
  rewrite exec_plain by (done || lia).
  rewrite bind_Ok.
  replace (length pre + S (S f)) with (S (length pre + S f)) by lia.
  rewrite nextLoop_done.
  - unfold emitAll, Context.Abort, Context.set_index, Context.log. simpl.
    f_equal. f_equal. rewrite <- !app_assoc. simpl. by rewrite fmap_app.
  - unfold emitAll, Context.Abort, Context.set_index, Context.log. simpl. lia.
Qed.

(** X1.  [Abort] stops the chain after the handler that calls it, not that
    handler: when the handler at the cursor emits [pre], calls [c.Abort()]
    and emits [post], the loop of [Next] records both [pre] and [post], calls
    no handler after it, and leaves the cursor one past the length of the
    chain. *)
Theorem Abort_skips_pending_handlers (gs : list RouterGroup.RouterGroup)
    (ps : gmap str str) (done rest : list HandlerFunc) (pre post : list stmt)
    (tr : list Context.event) (fuel : nat) :
  Forall isEmit pre → Forall isEmit post →
  length pre + length post + 4 ≤ fuel →
  Context.nextLoop fuel gs
    (Context.mk ps (Z.of_nat (length done))
       (done ++ Func (pre ++ CallAbort :: post) :: rest) tr)
  = Ok (Context.mk ps
          (Z.of_nat (length (done ++ Func (pre ++ CallAbort :: post) :: rest)) + 1)
          (done ++ Func (pre ++ CallAbort :: post) :: rest)
          (tr ++ Context.Invoke (Z.of_nat (length done))
              :: (Context.Emitted ∘ tagOf <$> pre ++ post))).
Proof. apply nextLoop_abort. Qed.

Lemma Abort_skips_pending_handlers_witness :
  Context.nextLoop 6 []
    (Context.mk ∅ 1
       ([Func [Emit "first"]]
        ++ Func ([Emit "before"] ++ CallAbort :: [Emit "after"])
        :: [Func [Emit "never"]]) [])
  = Ok (Context.mk ∅ 4
          [Func [Emit "first"]; Func [Emit "before"; CallAbort; Emit "after"];
           Func [Emit "never"]]
          [Context.Invoke 1; Context.Emitted "before"; Context.Emitted "after"]).
Proof.
  apply (Abort_skips_pending_handlers [] ∅ [Func [Emit "first"]]
           [Func [Emit "never"]] [Emit "before"] [Emit "after"] [] 6).
  - repeat constructor.
  - repeat constructor.
  - simpl. lia.
Defined.

Lemma invoked_app (t1 t2 : list Context.event) :
  invoked (t1 ++ t2) = invoked t1 ++ invoked t2.
Proof. apply omap_app. Qed.

Lemma invoked_emits (body : list stmt) :
  invoked (Context.Emitted ∘ tagOf <$> body) = [].
Proof. by induction body. Qed.

Lemma invoked_onionTrace (ws : list (string * string)) (k : nat)
    (inner : list Context.event) :
  invoked (onionTrace k ws inner)
  = (Z.of_nat <$> seq k (length ws)) ++ invoked inner.
Proof.
  revert k. induction ws as [|w ws IH]; intros k; [done|].
  cbn [onionTrace length seq fmap list_fmap app].
  change (invoked (?a :: ?b :: ?l)) with (Z.of_nat k :: invoked l).
  rewrite invoked_app, IH. simpl. by rewrite app_nil_r.
Qed.

Lemma Next_arounds_ctx (gs : list RouterGroup.RouterGroup) (ps : gmap str str)
    (ws : list (string * string)) (t : HandlerFunc) (T : list Context.event)
    (ft fuel : nat) :
  (∀ f c0, ft ≤ f →
           Context.call f gs t c0
           = Ok (Context.mk (Context.Params c0) (Context.index c0)
                   (Context.handlers c0) (Context.trace c0 ++ T))) →
  ft + 5 * length ws + 3 ≤ fuel →
  Context.Next fuel gs (Context.mk ps (-1) (arounds ws ++ [t]) [])
  = Ok (Context.mk ps (Z.of_nat (length (arounds ws ++ [t]) + length ws))
          (arounds ws ++ [t])
          (onionTrace 0 ws (Context.Invoke (Z.of_nat (length ws)) :: T))).
Proof.
  intros Ht Hfuel. destruct fuel as [|fuel]; [lia|]. rewrite Next_S.
  rewrite (nextLoop_onion gs t T ft ws []); simpl; try done; try lia.
  intros f c0 Hf _. by apply Ht.
Qed.

Lemma emitted_onion_plain (ws : list (string * string)) (k : nat) (i : Z)
    (body : list stmt) :
  Forall isEmit body →
  emitted (onionTrace k ws (Context.Invoke i :: (Context.Emitted ∘ tagOf <$> body)))
  = (fst <$> ws) ++ (tagOf <$> body) ++ reverse (snd <$> ws).
Proof.
  intros Hbody. rewrite emitted_onionTrace.
  change (emitted (Context.Invoke ?i :: ?l)) with (emitted l).
  by rewrite emitted_plain.
Qed.

(** X2.  A chain of canonical middleware (pre-work, [c.Next()], post-work)
    in front of a handler that only emits: [Next] from the start runs the
    pre-work of the middleware in chain order, then the handler, then the
    post-work in reverse order, and calls every handler exactly once. *)
Theorem Next_onion (gs : list RouterGroup.RouterGroup) (ps : gmap str str)
    (ws : list (string * string)) (body : list stmt) (fuel : nat) :
  Forall isEmit body →
  length body + 5 * length ws + 5 ≤ fuel →
  ∃ c', Context.Next fuel gs (Context.mk ps (-1) (arounds ws ++ [Func body]) [])
        = Ok c' ∧
        emitted (Context.trace c')
        = (fst <$> ws) ++ (tagOf <$> body) ++ reverse (snd <$> ws) ∧
        invoked (Context.trace c') = Z.of_nat <$> seq 0 (S (length ws)).
Proof.
  intros Hbody Hfuel. eexists. split.
  - apply (Next_arounds_ctx gs ps ws (Func body) (Context.Emitted ∘ tagOf <$> body)
             (length body + 2)); [|lia].
    intros f c0 Hf. by apply call_plain_spec.
  - cbn [Context.trace]. split; [by apply emitted_onion_plain|].
    rewrite invoked_onionTrace.
    change (invoked (Context.Invoke ?i :: ?l)) with (i :: invoked l).
    rewrite invoked_emits. by rewrite seq_S, fmap_app.
Qed.

Lemma Next_onion_witness :
  ∃ c', Context.Next 20 []
          (Context.mk ∅ (-1)
             (arounds [("a>", "a<"); ("b>", "b<")] ++ [Func [Emit "h"]]) [])
        = Ok c' ∧
        emitted (Context.trace c') = ["a>"; "b>"; "h"; "b<"; "a<"] ∧
        invoked (Context.trace c') = [0%Z; 1%Z; 2%Z].
Proof.
  apply (Next_onion [] ∅ [("a>", "a<"); ("b>", "b<")] [Emit "h"] 20).
  - repeat constructor.
  - simpl. lia.
Defined.

(** X3.  A chain of handlers none of which calls [c.Next()] or
    [c.Abort()]: one call of [Next] from the start runs every handler once,
    in chain order, and leaves the cursor at the length of the chain. *)
Theorem Next_runs_every_plain_handler (gs : list RouterGroup.RouterGroup)
    (ps : gmap str str) (hs : list HandlerFunc) (M fuel : nat) :
  Forall plainHandler hs →
  Forall (λ h, length (bodyOf h) ≤ M) hs →
  length hs + M + 3 ≤ fuel →
  ∃ c', Context.Next fuel gs (Context.mk ps (-1) hs []) = Ok c' ∧
        Context.index c' = Z.of_nat (length hs) ∧
        invoked (Context.trace c') = Z.of_nat <$> seq 0 (length hs) ∧
        emitted (Context.trace c') = mjoin ((λ h, tagOf <$> bodyOf h) <$> hs).
Proof.
  intros Hplain HM Hfuel. destruct fuel as [|fuel]; [lia|]. rewrite Next_S.
  eexists. split.
  - apply (nextLoop_plain_chain M gs ps hs Hplain HM [] fuel []). simpl. lia.
  - cbn [Context.trace Context.index app length]. split; [done|].
    split; [apply invoked_plainTrace|].
    generalize 0. induction Hplain as [|h hs Hh _ IH]; intros k; [done|].
    inversion HM; subst.
    cbn [plainTrace fmap list_fmap mjoin list_join].
    change (emitted (Context.Invoke ?i :: ?l)) with (emitted l).
    rewrite emitted_app, IH by (done || simpl in *; lia).
    destruct h as [body|]; [|done]. by rewrite emitted_plain.
Qed.

Lemma Next_runs_every_plain_handler_witness :
  ∃ c', Context.Next 6 []
          (Context.mk ∅ (-1) [Func [Emit "a"]; Func [Emit "b"]] []) = Ok c' ∧
        Context.index c' = 2%Z ∧
        invoked (Context.trace c') = [0%Z; 1%Z] ∧
        emitted (Context.trace c') = ["a"; "b"].
Proof.
  apply (Next_runs_every_plain_handler [] ∅
           [Func [Emit "a"]; Func [Emit "b"]] 1 6).
  - repeat constructor.
  - repeat constructor.
  - simpl. lia.
Defined.

(** ** Literal routes: the tree as a finite map *)

Lemma staticHandler_suffix (n : node) (q : str) (m : string) (h : HandlerFunc) :
  staticHandler n q m h ↔ ∃ x, q = path n ++ x ∧ handlerAfter n x m h.
Proof.
  split.
  - destruct 1 as [n m h Hh|n c rest i child m h Hw Hi Hc Hst].
    + exists []. by rewrite app_nil_r.
    + exists (c :: rest). split; [done|]. split; [done|].
      exists child. split; [|done]. unfold childAt. by rewrite Hi.
  - intros (x & -> & Hx). destruct x as [|c rest]; simpl in Hx.
    + rewrite app_nil_r. by apply staticHandler_here.
    + destruct Hx as (Hw & child & Hc & Hst). unfold childAt in Hc.
      destruct (indexByte c (indices n)) as [i|] eqn:Hi; [|done].
      by eapply staticHandler_down.
Qed.

Lemma handlerAfter_ext (n n' : node) (x : str) (m : string) (h : HandlerFunc) :
  handlers n' = handlers n → wildChild n' = wildChild n →
  (∀ c, childAt n' c = childAt n c) →
  handlerAfter n' x m h ↔ handlerAfter n x m h.
Proof.
  intros Hh Hw Hc. destruct x as [|c rest]; simpl.
  - by rewrite Hh.
  - by rewrite Hw, Hc.
Qed.

(** A node and a copy of it with another [path] serve the same suffixes. *)
Lemma staticHandler_repath (n n' : node) (x : str) (m : string) (h : HandlerFunc) :
  handlers n' = handlers n → wildChild n' = wildChild n →
  indices n' = indices n → children n' = children n →
  staticHandler n' (path n' ++ x) m h ↔ staticHandler n (path n ++ x) m h.
Proof.
  intros Hh Hw Hi Hc. rewrite !staticHandler_suffix. split.
  - intros (y & Hy%app_inv_head & Hafter). exists x. split; [done|]. subst y.
    eapply handlerAfter_ext; [..|exact Hafter]; try done.
    intros c. unfold childAt. by rewrite Hi, Hc.
  - intros (y & Hy%app_inv_head & Hafter). exists x. split; [done|]. subst y.
    eapply handlerAfter_ext; [..|exact Hafter]; try done.
    intros c. unfold childAt. by rewrite Hi, Hc.
Qed.

Lemma indexByte_None (c : ascii) (s : str) :
  indexByte c s = None ↔ c ∉ s.
Proof.
  induction s as [|x s IH]; simpl.
  - split; [|done]. intros _. apply not_elem_of_nil.
  - rewrite not_elem_of_cons. destruct (decide (c = x)) as [->|Hne].
    + split; [done|]. by intros [? _].
    + destruct (indexByte c s); simpl; split; try done.
      * intros [_ H]. by apply IH in H.
      * intros _. split; [done|]. by apply IH.
Qed.

(** [childAt] after the move to the front of the child at [pos], the first
    position of its byte: every byte selects the child it selected. *)
Lemma childAt_rot (s : str) (cs : list node) (k pos : nat) (c0 c : ascii) :
  k ≤ pos → indexByte c0 s = Some pos → length s = length cs →
  (i ← indexByte c (rot k pos s); rot k pos cs !! i)
  = (i ← indexByte c s; cs !! i).
Proof.
  intros Hk Hpos Hlen.
  pose proof Hpos as [Hs0 Hfirst0]%indexByte_Some.
  apply lookup_lt_Some in Hs0 as Hlt.
  destruct (decide (c = c0)) as [->|Hne].
  { rewrite (indexByte_rot c0 s k pos) by done. rewrite Hpos. simpl.
    rewrite rot_lookup by lia. rewrite decide_False by lia.
    by rewrite decide_True. }
  destruct (indexByte c s) as [j|] eqn:Hj.
  - pose proof Hj as [Hsj Hfirst]%indexByte_Some.
    assert (j ≠ pos) by (intros ->; congruence).
    set (j' := if decide (j < k) then j else if decide (j < pos) then S j else j).
    assert (indexByte c (rot k pos s) = Some j') as ->.
    { apply indexByte_Some. split.
      - rewrite rot_lookup by lia. unfold j'.
        repeat (destruct (decide _); try lia); try done.
        by replace (S j - 1) with j by lia.
      - intros a Ha. rewrite rot_lookup by lia. unfold j' in Ha.
        repeat (destruct (decide _); try lia); try (apply Hfirst; lia).
        all: congruence. }
    simpl. rewrite rot_lookup by lia. unfold j'.
    repeat (destruct (decide _); try lia); try done.
    by replace (S j - 1) with j by lia.
  - assert (indexByte c (rot k pos s) = None) as ->; [|done].
    apply indexByte_None. apply indexByte_None in Hj. intros Hin. apply Hj.
    apply list_elem_of_lookup in Hin as [a Ha].
    rewrite rot_lookup in Ha by lia.
    repeat (destruct (decide _)); by eapply list_elem_of_lookup_2.
Qed.

Lemma staticHandler_set_handlers (n : node) (method : string)
    (handler : HandlerFunc) (q : str) (m : string) (h0 : HandlerFunc) :
  staticHandler (set_handlers n (<[method := handler]> (handlers n))) q m h0
  ↔ if decide (q = path n ∧ m = method) then h0 = handler
    else staticHandler n q m h0.
Proof.
  rewrite !staticHandler_suffix. cbn [set_handlers path].
  destruct (decide (q = path n ∧ m = method)) as [[-> ->]|Hne].
  - split.
    + intros (x & Hx & Hafter).
      rewrite <- (app_nil_r (path n)) in Hx at 1. apply app_inv_head in Hx as <-.
      simpl in Hafter. rewrite lookup_insert_eq in Hafter. congruence.
    + intros ->. exists []. split; [by rewrite app_nil_r|].
      simpl. by rewrite lookup_insert_eq.
  - rewrite (staticHandler_suffix n).
    split; intros (x & -> & Hafter); exists x; (split; [done|]);
      destruct x as [|c rest]; simpl in *; try done.
    + rewrite lookup_insert_ne in Hafter; [done|].
      intros <-. apply Hne. by rewrite app_nil_r.
    + rewrite lookup_insert_ne; [done|].
      intros <-. apply Hne. by rewrite app_nil_r.
Qed.

Lemma staticHandler_bumped (c0 : node) (q : str) (m : string) (h : HandlerFunc) :
  staticHandler (bumped c0) q m h ↔ staticHandler c0 q m h.
Proof.
  rewrite !staticHandler_suffix. by destruct c0.
Qed.

(** A node whose child under the byte [c] was replaced, or added. *)
Lemma staticHandler_replace_child (n n' child' : node) (c : ascii) (rest : str)
    (method : string) (handler : HandlerFunc) :
  path n' = path n → handlers n' = handlers n →
  wildChild n = false → wildChild n' = false →
  (∀ c', childAt n' c' = if decide (c' = c) then Some child' else childAt n c') →
  (∀ q m h0, staticHandler child' q m h0 ↔
     if decide (q = c :: rest ∧ m = method) then h0 = handler
     else ∃ old, childAt n c = Some old ∧ staticHandler old q m h0) →
  ∀ q m h0, staticHandler n' q m h0 ↔
    if decide (q = path n ++ c :: rest ∧ m = method) then h0 = handler
    else staticHandler n q m h0.
Proof.
  intros Hp Hh Hw Hw' Hc Hchild q m h0.
  rewrite !staticHandler_suffix, Hp.
  assert (Hafter : ∀ x, handlerAfter n' x m h0 ↔
            if decide (x = c :: rest ∧ m = method) then h0 = handler
            else handlerAfter n x m h0).
  { intros [|c' rest']; cbn [handlerAfter].
    - rewrite decide_False by (by intros [? _]). by rewrite Hh.
    - rewrite Hc. destruct (decide (c' = c)) as [->|Hne].
      + rewrite Hw, Hw'. split.
        * intros (_ & ch & [= <-] & Hst). apply Hchild in Hst.
          destruct (decide (_ ∧ _)); [done|].
          destruct Hst as (old & Hold & Hst). split; [done|]. by exists old.
        * intros H. split; [done|]. exists child'. split; [done|].
          apply Hchild. destruct (decide (_ ∧ _)); [done|].
          destruct H as (_ & old & Hold & Hst). by exists old.
      + rewrite decide_False by (intros [[= ? ?] _]; done). by rewrite Hw, Hw'. }
  split.
  - intros (x & -> & Hx). apply Hafter in Hx.
    destruct (decide (x = c :: rest ∧ m = method)) as [[-> ->]|Hne].
    + by rewrite decide_True.
    + rewrite decide_False by (intros [Hq%app_inv_head ?]; by apply Hne).
      apply staticHandler_suffix. by exists x.
  - destruct (decide (q = path n ++ c :: rest ∧ m = method)) as [[-> ->]|Hne].
    + intros ->. exists (c :: rest). split; [done|]. apply Hafter.
      by rewrite decide_True.
    + intros (x & -> & Hx)%staticHandler_suffix. exists x. split; [done|].
      apply Hafter. rewrite decide_False; [done|]. intros [-> ->]. by apply Hne.
Qed.

Lemma staticHandler_split (n : node) (i : nat) (p : str)
    (q : str) (m : string) (h0 : HandlerFunc) :
  i < length (path n) → take i p = take i (path n) →
  staticHandler
    (mkNode (take i p) (take 1 (drop i (path n))) false (nType n) (priority n)
       [mkNode (drop i (path n)) (indices n) (wildChild n) static
          (uint32_decr (priority n)) (children n) (handlers n) (params n)]
       ∅ []) q m h0
  ↔ staticHandler n q m h0.
Proof.
  intros Hi Htake.
  set (child := mkNode (drop i (path n)) _ _ _ _ _ _ _).
  destruct (drop i (path n)) as [|c0 tl] eqn:Hdrop.
  { apply (f_equal length) in Hdrop. rewrite length_drop in Hdrop. simpl in Hdrop. lia. }
  assert (Hpath : path n = take i p ++ c0 :: tl)
    by (by rewrite Htake, <- Hdrop, take_drop).
  assert (Hrepath : ∀ y, staticHandler child (path child ++ y) m h0
                         ↔ staticHandler n (path n ++ y) m h0)
    by (intros y; by apply staticHandler_repath).
  rewrite (staticHandler_suffix (mkNode _ _ _ _ _ _ _ _)). cbn [path]. split.
  - intros (x & -> & Hx). destruct x as [|c rest]; simpl in Hx; [done|].
    destruct Hx as (_ & ch & Hch & Hst). unfold childAt in Hch. simpl in Hch.
    destruct (decide (c = c0)) as [->|]; [|done]. simpl in Hch.
    injection Hch as <-.
    apply staticHandler_suffix in Hst as Hsuf. destruct Hsuf as (y & Hy & _).
    rewrite Hy in Hst. apply Hrepath in Hst.
    rewrite Hy. cbn [child path]. by rewrite Hpath, <- app_assoc in Hst.
  - intros Hst. apply staticHandler_suffix in Hst as Hsuf.
    destruct Hsuf as (y & -> & _).
    exists (c0 :: tl ++ y). split; [by rewrite Hpath, <- app_assoc|].
    simpl. split; [done|]. exists child. split.
    + unfold childAt. simpl. by rewrite decide_True.
    + by apply (Hrepath y).
Qed.

Lemma longestCommonPrefix_take_l (p : str) (i : nat) :
  i ≤ length p → longestCommonPrefix p (take i p) = i.
Proof.
  intros Hi. rewrite <- (take_drop i p) at 1.
  rewrite longestCommonPrefix_app, length_take. lia.
Qed.

(** The iteration that splits an edge goes on as it does from the node the
    split leaves. *)
Lemma addRouteWalk_split (fuel : nat) (n : node) (p : str) (method : string)
    (handler : HandlerFunc) :
  longestCommonPrefix p (path n) < length (path n) →
  addRouteWalk (S fuel) n p method handler
  = addRouteWalk (S fuel)
      (mkNode (take (longestCommonPrefix p (path n)) p)
         (take 1 (drop (longestCommonPrefix p (path n)) (path n))) false
         (nType n) (priority n)
         [mkNode (drop (longestCommonPrefix p (path n)) (path n)) (indices n)
            (wildChild n) static (uint32_decr (priority n)) (children n)
            (handlers n) (params n)]
         ∅ []) p method handler.
Proof.
  intros Hi. pose proof (longestCommonPrefix_le_l p (path n)) as Hle.
  set (i := longestCommonPrefix p (path n)) in *.
  cbn [addRouteWalk path]. fold i.
  rewrite (longestCommonPrefix_take_l p i) by done.
  rewrite (decide_True (P := i < length (path n))) by done.
  rewrite (decide_False (P := i < length (take i p))); [done|].
  rewrite length_take. lia.
Qed.

Lemma addRouteWalk_here (fuel : nat) (n : node) (method : string)
    (handler : HandlerFunc) :
  addRouteWalk (S fuel) n (path n) method handler
  = Ok (set_handlers n (<[method := handler]> (handlers n))).
Proof.
  cbn [addRouteWalk]. rewrite longestCommonPrefix_refl.
  rewrite !(decide_False (P := length (path n) < length (path n))) by lia.
  done.
Qed.

Lemma addRouteWalk_descend (fuel : nat) (n n2 : node) (c : ascii) (rest : str)
    (pos k2 : nat) (method : string) (handler : HandlerFunc) :
  indexByte c (indices n) = Some pos →
  incrementChildPrio n pos = Ok (n2, k2) →
  addRouteWalk (S fuel) n (path n ++ c :: rest) method handler
  = match children n2 !! k2 with
    | None => Panic "runtime error: index out of range"
    | Some child =>
        child ← addRouteWalk fuel child (c :: rest) method handler;
        Ok (set_children n2 (<[k2 := child]> (children n2)))
    end.
Proof.
  intros Hidx Hinc. cbn [addRouteWalk]. rewrite longestCommonPrefix_app.
  rewrite !(decide_False (P := length (path n) < length (path n))) by lia.
  rewrite decide_True by (rewrite length_app; simpl; lia).
  rewrite drop_app_length, Hidx, Hinc. done.
Qed.

Lemma addRouteWalk_new_child (fuel : nat) (n : node) (c : ascii) (rest : str)
    (method : string) (handler : HandlerFunc) :
  length (indices n) = length (children n) →
  indexByte c (indices n) = None → literal (c :: rest) →
  ∃ n' newPos,
    addRouteWalk (S fuel) n (path n ++ c :: rest) method handler = Ok n' ∧
    path n' = path n ∧ wildChild n' = wildChild n ∧ handlers n' = handlers n ∧
    newPos ≤ length (children n) ∧
    indices n' = rot newPos (length (children n)) (indices n ++ [c]) ∧
    children n' = rot newPos (length (children n))
                    (children n ++
                     [set_handlers (set_path (bumped empty) (c :: rest))
                        (<[method := handler]> ∅)]).
Proof.
  intros Hlen Hidx Hlit.
  assert (Hc : isWild c = false) by (by inversion Hlit).
  cbn [addRouteWalk]. rewrite longestCommonPrefix_app.
  rewrite !(decide_False (P := length (path n) < length (path n))) by lia.
  rewrite decide_True by (rewrite length_app; simpl; lia).
  rewrite drop_app_length, Hidx, Hc. cbn [negb].
  change (children (set_indices n (indices n ++ [c]))) with (children n).
  set (n1 := set_children (set_indices n (indices n ++ [c])) (children n ++ [empty])).
  assert (Hpos : length (indices n1) - 1 = length (children n)).
  { unfold n1. simpl. rewrite length_app. simpl. lia. }
  rewrite Hpos.
  assert (Hlast : children n1 !! length (children n) = Some empty).
  { unfold n1. simpl. by rewrite lookup_app_r, Nat.sub_diag by lia. }
  destruct (incrementChildPrio_Ok n1 (length (children n)) empty Hlast)
    as (n3 & newPos & Hinc).
  { unfold n1. simpl. rewrite length_app. simpl. lia. }
  rewrite Hinc. rewrite bind_Ok.
  pose proof (incrementChildPrio_indices _ _ _ _ Hinc) as Hi3.
  specialize (Hi3 ltac:(unfold n1; simpl; rewrite length_app; simpl; lia)).
  apply incrementChildPrio_inv in Hinc
    as (c0 & Hc0 & Hle & Hch & _ & _ & Hp3 & Hw3 & _ & _ & Hh3 & _).
  rewrite Hlast in Hc0. injection Hc0 as <-.
  unfold n1 in Hch, Hp3, Hw3, Hh3, Hi3. simpl in Hch, Hp3, Hw3, Hh3, Hi3.
  rewrite snoc_insert in Hch.
  assert (Hlen3 : length (children n3) = S (length (children n))).
  { rewrite Hch, rot_length; rewrite length_app; simpl; lia. }
  rewrite Hlen3. cbn [Nat.sub]. rewrite Nat.sub_0_r.
  rewrite (decide_True (P := length (children n) = length (children n))) by done.
  assert (Hk3 : children n3 !! newPos = Some (bumped empty)).
  { rewrite Hch, rot_lookup by (rewrite length_app; simpl; lia).
    rewrite decide_False by lia. rewrite decide_True by done.
    by rewrite lookup_app_r, Nat.sub_diag by lia. }
  rewrite Hk3. unfold insertChild. rewrite insertChildLoop_literal by done.
  rewrite bind_Ok. eexists _, newPos. split; [reflexivity|].
  cbn [set_children path wildChild handlers indices children].
  repeat (split; [done|]).
  rewrite Hch, rot_insert by (rewrite length_app; simpl; lia).
  by rewrite snoc_insert.
Qed.

Lemma indexByte_snoc_ne (c c' : ascii) (s : str) :
  c' ≠ c → indexByte c' (s ++ [c]) = indexByte c' s.
Proof.
  intros Hne. induction s as [|x s IH]; simpl.
  - by rewrite decide_False.
  - destruct (decide (c' = x)); [done|]. by rewrite IH.
Qed.

Lemma childAt_new_child (n n' child' : node) (c : ascii) (newPos : nat) :
  length (indices n) = length (children n) →
  indexByte c (indices n) = None →
  newPos ≤ length (children n) →
  indices n' = rot newPos (length (children n)) (indices n ++ [c]) →
  children n' = rot newPos (length (children n)) (children n ++ [child']) →
  ∀ c', childAt n' c' = if decide (c' = c) then Some child' else childAt n c'.
Proof.
  intros Hlen Hidx Hle Hi Hc c'. unfold childAt. rewrite Hi, Hc.
  rewrite (childAt_rot _ _ newPos (length (children n)) c c'); [|done| |].
  - destruct (decide (c' = c)) as [->|Hne].
    + rewrite indexByte_snoc by done. simpl.
      by rewrite Hlen, lookup_app_r, Nat.sub_diag by lia.
    + rewrite indexByte_snoc_ne by done.
      destruct (indexByte c' (indices n)) as [j|] eqn:Hj; [|done]. simpl.
      apply indexByte_lookup, lookup_lt_Some in Hj.
      rewrite lookup_app_l by lia. done.
  - rewrite <- Hlen. by apply indexByte_snoc.
  - rewrite !length_app. simpl. lia.
Qed.

Lemma childAt_descend (n n' b child' : node) (c : ascii) (pos k : nat) :
  length (indices n) = length (children n) →
  indexByte c (indices n) = Some pos → k ≤ pos →
  indices n' = rot k pos (indices n) →
  children n' = <[k := child']> (rot k pos (<[pos := b]> (children n))) →
  ∀ c', childAt n' c' = if decide (c' = c) then Some child' else childAt n c'.
Proof.
  intros Hlen Hidx Hle Hi Hc c'. unfold childAt. rewrite Hi, Hc.
  pose proof Hidx as Hpos%indexByte_lookup. apply lookup_lt_Some in Hpos as Hlt.
  rewrite rot_insert by (rewrite length_insert; lia).
  rewrite list_insert_insert_eq.
  rewrite (childAt_rot _ _ k pos c c'); [|done|done|by rewrite length_insert].
  destruct (decide (c' = c)) as [->|Hne].
  - rewrite Hidx. simpl. apply list_lookup_insert_eq. lia.
  - destruct (indexByte c' (indices n)) as [j|] eqn:Hj; [|done]. simpl.
    apply list_lookup_insert_ne. intros <-.
    apply indexByte_lookup in Hj. congruence.
Qed.

Lemma staticHandler_leaf (p : str) (method : string) (handler : HandlerFunc)
    (q : str) (m : string) (h0 : HandlerFunc) :
  staticHandler (set_handlers (set_path (bumped empty) p) (<[method := handler]> ∅))
    q m h0
  ↔ q = p ∧ m = method ∧ h0 = handler.
Proof.
  rewrite staticHandler_suffix. cbn [set_handlers path]. split.
  - intros (x & -> & Hx). destruct x as [|c rest]; simpl in Hx.
    + apply lookup_insert_Some in Hx as [[<- <-]|[_ Hx]]; [|done].
      by rewrite app_nil_r.
    + by destruct Hx as (_ & ch & Hch & _).
  - intros (-> & -> & ->). exists []. split; [by rewrite app_nil_r|].
    simpl. by rewrite lookup_insert_eq.
Qed.

(** Registration in a tree of literal routes, as a map update: the walk
    returns, and the tree it leaves routes the registered pair to the new
    handler and every other pair as before. *)
Lemma addRouteWalk_literal_spec (fuel : nat) :
  ∀ n p method handler,
    literal p → allNodes literalNode n → height n ≤ fuel →
    ∃ n', addRouteWalk fuel n p method handler = Ok n' ∧
      (0 < length (children n') ∨ path n' = p) ∧
      ∀ q m h0, staticHandler n' q m h0 ↔
        if decide (q = p ∧ m = method) then h0 = handler
        else staticHandler n q m h0.
Proof.
  induction fuel as [|fuel IH]; intros n p method handler Hlit Hn Hfuel.
  { pose proof (height_pos n). lia. }
  pose proof (longestCommonPrefix_le_l p (path n)) as Hle_p.
  pose proof (longestCommonPrefix_le_r p (path n)) as Hle_n.
  pose proof (longestCommonPrefix_take p (path n)) as Htake.
  pose proof (longestCommonPrefix_differ p (path n)) as Hdiff.
  apply allNodes_inv in Hn as [[Ha Hw] Hcs].
  assert (∃ n1 x,
            addRouteWalk (S fuel) n p method handler
            = addRouteWalk (S fuel) n1 (path n1 ++ x) method handler ∧
            p = path n1 ++ x ∧ literal x ∧ wildChild n1 = false ∧
            length (indices n1) = length (children n1) ∧
            (∀ q m h0, staticHandler n1 q m h0 ↔ staticHandler n q m h0) ∧
            (∀ c rest pos, x = c :: rest →
                           indexByte c (indices n1) = Some pos → n1 = n))
    as (n1 & x & -> & -> & Hx & Hw1 & Hlen1 & Hst1 & Hsame).
  { set (i := longestCommonPrefix p (path n)) in *.
    destruct (decide (i < length (path n))) as [Hi|Hi].
    - rewrite addRouteWalk_split by done. fold i.
      eexists _, (drop i p). split; [f_equal; cbn [path]; by rewrite take_drop|].
      cbn [path indices children wildChild].
      split; [by rewrite take_drop|]. split; [by apply literal_drop|].
      split; [done|].
      destruct (drop i (path n)) as [|c0 tl] eqn:Hdrop.
      { apply (f_equal length) in Hdrop. rewrite length_drop in Hdrop.
        simpl in Hdrop. lia. }
      split; [done|]. split.
      + intros q m h0. rewrite <- Hdrop. by apply staticHandler_split.
      + intros c rest pos Hxx Hidx. exfalso. simpl in Hidx.
        destruct (decide (c = c0)) as [->|]; [|done].
        assert (i < length p).
        { apply (f_equal length) in Hxx. rewrite length_drop in Hxx.
          simpl in Hxx. lia. }
        apply Hdiff; [done|done|].
        rewrite <- (Nat.add_0_r i), <- !lookup_drop. by rewrite Hxx, Hdrop.
    - exists n, (drop i p).
      assert (Hpn : path n = take i p) by (rewrite Htake; by rewrite take_ge by lia).
      assert (Hp : path n ++ drop i p = p) by (rewrite Hpn; apply take_drop).
      rewrite Hp.
      split; [done|]. split; [done|]. split; [by apply literal_drop|].
      split; [done|]. split; [by eapply Forall2_length|]. done. }
  destruct x as [|c rest].
  - rewrite app_nil_r, addRouteWalk_here. eexists. split; [done|].
    split; [by right|]. intros q m h0. rewrite staticHandler_set_handlers.
    destruct (decide _); [done|]. apply Hst1.
  - destruct (indexByte c (indices n1)) as [pos|] eqn:Hidx.
    + assert (n1 = n) as -> by eauto.
      pose proof Hidx as Hpos%indexByte_lookup.
      apply lookup_lt_Some in Hpos as Hlt.
      destruct (lookup_lt_is_Some_2 (children n) pos) as [c0 Hc0]; [lia|].
      destruct (incrementChildPrio_Ok n pos c0 Hc0 Hlt) as (n2 & k2 & Hinc).
      rewrite (addRouteWalk_descend fuel n n2 c rest pos k2) by done.
      pose proof (incrementChildPrio_indices _ _ _ _ Hinc Hlt) as Hi2.
      apply incrementChildPrio_inv in Hinc
        as (c0' & Hc0' & Hle & Hch & _ & _ & Hp2 & Hw2 & _ & _ & Hh2 & _).
      assert (c0' = c0) as -> by congruence.
      assert (Hk2 : children n2 !! k2 = Some (bumped c0)).
      { rewrite Hch, rot_lookup by (rewrite length_insert; lia).
        rewrite decide_False by lia. rewrite decide_True by done.
        by rewrite list_lookup_insert_eq by lia. }
      rewrite Hk2.
      pose proof (height_child _ _ _ Hc0) as Hh.
      pose proof (Forall_lookup_1 _ _ _ _ Hcs Hc0) as Hc0all.
      destruct (IH (bumped c0) (c :: rest) method handler)
        as (child' & Hwalk & _ & Hspec);
        [done|by apply literalNode_bumped
        |unfold bumped; rewrite height_set_priority; lia|].
      rewrite Hwalk, bind_Ok. eexists. split; [done|]. split.
      { left. cbn [set_children children].
        rewrite length_insert, Hch, rot_length; rewrite length_insert; lia. }
      apply (staticHandler_replace_child n _ child' c rest method handler);
        cbn [set_children path handlers wildChild]; try congruence.
      * apply (childAt_descend n _ (bumped c0) child' c pos k2); try done.
        cbn [set_children children]. by rewrite Hch.
      * intros q m h0. rewrite Hspec. destruct (decide _); [done|].
        rewrite staticHandler_bumped. unfold childAt. rewrite Hidx. simpl.
        split.
        -- intros Hst. by exists c0.
        -- intros (old & Hold & Hst). congruence.
    + destruct (addRouteWalk_new_child fuel n1 c rest method handler)
        as (n' & newPos & Hwalk & Hp' & Hw' & Hh' & Hle & Hi' & Hc');
        try done.
      rewrite Hwalk. exists n'. split; [done|]. split.
      { left. rewrite Hc', rot_length; rewrite length_app; simpl; lia. }
      intros q m h0.
      etrans; [apply (staticHandler_replace_child n1 n' _ c rest method handler
                        Hp' Hh' Hw1 ltac:(congruence)
                        (childAt_new_child n1 n' _ c newPos Hlen1 Hidx Hle Hi' Hc'))|].
      * intros q' m' h'. rewrite staticHandler_leaf.
        unfold childAt. rewrite Hidx. simpl.
        destruct (decide _) as [[-> ->]|Hne].
        -- split; [by intros (_ & _ & ->)|done].
        -- split; [intros (-> & -> & _); by destruct Hne|by intros (? & ? & _)].
      * destruct (decide _); [done|]. apply Hst1.
Qed.

Lemma staticHandler_no_route (n : node) (q : str) (m : string) (h : HandlerFunc) :
  path n = [] → children n = [] → handlers n = ∅ → ¬ staticHandler n q m h.
Proof.
  intros Hp Hc Hh (x & -> & Hx)%staticHandler_suffix.
  destruct x as [|c rest]; simpl in Hx.
  - by rewrite Hh in Hx.
  - destruct Hx as (_ & ch & Hch & _). unfold childAt in Hch.
    destruct (indexByte c (indices n)); [|done]. simpl in Hch.
    by rewrite Hc in Hch.
Qed.

Lemma addRoute_literal_spec (n : node) (p : str) (method : string)
    (handler : HandlerFunc) :
  literal p → p ≠ [] → allNodes literalNode n → rootOk n →
  ∃ n', addRoute n p method handler = Ok n' ∧
    allNodes literalNode n' ∧ rootOk n' ∧
    ∀ q m h0, staticHandler n' q m h0 ↔
      if decide (q = p ∧ m = method) then h0 = handler
      else staticHandler n q m h0.
Proof.
  intros Hlit Hp Hn Hroot.
  assert (∃ n', addRoute n p method handler = Ok n' ∧ rootOk n' ∧
            ∀ q m h0, staticHandler n' q m h0 ↔
              if decide (q = p ∧ m = method) then h0 = handler
              else staticHandler n q m h0) as (n' & Hadd & Hroot' & Hspec).
  { unfold addRoute. fold (bumped n).
    destruct (decide _) as [[Hpath Hcs]|Hne].
    - unfold insertChild. rewrite insertChildLoop_literal by done.
      rewrite bind_Ok. eexists. split; [done|].
      apply nil_length_inv in Hpath, Hcs.
      assert (Hpn : path n = []) by (by destruct n).
      assert (Hcn : children n = []) by (by destruct n).
      assert (Hhn : handlers (bumped n) = ∅) by (destruct n; by apply Hroot).
      split; [intros Hp'; by destruct Hp|].
      intros q m h0. rewrite staticHandler_suffix.
      cbn [set_nType set_handlers set_path path]. rewrite Hhn. split.
      + intros (x & -> & Hx). destruct x as [|c rest]; simpl in Hx.
        * apply lookup_insert_Some in Hx as [[<- <-]|[_ Hx]]; [|done].
          rewrite app_nil_r. by rewrite decide_True.
        * destruct Hx as (_ & ch & Hch & _). unfold childAt in Hch.
          simpl in Hch. destruct (indexByte c _); [|done]. simpl in Hch.
          by rewrite Hcn in Hch.
      + destruct (decide _) as [[-> ->]|_].
        * intros ->. exists []. split; [by rewrite app_nil_r|].
          simpl. by rewrite lookup_insert_eq.
        * intros Hst. exfalso. revert Hst. by apply staticHandler_no_route.
    - destruct (addRouteWalk_literal_spec (height (bumped n)) (bumped n) p
                  method handler) as (n' & Hwalk & Hshape & Hspec);
        [done|by apply literalNode_bumped|done|].
      exists n'. split; [done|]. split.
      + intros Hp' Hc'. destruct Hshape as [Hlen|Heq].
        * rewrite Hc' in Hlen. simpl in Hlen. lia.
        * congruence.
      + intros q m h0. rewrite Hspec. destruct (decide _); [done|].
        apply staticHandler_bumped. }
  exists n'. split; [done|]. split; [|done].
  by apply (addRoute_literal n n' p method handler).
Qed.

(** The lookup in a tree of literal routes finds what the literal edges lead
    to, and nothing else. *)
Lemma getValueWalk_literal (fuel : nat) :
  ∀ n q m ps,
    allNodes literalNode n → height n ≤ fuel →
    (∃ h, staticHandler n q m h ∧
          getValueWalk fuel n q m ps = Ok (Some (h, ps))) ∨
    ((∀ h, ¬ staticHandler n q m h) ∧ getValueWalk fuel n q m ps = Ok None).
Proof.
  induction fuel as [|fuel IH]; intros n q m ps Hn Hfuel.
  { pose proof (height_pos n). lia. }
  apply allNodes_inv in Hn as [[Ha Hw] Hcs].
  cbn [getValueWalk].
  destruct (decide (length (path n) < length q)) as [Hlen|Hlen].
  - destruct (decide (take (length (path n)) q = path n)) as [Htake|Htake].
    + rewrite Hw. cbn [negb].
      assert (Hq : q = path n ++ drop (length (path n)) q)
        by (by rewrite <- Htake at 1; rewrite take_drop).
      destruct (drop (length (path n)) q) as [|c rest] eqn:Hdrop.
      { apply (f_equal length) in Hdrop. rewrite length_drop in Hdrop.
        simpl in Hdrop. lia. }
      destruct (indexByte c (indices n)) as [i|] eqn:Hidx.
      * pose proof Hidx as Hi%indexByte_lookup. apply lookup_lt_Some in Hi.
        destruct (lookup_lt_is_Some_2 (children n) i) as [child Hchild].
        { apply Forall2_length in Ha. lia. }
        rewrite Hchild.
        pose proof (height_child _ _ _ Hchild).
        destruct (IH child (c :: rest) m ps) as [(h & Hst & Hget)|[Hno Hget]];
          [by eapply Forall_lookup_1|lia| |].
        -- left. exists h. split; [|done].
           by apply (staticHandler_below n q c rest i child).
        -- right. split; [|done]. intros h (x & Hx & Hafter)%staticHandler_suffix.
           rewrite Hq in Hx. apply app_inv_head in Hx as <-.
           destruct Hafter as (_ & ch & Hch & Hst). unfold childAt in Hch.
           rewrite Hidx in Hch. simpl in Hch. rewrite Hchild in Hch.
           injection Hch as <-. by apply (Hno h).
      * right. split; [|done]. intros h (x & Hx & Hafter)%staticHandler_suffix.
        rewrite Hq in Hx. apply app_inv_head in Hx as <-.
        destruct Hafter as (_ & ch & Hch & Hst). unfold childAt in Hch.
        by rewrite Hidx in Hch.
    + right. split; [|done]. intros h (x & -> & _)%staticHandler_suffix.
      by rewrite take_app_length in Htake.
  - destruct (decide (q = path n)) as [->|Hne].
    + destruct (handlers n !! m) as [h|] eqn:Hh; simpl.
      * left. exists h. split; [|done]. by apply staticHandler_here.
      * right. split; [|done]. intros h (x & Hx & Hafter)%staticHandler_suffix.
        rewrite <- (app_nil_r (path n)) in Hx at 1.
        apply app_inv_head in Hx as <-. simpl in Hafter. congruence.
    + right. split; [|done]. intros h (x & -> & _)%staticHandler_suffix.
      rewrite length_app in Hlen. destruct x; [|simpl in Hlen; lia].
      by rewrite app_nil_r in Hne.
Qed.

Lemma addRoutes_literal_spec (routes : list (string * str * HandlerFunc)) :
  ∀ (n : node) (f : string → str → option HandlerFunc),
    Forall (λ r, literal r.1.2 ∧ r.1.2 ≠ []) routes →
    allNodes literalNode n → rootOk n →
    (∀ q m h0, staticHandler n q m h0 ↔ f m q = Some h0) →
    ∃ n', addRoutes n routes = Ok n' ∧ allNodes literalNode n' ∧
      ∀ q m h0, staticHandler n' q m h0
                ↔ registeredFrom (f m q) routes m q = Some h0.
Proof.
  induction routes as [|[[method p] handler] routes IH];
    intros n f Hroutes Hn Hroot Hf.
  - exists n. by split.
  - inversion Hroutes as [|? ? [Hlit Hp] Hrest]; subst. simpl in Hlit, Hp.
    destruct (addRoute_literal_spec n p method handler)
      as (n1 & Hadd & Hn1 & Hroot1 & Hspec); try done.
    destruct (IH n1 (λ m q, if decide (p = q ∧ method = m) then Some handler
                            else f m q)) as (n' & Hadds & Hn' & Hspec');
      try done.
    { intros q m h0. rewrite Hspec.
      destruct (decide (q = p ∧ m = method)) as [[-> ->]|Hne].
      - rewrite decide_True by done. split; congruence.
      - rewrite decide_False by (intros [<- <-]; by apply Hne). apply Hf. }
    exists n'. split; [|done]. simpl. by rewrite Hadd.
Qed.

(** X4.  The tree as a finite map, for routes without wildcards.  Any
    sequence of registrations of non-empty literal paths on the empty tree
    succeeds, and in the tree it leaves [getValue] of a path and a method
    returns the handler registered last for that pair, with no parameters,
    and nothing for a pair that was not registered. *)
Theorem literal_routes_lookup (routes : list (string * str * HandlerFunc)) :
  Forall (λ r, literal r.1.2 ∧ r.1.2 ≠ []) routes →
  ∃ n, addRoutes empty routes = Ok n ∧
       ∀ q m, getValue n q m
              = Ok ((λ h, (h, ∅)) <$> registered routes m q).
Proof.
  intros Hroutes.
  destruct (addRoutes_literal_spec routes empty (λ _ _, None))
    as (n & Hadd & Hn & Hspec); try done.
  { constructor; [split|]; constructor. }
  { intros q m h0. split; [|done]. intros Hst. exfalso. revert Hst.
    by apply staticHandler_no_route. }
  exists n. split; [done|]. intros q m. unfold getValue, registered.
  destruct (getValueWalk_literal (height n) n q m ∅ Hn (le_n _))
    as [(h & Hst & ->)|[Hno ->]].
  - apply Hspec in Hst. by rewrite Hst.
  - destruct (registeredFrom None routes m q) as [h|] eqn:Hr; [|done].
    exfalso. apply (Hno h). by apply Hspec.
Qed.

Lemma literal_routes_lookup_witness :
  let routes := [("GET", bytes "/users", Func [Emit "users"]);
                 ("GET", bytes "/user", Func [Emit "user"]);
                 ("POST", bytes "/users", Func [Emit "create"]);
                 ("GET", bytes "/users", Func [Emit "again"])] in
  ∃ n, addRoutes empty routes = Ok n ∧
       ∀ q m, getValue n q m
              = Ok ((λ h, (h, ∅)) <$> registered routes m q).
Proof.
  apply (literal_routes_lookup
           [("GET", bytes "/users", Func [Emit "users"]);
            ("GET", bytes "/user", Func [Emit "user"]);
            ("POST", bytes "/users", Func [Emit "create"]);
            ("GET", bytes "/users", Func [Emit "again"])]).
  unfold literal. by_compute.
Defined.

(** ** [findWildcard] *)

Lemma findWildcardEnd_segment (seg post : str) (end_ : nat) (valid : bool) :
  "/"%char ∉ seg → post = [] ∨ head post = Some "/"%char →
  findWildcardEnd (seg ++ post) end_ valid
  = (end_ + length seg, valid && bool_decide (literal seg)).
Proof.
  revert end_ valid. induction seg as [|c seg IH]; intros end_ valid Hseg Hpost.
  - simpl. rewrite Nat.add_0_r, andb_true_r.
    destruct Hpost as [->|Hpost]; [done|].
    destruct post as [|c post]; [done|]. simpl in Hpost. by injection Hpost as ->.
  - apply not_elem_of_cons in Hseg as [Hc Hseg]. simpl.
    rewrite decide_False by done. rewrite IH by done.
    f_equal; [lia|]. unfold literal.
    destruct (isWild c) eqn:Hw.
    + rewrite (bool_decide_eq_false_2 (Forall _ (c :: seg))).
      * by rewrite andb_false_r.
      * intros H. inversion H; congruence.
    + destruct (decide (Forall (λ c, isWild c = false) seg)) as [Hl|Hl].
      * by rewrite !bool_decide_eq_true_2 by (by try constructor).
      * rewrite !bool_decide_eq_false_2; [done|by inversion 1|done].
Qed.

Lemma findWildcardFrom_wildcard (pre seg post : str) (c : ascii) (start : nat) :
  literal pre → isWild c = true → "/"%char ∉ seg →
  post = [] ∨ head post = Some "/"%char →
  findWildcardFrom (pre ++ c :: seg ++ post) start
  = (c :: seg, Z.of_nat (start + length pre), bool_decide (literal seg)).
Proof.
  intros Hpre Hc Hseg Hpost. revert start.
  induction Hpre as [|x pre Hx _ IH]; intros start.
  - simpl. rewrite Hc. rewrite findWildcardEnd_segment by done. simpl.
    rewrite take_app_length. by rewrite Nat.add_0_r.
  - simpl. rewrite Hx, IH. do 2 f_equal. lia.
Qed.

Lemma wildcardName_segment (name : str) :
  wildcardName name → ("/"%char ∉ name) ∧ literal name ∧ name ≠ [].
Proof.
  intros [Hne Hall]. split; [|split; [|done]].
  - intros Hin. rewrite Forall_forall in Hall. by destruct (Hall _ Hin).
  - eapply Forall_impl; [exact Hall|]. by intros c [_ ?].
Qed.

(** ** Parameter routes *)

Lemma paramEnd_le (v : str) : paramEnd v ≤ length v.
Proof. induction v as [|c v IH]; simpl; [lia|]. destruct (decide _); lia. Qed.

Lemma paramEnd_segment (v : str) : paramEnd v = length v ↔ ("/"%char ∉ v).
Proof.
  induction v as [|c v IH]; simpl.
  - split; [|done]. intros _. apply not_elem_of_nil.
  - rewrite not_elem_of_cons. destruct (decide (c = "/"%char)) as [->|Hne].
    + split; [done|]. by intros [? _].
    + split.
      * intros [= H]. split; [done|]. by apply IH.
      * intros [_ H]. f_equal. by apply IH.
Qed.

Lemma addRoute_param (prefix name : str) (method : string)
    (handler : HandlerFunc) :
  literal prefix → wildcardName name →
  addRoute empty (prefix ++ ":"%char :: name) method handler
  = Ok (paramTree prefix name method handler).
Proof.
  intros Hprefix Hname.
  destruct (wildcardName_segment name Hname) as (Hseg & Hlit & Hne).
  unfold addRoute. rewrite decide_True by done.
  unfold insertChild. cbn [insertChildLoop]. unfold findWildcard.
  replace (prefix ++ ":"%char :: name) with (prefix ++ ":"%char :: name ++ [])
    by (by rewrite app_nil_r).
  rewrite findWildcardFrom_wildcard by (done || by left).
  rewrite app_nil_r. rewrite bool_decide_eq_true_2 by done.
  cbn [Nat.add negb].
  assert (Hz : (Z.of_nat (length prefix) <? 0)%Z = false) by (apply Z.ltb_ge; lia).
  rewrite Hz.
  rewrite decide_False by (destruct name; simpl; [done|lia]).
  rewrite decide_False by (simpl; lia).
  rewrite Nat2Z.id. rewrite decide_True by done.
  destruct (decide (0 < length prefix)) as [Hp|Hp].
  - rewrite take_app_length, drop_app_length.
    rewrite decide_False by lia. reflexivity.
  - assert (prefix = []) as -> by (destruct prefix; simpl in *; [done|lia]).
    cbn [app]. rewrite decide_False by lia. reflexivity.
Qed.

Lemma getValueWalk_param (fuel : nat) (n child : node) (v name : str)
    (method : string) (h : HandlerFunc) (ps : gmap str str) :
  wildChild n = true → children n !! 0 = Some child →
  nType child = param → path child = ":"%char :: name →
  children child = [] → handlers child !! method = Some h →
  v ≠ [] →
  getValueWalk (S fuel) n (path n ++ v) method ps
  = if decide ("/"%char ∈ v) then Ok None
    else Ok (Some (h, <[name := v]> ps)).
Proof.
  intros Hw Hc Ht Hp Hcs Hh Hv. simpl.
  rewrite decide_True.
  2:{ rewrite length_app. destruct v; [done|simpl; lia]. }
  rewrite take_app_length, decide_True by done.
  rewrite drop_app_length, Hw, Hc, Ht. simpl.
  rewrite Hp, Hcs, Hh. simpl.
  pose proof (paramEnd_le v) as Hle. pose proof (paramEnd_segment v) as Hseg.
  rewrite drop_0.
  destruct (decide ("/"%char ∈ v)) as [Hin|Hin].
  - rewrite decide_True; [done|].
    destruct (decide (paramEnd v = length v)) as [He|He]; [|lia].
    by apply Hseg in He.
  - apply Hseg in Hin. rewrite Hin. rewrite decide_False by lia.
    by rewrite take_ge by lia.
Qed.

Lemma getValue_param (prefix name v : str) (method : string)
    (handler : HandlerFunc) :
  v ≠ [] →
  getValue (paramTree prefix name method handler) (prefix ++ v) method
  = if decide ("/"%char ∈ v) then Ok None
    else Ok (Some (handler, {[ name := v ]})).
Proof.
  intros Hv.
  eapply (getValueWalk_param 1 (paramTree prefix name method handler) _ v name
            method handler ∅); try done.
  apply lookup_singleton_eq.
Qed.

(** ** Malformed wildcards *)

Ltac insertChild_findWildcard :=
  unfold insertChild; cbn [insertChildLoop]; unfold findWildcard;
  rewrite findWildcardFrom_wildcard by (done || (by left) || (by right));
  cbn [Nat.add];
  rewrite (proj2 (Z.ltb_ge _ 0)) by lia.

Lemma insertChild_unnamed_wildcard (n : node) (pre post : str) (c : ascii)
    (method : string) (handler : HandlerFunc) :
  literal pre → isWild c = true → post = [] ∨ head post = Some "/"%char →
  insertChild n (pre ++ c :: post) method handler
  = Panic "wildcards must be named with a non-empty name".
Proof.
  intros Hpre Hc Hpost.
  change (c :: post) with (c :: [] ++ post).
  assert (Hseg : "/"%char ∉ @nil ascii) by apply not_elem_of_nil.
  insertChild_findWildcard.
  rewrite bool_decide_eq_true_2 by constructor. cbn [negb].
  by rewrite decide_True by (simpl; lia).
Qed.

Lemma insertChild_two_wildcards (n : node) (pre seg post : str) (c : ascii)
    (method : string) (handler : HandlerFunc) :
  literal pre → isWild c = true → "/"%char ∉ seg → ¬ literal seg →
  post = [] ∨ head post = Some "/"%char →
  insertChild n (pre ++ c :: seg ++ post) method handler
  = Panic "only one wildcard per path segment is allowed".
Proof.
  intros Hpre Hc Hseg Hnl Hpost. insertChild_findWildcard.
  by rewrite bool_decide_eq_false_2 by done.
Qed.

Lemma insertChild_catchAll_not_last (n : node) (pre name rest : str)
    (method : string) (handler : HandlerFunc) :
  literal pre → wildcardName name → children n = [] →
  insertChild n (pre ++ "*"%char :: name ++ "/"%char :: rest) method handler
  = Panic "catch-all routes are only allowed at the end of the path".
Proof.
  intros Hpre Hname Hcs.
  destruct (wildcardName_segment name Hname) as (Hseg & Hlit & Hne).
  insertChild_findWildcard.
  rewrite bool_decide_eq_true_2 by done. cbn [negb].
  rewrite decide_False by (destruct name; simpl; [done|lia]).
  rewrite Hcs. rewrite decide_False by (simpl; lia).
  rewrite decide_False by done.
  rewrite decide_True; [done|].
  rewrite Nat2Z.id, !length_app. simpl. rewrite length_app. simpl. lia.
Qed.

Lemma insertChild_catchAll_no_slash (n : node) (pre name : str) (x : ascii)
    (method : string) (handler : HandlerFunc) :
  literal pre → isWild x = false → x ≠ "/"%char → wildcardName name →
  children n = [] → last (path n) ≠ Some "/"%char →
  insertChild n (pre ++ x :: "*"%char :: name) method handler
  = Panic "no / before catch-all".
Proof.
  intros Hpre Hx Hxs Hname Hcs Hlast.
  destruct (wildcardName_segment name Hname) as (Hseg & Hlit & Hne).
  replace (pre ++ x :: "*"%char :: name)
    with ((pre ++ [x]) ++ "*"%char :: name ++ []).
  2:{ by rewrite app_nil_r, <- app_assoc. }
  assert (Hpre' : literal (pre ++ [x])).
  { apply Forall_app. split; [done|]. by constructor. }
  insertChild_findWildcard.
  rewrite bool_decide_eq_true_2 by done. cbn [negb].
  rewrite decide_False by (destruct name; simpl; [done|lia]).
  rewrite Hcs. rewrite decide_False by (simpl; lia).
  rewrite decide_False by done.
  rewrite decide_False.
  2:{ rewrite Nat2Z.id, !length_app. simpl. rewrite app_nil_r. lia. }
  rewrite decide_False by (by intros [_ ?]).
  rewrite Nat2Z.id, length_app. simpl. rewrite Nat.add_1_r.
  rewrite decide_True; [done|].
  rewrite lookup_app_l by (rewrite length_app; simpl; lia).
  rewrite lookup_app_r, Nat.sub_diag by done. simpl. congruence.
Qed.

Lemma insertChild_catchAll_at_start (n : node) (name : str)
    (method : string) (handler : HandlerFunc) :
  wildcardName name → children n = [] → last (path n) ≠ Some "/"%char →
  insertChild n ("*"%char :: name) method handler
  = Panic "runtime error: index out of range [-1]".
Proof.
  intros Hname Hcs Hlast.
  destruct (wildcardName_segment name Hname) as (Hseg & Hlit & Hne).
  change ("*"%char :: name) with ([] ++ "*"%char :: name).
  replace ([] ++ "*"%char :: name) with ([] ++ "*"%char :: name ++ [])
    by (by rewrite app_nil_r).
  assert (Hpre : literal []) by constructor.
  insertChild_findWildcard.
  rewrite bool_decide_eq_true_2 by done. cbn [negb].
  rewrite decide_False by (destruct name; simpl; [done|lia]).
  rewrite Hcs. rewrite decide_False by (simpl; lia).
  rewrite decide_False by done.
  rewrite decide_False.
  2:{ simpl. rewrite app_nil_r. lia. }
  rewrite decide_False by (by intros [_ ?]).
  done.
Qed.

(** ** The router as a map from method and path to handler *)

Lemma getValue_literal (n : node) (q : str) (m : string) :
  allNodes literalNode n →
  (getValue n q m = Ok None ∧ ∀ h, ¬ staticHandler n q m h) ∨
  (∃ h, getValue n q m = Ok (Some (h, ∅)) ∧
        ∀ h', staticHandler n q m h' ↔ h' = h).
Proof.
  intros Hn. unfold getValue.
  destruct (getValueWalk_literal (height n) n q m ∅ Hn (le_n _))
    as [(h & Hst & Hget)|[Hno Hget]].
  - right. exists h. split; [done|]. intros h'. split; [|by intros ->].
    intros Hst'. apply getValueWalk_static with (fuel := height n) (ps := ∅) in Hst';
      [|done]. congruence.
  - left. by split.
Qed.

Lemma getValue_literal_ext (n n' : node) (q : str) (m : string) :
  allNodes literalNode n → allNodes literalNode n' →
  (∀ h, staticHandler n' q m h ↔ staticHandler n q m h) →
  getValue n' q m = getValue n q m.
Proof.
  intros Hn Hn' Hiff.
  destruct (getValue_literal n q m Hn) as [[-> Hno]|(h & -> & Hh)];
    destruct (getValue_literal n' q m Hn') as [[-> Hno']|(h' & -> & Hh')];
    try done.
  - exfalso. apply (Hno h'). apply Hiff. by apply Hh'.
  - exfalso. apply (Hno' h). apply Hiff. by apply Hh.
  - assert (h' = h) as ->; [|done]. apply Hh, Hiff. by apply Hh'.
Qed.

Lemma literalRouter_New : literalRouter Router.New.
Proof. intros m t H. simpl in H. by rewrite lookup_empty in H. Qed.

Lemma literalRouter_Use (r : Router.Router) (mws : list HandlerFunc) :
  literalRouter r → literalRouter (Router.Use r mws).
Proof. done. Qed.

Lemma Router_literal_update (r : Router.Router) (method : string)
    (p : str) (handler : HandlerFunc) :
  literalRouter r → literal p → head p = Some "/"%char →
  ∃ r', Router.addRoute r method p handler = Ok r' ∧ literalRouter r' ∧
    Router.middleware r' = Router.middleware r ∧
    ∀ m q, ownHandler r' m q
           = if decide (q = p ∧ m = method) then Ok (Some (handler, ∅))
             else ownHandler r m q.
Proof.
  intros Hr Hlit Hhead. unfold Router.addRoute.
  destruct p as [|c p']; [done|]. injection Hhead as ->.
  rewrite decide_False by (by intros H; apply H).
  set (p := "/"%char :: p') in *.
  set (t := default empty (Router.trees r !! method)).
  assert (Ht : allNodes literalNode t ∧ rootOk t).
  { unfold t. destruct (Router.trees r !! method) as [t0|] eqn:Ht0; simpl.
    - by apply (Hr method).
    - split; [constructor; [split|]; constructor|done]. }
  destruct Ht as [Ht Hroot].
  destruct (addRoute_literal_spec t p method handler)
    as (t' & Hadd & Ht' & Hroot' & Hspec); try done.
  rewrite Hadd, bind_Ok. eexists. split; [done|]. split; [|split; [done|]].
  - intros m t0. cbn [Router.set_trees Router.trees].
    intros [[<- <-]|[_ H]]%lookup_insert_Some; [done|by apply (Hr m)].
  - intros m q. unfold ownHandler. cbn [Router.set_trees Router.trees].
    destruct (decide (m = method)) as [->|Hm].
    + rewrite lookup_insert_eq.
      destruct (decide (q = p ∧ method = method)) as [[-> _]|Hne].
      * unfold getValue. apply getValueWalk_static; [|done].
        apply Hspec. by rewrite decide_True.
      * transitivity (getValue t q method).
        -- apply getValue_literal_ext; try done. intros h. rewrite Hspec.
           by rewrite decide_False.
        -- unfold t. destruct (Router.trees r !! method); [done|]. simpl.
           destruct (getValue_literal empty q method)
             as [[-> _]|(h & _ & Hh)].
           ++ constructor; [split|]; constructor.
           ++ done.
           ++ exfalso. eapply (staticHandler_no_route empty q method h); try done.
              by apply Hh.
    + rewrite lookup_insert_ne by done.
      by rewrite decide_False by (by intros [_ ?]).
Qed.

Lemma addRouteEach_literal (p : str) (handler : HandlerFunc)
    (methods : list string) :
  literal p → head p = Some "/"%char →
  ∀ r, literalRouter r →
    ∃ r', Router.addRouteEach r methods p handler = Ok r' ∧ literalRouter r' ∧
      Router.middleware r' = Router.middleware r ∧
      ∀ m q, ownHandler r' m q
             = if decide (q = p ∧ m ∈ methods) then Ok (Some (handler, ∅))
               else ownHandler r m q.
Proof.
  intros Hlit Hhead. induction methods as [|method methods IH]; intros r Hr.
  - exists r. split; [done|]. split; [done|]. split; [done|]. intros m q.
    rewrite decide_False; [done|]. intros [_ H]. by apply elem_of_nil in H.
  - destruct (Router_literal_update r method p handler Hr Hlit Hhead)
      as (r1 & Hadd & Hr1 & Hmw1 & Hspec1).
    destruct (IH r1 Hr1) as (r' & Hadds & Hr' & Hmw' & Hspec').
    exists r'. cbn [Router.addRouteEach]. rewrite Hadd, bind_Ok.
    split; [done|]. split; [done|]. split; [congruence|]. intros m q.
    rewrite Hspec', Hspec1.
    destruct (decide (q = p ∧ m ∈ methods)) as [[-> Hin]|Hn1].
    + rewrite decide_True; [done|]. split; [done|]. apply elem_of_cons. by right.
    + destruct (decide (q = p ∧ m = method)) as [[-> ->]|Hn2].
      * rewrite decide_True; [done|]. split; [done|]. apply elem_of_cons. by left.
      * rewrite decide_False; [done|].
        intros [-> [->|Hin]%elem_of_cons]; [by apply Hn2|by apply Hn1].
Qed.

(** ** Routes of a group *)

(** X6.  A route registered through a group: [handle] registers the
    closure of the group and the handler at the prefix of the group followed
    by the path and leaves the middleware of the router as it is; the lookup
    of that path finds the closure; and the chain of the router's middleware
    [R] followed by the closure, run by [Next] from the start, runs [R]
    around the middleware [A] the group combines around the handler. *)
Theorem group_route_dispatch (fuel : nat) (r0 : Router.Router)
    (gs : list RouterGroup.RouterGroup) (g : nat) (G : RouterGroup.RouterGroup)
    (method : string) (p : str) (body : list stmt)
    (R A : list (string * string)) :
  literalRouter r0 → Router.middleware r0 = arounds R →
  gs !! g = Some G → RouterGroup.combineMiddleware gs g = Ok (arounds A) →
  literal (RouterGroup.prefix G ++ p) →
  head (RouterGroup.prefix G ++ p) = Some "/"%char →
  Forall isEmit body →
  length body + 5 * (length R + length A) + 9 ≤ fuel →
  ∃ r, handle r0 gs g method p (Func body) = Ok r ∧
       Router.middleware r = arounds R ∧
       ownHandler r method (RouterGroup.prefix G ++ p)
       = Ok (Some (finalHandler g (Func body), ∅)) ∧
       ∃ c, Context.Next fuel gs
              (Context.mk ∅ (-1)
                 (Router.middleware r ++ [finalHandler g (Func body)]) [])
            = Ok c ∧
            emitted (Context.trace c)
            = (fst <$> R) ++ (fst <$> A) ++ (tagOf <$> body)
              ++ reverse (snd <$> A) ++ reverse (snd <$> R).
Proof.
  intros Hr0 Hmw HG Hms Hlit Hhead Hbody Hfuel. unfold handle. rewrite HG.
  destruct (Router_literal_update r0 method (RouterGroup.prefix G ++ p)
              (finalHandler g (Func body)) Hr0 Hlit Hhead)
    as (r & Hadd & _ & Hmw' & Hspec).
  exists r. split; [done|]. split; [congruence|].
  specialize (Hspec method (RouterGroup.prefix G ++ p)).
  rewrite decide_True in Hspec by done. split; [done|].
  rewrite Hmw', Hmw.
  rewrite (Next_arounds_ctx gs ∅ R (finalHandler g (Func body))
             (onionTrace 0 A
                (Context.Invoke (Z.of_nat (length A))
                 :: (Context.Emitted ∘ tagOf <$> body)))
             (length body + 5 * length A + 6));
    [|by intros; apply call_finalHandler_onion|lia].
  eexists. split; [done|]. cbn [Context.trace].
  rewrite emitted_onionTrace.
  change (emitted (Context.Invoke ?i :: ?l)) with (emitted l).
  rewrite emitted_onion_plain by done. by rewrite <- !app_assoc.
Qed.

Lemma group_route_dispatch_witness :
  ∃ r, handle (Router.Use Router.New (arounds [("R>", "R<")])) apiStore 0 "GET"
         (bytes "/x") (Func [Emit "h"]) = Ok r ∧
       Router.middleware r = arounds [("R>", "R<")] ∧
       ownHandler r "GET" (bytes "/api" ++ bytes "/x")
       = Ok (Some (finalHandler 0 (Func [Emit "h"]), ∅)) ∧
       ∃ c, Context.Next 40 apiStore
              (Context.mk ∅ (-1)
                 (Router.middleware r ++ [finalHandler 0 (Func [Emit "h"])]) [])
            = Ok c ∧
            emitted (Context.trace c) = ["R>"; "api>"; "h"; "api<"; "R<"].
Proof.
  apply (group_route_dispatch 40 (Router.Use Router.New (arounds [("R>", "R<")]))
           apiStore 0
           (RouterGroup.mk (bytes "/api") None [around "api>" "api<"] None)
           "GET" (bytes "/x") [Emit "h"] [("R>", "R<")]
           [("api>", "api<")]).
  - apply literalRouter_Use, literalRouter_New.
  - reflexivity.
  - reflexivity.
  - reflexivity.
  - unfold literal. by_compute.
  - reflexivity.
  - repeat constructor.
  - simpl. lia.
Defined.

(** X7.  [Any] on a router of literal routes, for a literal path that
    begins with ['/']: it returns, the path now has the handler under each
    of GET, POST, PUT, DELETE, PATCH, HEAD and OPTIONS, and every other
    lookup is as before. *)
Theorem Any_registers_every_method (r : Router.Router) (p : str)
    (handler : HandlerFunc) :
  literalRouter r → literal p → head p = Some "/"%char →
  ∃ r', Router.Any r p handler = Ok r' ∧ literalRouter r' ∧
    ∀ m q, ownHandler r' m q
           = if decide (q = p ∧
                        m ∈ ["GET"; "POST"; "PUT"; "DELETE"; "PATCH"; "HEAD";
                             "OPTIONS"])
             then Ok (Some (handler, ∅))
             else ownHandler r m q.
Proof.
  intros Hr Hlit Hhead.
  destruct (addRouteEach_literal p handler
              ["GET"; "POST"; "PUT"; "DELETE"; "PATCH"; "HEAD"; "OPTIONS"]
              Hlit Hhead r Hr) as (r' & Hany & Hr' & _ & Hspec).
  by exists r'.
Qed.

Lemma Any_registers_every_method_witness :
  ∃ r', Router.Any Router.New (bytes "/ping") (Func [Emit "pong"]) = Ok r' ∧
    literalRouter r' ∧
    ∀ m q, ownHandler r' m q
           = if decide (q = bytes "/ping" ∧
                        m ∈ ["GET"; "POST"; "PUT"; "DELETE"; "PATCH"; "HEAD";
                             "OPTIONS"])
             then Ok (Some (Func [Emit "pong"], ∅))
             else ownHandler Router.New m q.
Proof.
  apply (Any_registers_every_method Router.New (bytes "/ping")
           (Func [Emit "pong"])).
  - apply literalRouter_New.
  - unfold literal. by_compute.
  - reflexivity.
Defined.

(** X8.  [Router.addRoute] on a router of literal routes, for a literal
    path that begins with ['/']: it returns, the lookup of the registered
    method and path yields the new handler, and the lookup of any other
    method or path is as before. *)
Theorem Router_addRoute_literal (r : Router.Router) (method : string)
    (p : str) (handler : HandlerFunc) :
  literalRouter r → literal p → head p = Some "/"%char →
  ∃ r', Router.addRoute r method p handler = Ok r' ∧ literalRouter r' ∧
    ∀ m q, ownHandler r' m q
           = if decide (q = p ∧ m = method) then Ok (Some (handler, ∅))
             else ownHandler r m q.
Proof.
  intros Hr Hlit Hhead.
  destruct (Router_literal_update r method p handler Hr Hlit Hhead)
    as (r' & Hadd & Hr' & _ & Hspec).
  by exists r'.
Qed.

Lemma Router_addRoute_literal_witness :
  ∃ r', Router.addRoute Router.New "GET" (bytes "/users") (Func [Emit "users"])
        = Ok r' ∧ literalRouter r' ∧
    ∀ m q, ownHandler r' m q
           = if decide (q = bytes "/users" ∧ m = "GET")
             then Ok (Some (Func [Emit "users"], ∅))
             else ownHandler Router.New m q.
Proof.
  apply (Router_addRoute_literal Router.New "GET" (bytes "/users")
           (Func [Emit "users"])).
  - apply literalRouter_New.
  - unfold literal. by_compute.
  - reflexivity.
Defined.

(** ** Joining with a separator *)

Lemma append_assoc (a b c : string) : (a +:+ b) +:+ c = a +:+ b +:+ c.
Proof.
  induction a as [|x a IH]; [done|].
  change (String x ((a +:+ b) +:+ c) = String x (a +:+ b +:+ c)). by f_equal.
Qed.

Lemma joinMethodsFrom_concat (methods : list string) :
  ∀ i acc m,
    Router.joinMethodsFrom (S i) (acc +:+ m) methods
    = acc +:+ String.concat ", " (m :: methods).
Proof.
  induction methods as [|m' methods IH]; intros i acc m; [done|].
  cbn [Router.joinMethodsFrom]. rewrite decide_True by lia.
  rewrite IH. change (String.concat ", " (m :: m' :: methods))
    with (m +:+ ", " +:+ String.concat ", " (m' :: methods)).
  by rewrite !append_assoc.
Qed.

Lemma joinSliceFrom_concat (slice : list string) :
  ∀ i acc s,
    Middleware.joinSliceFrom (S i) (acc +:+ s) slice
    = acc +:+ String.concat ", " (s :: slice).
Proof.
  induction slice as [|s' slice IH]; intros i acc s; [done|].
  cbn [Middleware.joinSliceFrom]. rewrite decide_True by lia.
  rewrite IH. change (String.concat ", " (s :: s' :: slice))
    with (s +:+ ", " +:+ String.concat ", " (s' :: slice)).
  by rewrite !append_assoc.
Qed.

Lemma joinMethods_join (l : list string) :
  Router.joinMethods l = String.concat ", " l ∧
  Middleware.joinSlice l = String.concat ", " l.
Proof.
  destruct l as [|m l]; [done|]. split.
  - apply (joinMethodsFrom_concat l 0 "" m).
  - apply (joinSliceFrom_concat l 0 "" m).
Qed.

(** X9.  [joinMethods] and [joinSlice] join their elements with the
    separator [", "]: no separator before the first element, none after the
    last, the empty string for no element. *)
Theorem joinMethods_concat (l : list string) :
  Router.joinMethods l = String.concat ", " l ∧
  Middleware.joinSlice l = String.concat ", " l.
Proof.
  destruct l as [|m l]; [done|]. split.
  - apply (joinMethodsFrom_concat l 0 "" m).
  - apply (joinSliceFrom_concat l 0 "" m).
Qed.

(** ** Automatic OPTIONS *)

Lemma allowedMethods_filter (r : Router.Router) (p : str) (order : list string) :
  (∀ m, m ∈ order → ∃ v, ownHandler r m p = Ok v) →
  Router.allowedMethods r order p
  = Ok (filter (λ m, hasHandler r p m = true) order).
Proof.
  induction order as [|m order IH]; intros Hret; [done|].
  cbn [Router.allowedMethods].
  rewrite IH by (intros m' Hm'; apply Hret, elem_of_cons; by right).
  destruct (Hret m) as [v Hv]; [apply elem_of_cons; by left|].
  assert (Hh : hasHandler r p m = if v is Some _ then true else false)
    by (unfold hasHandler; by rewrite Hv).
  rewrite filter_cons, Hh. unfold ownHandler in Hv.
  destruct (Router.trees r !! m) as [root|].
  - rewrite Hv. simpl. destruct v as [hp|].
    + by rewrite decide_True.
    + by rewrite decide_False.
  - injection Hv as <-. by rewrite decide_False.
Qed.

Lemma ownHandler_literal_returns (r : Router.Router) (m : string) (p : str) :
  literalRouter r → ∃ v, ownHandler r m p = Ok v.
Proof.
  intros Hr. unfold ownHandler.
  destruct (Router.trees r !! m) as [t|] eqn:Ht; [|by eexists].
  destruct (getValue_literal t p m (proj1 (Hr m t Ht)))
    as [[-> _]|(h & -> & _)]; by eexists.
Qed.

(** X10.  [handleOPTIONS] on a router of literal routes returns: the
    allowed methods are those whose tree has a handler for the path, in the
    order the trees are visited; when there is one, the [Allow] header is
    set to them, joined with [", "], and the status is 204; when there is
    none, no header is set and the status is 404.  When the OPTIONS tree has
    no handler for the path, which is when [ServeHTTP] calls
    [handleOPTIONS], OPTIONS is not among the allowed methods. *)
Theorem handleOPTIONS_allowed_methods (r : Router.Router)
    (order : list string) (p : str) :
  literalRouter r →
  Router.handleOPTIONS r order p
  = Ok (if decide (filter (λ m, hasHandler r p m = true) order = [])
        then (None, 404%Z)
        else (Some (String.concat ", "
                      (filter (λ m, hasHandler r p m = true) order)), 204%Z)) ∧
  (ownHandler r "OPTIONS" p = Ok None →
   "OPTIONS" ∉ filter (λ m, hasHandler r p m = true) order).
Proof.
  intros Hr. split.
  - unfold Router.handleOPTIONS.
    rewrite allowedMethods_filter
      by (intros m _; by apply ownHandler_literal_returns).
    rewrite bind_Ok. rewrite (proj1 (joinMethods_join _)).
    destruct (filter _ order) as [|m l]; [done|].
    rewrite decide_True by (simpl; lia). by rewrite decide_False.
  - intros Hown [Hin _]%list_elem_of_filter. unfold hasHandler in Hin.
    by rewrite Hown in Hin.
Qed.

Lemma handleOPTIONS_allowed_methods_witness :
  ∃ r, Router.addRoute Router.New "GET" (bytes "/x") (Func [Emit "get"]) = Ok r ∧
       Router.handleOPTIONS r ["GET"; "POST"] (bytes "/x")
       = Ok (Some "GET", 204%Z) ∧
       Router.handleOPTIONS r ["GET"; "POST"] (bytes "/y") = Ok (None, 404%Z).
Proof.
  destruct (Router_literal_update Router.New "GET" (bytes "/x")
              (Func [Emit "get"]) literalRouter_New)
    as (r & Hadd & Hr & _ & _); [unfold literal; by_compute|reflexivity|].
  exists r. split; [exact Hadd|].
  vm_compute in Hadd. injection Hadd as <-. split.
  - exact (proj1 (handleOPTIONS_allowed_methods _ ["GET"; "POST"] (bytes "/x") Hr)).
  - exact (proj1 (handleOPTIONS_allowed_methods _ ["GET"; "POST"] (bytes "/y") Hr)).
Defined.

(** ** The address of the client *)

Lemma Index_None (s : str) (sep : ascii) : sep ∉ s → Context.Index s sep = None.
Proof.
  induction s as [|x s IH]; [done|]. intros [Hx Hs]%not_elem_of_cons. simpl.
  rewrite decide_False by done. by rewrite IH.
Qed.

Lemma Index_app (a b : str) (sep : ascii) :
  sep ∉ a → Context.Index (a ++ sep :: b) sep = Some (length a).
Proof.
  induction a as [|x a IH]; simpl.
  - intros _. by rewrite decide_True.
  - intros [Hx Ha]%not_elem_of_cons. rewrite decide_False by done.
    by rewrite IH.
Qed.

Lemma LastIndex_None (s : str) (sep : ascii) :
  sep ∉ s → Context.LastIndex s sep = None.
Proof.
  induction s as [|x s IH]; [done|]. intros [Hx Hs]%not_elem_of_cons. simpl.
  rewrite IH by done. by rewrite decide_False.
Qed.

Lemma LastIndex_app (a b : str) (sep : ascii) :
  sep ∉ b → Context.LastIndex (a ++ sep :: b) sep = Some (length a).
Proof.
  intros Hb. induction a as [|x a IH]; simpl.
  - rewrite LastIndex_None by done. by rewrite decide_True.
  - by rewrite IH.
Qed.

(** X11.  [ClientIP]: the first entry of [X-Forwarded-For] with the
    surrounding space trimmed when the header has a comma, the whole header
    untrimmed when it has none; otherwise [X-Real-IP]; otherwise
    [RemoteAddr] up to its last colon, and all of it when it has no
    colon. *)
Theorem ClientIP_sources (TrimSpace : str → str) (req : Request.Request) :
  (∀ first more,
     Context.Header req "X-Forwarded-For" = first ++ ","%char :: more →
     ","%char ∉ first →
     Context.ClientIP TrimSpace req = TrimSpace first) ∧
  (∀ ip,
     Context.Header req "X-Forwarded-For" = ip → ip ≠ [] → ","%char ∉ ip →
     Context.ClientIP TrimSpace req = ip) ∧
  (∀ ip,
     Context.Header req "X-Forwarded-For" = [] →
     Context.Header req "X-Real-IP" = ip → ip ≠ [] →
     Context.ClientIP TrimSpace req = ip) ∧
  (∀ host port,
     Context.Header req "X-Forwarded-For" = [] →
     Context.Header req "X-Real-IP" = [] →
     Request.RemoteAddr req = host ++ ":"%char :: port → ":"%char ∉ port →
     Context.ClientIP TrimSpace req = host) ∧
  (Context.Header req "X-Forwarded-For" = [] →
   Context.Header req "X-Real-IP" = [] →
   ":"%char ∉ Request.RemoteAddr req →
   Context.ClientIP TrimSpace req = Request.RemoteAddr req).
Proof.
  unfold Context.ClientIP. repeat split.
  - intros first more -> Hfirst.
    rewrite decide_True by (by destruct first).
    by rewrite Index_app, take_app_length by done.
  - intros ip -> Hip Hcomma. rewrite decide_True by done.
    by rewrite Index_None.
  - intros ip -> <- Hip. rewrite decide_False by (by intros H; apply H).
    by rewrite decide_True.
  - intros host port -> -> -> Hport.
    rewrite !(decide_False (P := [] ≠ [])) by (by intros H; apply H).
    by rewrite LastIndex_app, take_app_length by done.
  - intros -> -> Hno.
    rewrite !(decide_False (P := [] ≠ [])) by (by intros H; apply H).
    by rewrite LastIndex_None.
Qed.

Lemma ClientIP_sources_witness :
  Context.ClientIP (λ s, s)
    (Request.mk "GET" {[ "X-Forwarded-For" := bytes "10.0.0.1,10.0.0.2" ]}
       (bytes "127.0.0.1:8080") None)
  = bytes "10.0.0.1" ∧
  Context.ClientIP (λ s, s)
    (Request.mk "GET" ∅ (bytes "127.0.0.1:8080") None)
  = bytes "127.0.0.1".
Proof.
  split.
  - apply (proj1 (ClientIP_sources (λ s, s)
                    (Request.mk "GET"
                       {[ "X-Forwarded-For" := bytes "10.0.0.1,10.0.0.2" ]}
                       (bytes "127.0.0.1:8080") None))
             (bytes "10.0.0.1") (bytes "10.0.0.2")).
    + vm_compute. reflexivity.
    + by_compute.
  - apply (proj1 (proj2 (proj2 (proj2 (ClientIP_sources (λ s, s)
                    (Request.mk "GET" ∅ (bytes "127.0.0.1:8080") None)))))
             (bytes "127.0.0.1") (bytes "8080")).
    + reflexivity.
    + reflexivity.
    + reflexivity.
    + by_compute.
Defined.

(** ** Middleware in the chain *)

(** A handler that only calls [c.Next()], in front of plain handlers. *)
Lemma nextLoop_pass_through (M : nat) (gs : list RouterGroup.RouterGroup)
    (ps : gmap str str) (done rest : list HandlerFunc)
    (tr : list Context.event) (fuel : nat) :
  Forall plainHandler rest →
  Forall (λ h, length (bodyOf h) ≤ M) rest →
  length rest + M + 6 ≤ fuel →
  Context.nextLoop fuel gs
    (Context.mk ps (Z.of_nat (length done)) (done ++ Func [CallNext] :: rest) tr)
  = Ok (Context.mk ps
          (Z.of_nat (length (done ++ Func [CallNext] :: rest)) + 1)
          (done ++ Func [CallNext] :: rest)
          (tr ++ Context.Invoke (Z.of_nat (length done))
              :: plainTrace (S (length done)) rest)).
Proof.
  intros Hplain HM Hfuel.
  destruct fuel as [|[|[|[|fuel]]]]; try lia.
  rewrite (nextLoop_call _ gs _ (length done) (Func [CallNext]));
    [|done|by apply list_lookup_middle].
  cbn [Context.call Context.exec]. rewrite Next_S.
  pose proof (nextLoop_plain_chain M gs ps rest Hplain HM
                (done ++ [Func [CallNext]]) fuel
                (tr ++ [Context.Invoke (Z.of_nat (length done))])) as Hrun.
  rewrite <- !app_assoc in Hrun. cbn [app] in Hrun.
  rewrite length_app in Hrun. cbn [length] in Hrun.
  rewrite Nat.add_1_r in Hrun.
  unfold Context.set_index, Context.log. cbn [Context.index Context.Params
    Context.handlers Context.trace].
  replace (Z.of_nat (length done) + 1)%Z with (Z.of_nat (S (length done))) by lia.
  rewrite Hrun by lia. rewrite !bind_Ok.
  rewrite nextLoop_done; [done|]. simpl. lia.
Qed.

(** X12.  [BasicAuth] in a chain.  On a request without credentials or
    with other credentials than the configured ones, it sets
    [WWW-Authenticate], aborts and writes the 401 body, and no later handler
    is called; on a request with the configured credentials it writes
    nothing and the rest of the chain runs. *)
Theorem BasicAuth_guards_the_chain (M : nat)
    (gs : list RouterGroup.RouterGroup) (ps : gmap str str)
    (done rest : list HandlerFunc) (username password : str)
    (req : Request.Request) (tr : list Context.event) (fuel : nat) :
  length rest + M + 9 ≤ fuel →
  (Request.BasicAuth req ≠ Some (username, password) →
   Context.nextLoop fuel gs
     (Context.mk ps (Z.of_nat (length done))
        (done ++ Middleware.BasicAuth username password req :: rest) tr)
   = Ok (Context.mk ps
           (Z.of_nat (length (done ++ Middleware.BasicAuth username password req
                                   :: rest)) + 1)
           (done ++ Middleware.BasicAuth username password req :: rest)
           (tr ++ Context.Invoke (Z.of_nat (length done))
               :: (Context.Emitted ∘ tagOf <$>
                     Middleware.SetHeader "WWW-Authenticate"
                       ("Basic realm=" +:+ Middleware.quote +:+ "Restricted"
                        +:+ Middleware.quote)
                     :: Middleware.JSON "401" "error: Unauthorized")))) ∧
  (Request.BasicAuth req = Some (username, password) →
   Forall plainHandler rest →
   Forall (λ h, length (bodyOf h) ≤ M) rest →
   Context.nextLoop fuel gs
     (Context.mk ps (Z.of_nat (length done))
        (done ++ Middleware.BasicAuth username password req :: rest) tr)
   = Ok (Context.mk ps
           (Z.of_nat (length (done ++ Middleware.BasicAuth username password req
                                   :: rest)) + 1)
           (done ++ Middleware.BasicAuth username password req :: rest)
           (tr ++ Context.Invoke (Z.of_nat (length done))
               :: plainTrace (S (length done)) rest))).
Proof.
  intros Hfuel. split.
  - intros Hbad.
    assert (Middleware.BasicAuth username password req
            = Func ([Middleware.SetHeader "WWW-Authenticate"
                       ("Basic realm=" +:+ Middleware.quote +:+ "Restricted"
                        +:+ Middleware.quote)]
                    ++ CallAbort :: Middleware.JSON "401" "error: Unauthorized"))
      as ->.
    { unfold Middleware.BasicAuth.
      destruct (Request.BasicAuth req) as [[user pass]|].
      - rewrite decide_True; [done|].
        destruct (decide (user = username)) as [->|]; [|by right; left].
        destruct (decide (pass = password)) as [->|]; [done|by right; right].
      - by rewrite decide_True by (by left). }
    rewrite nextLoop_abort; [done| | |simpl; lia];
      repeat constructor.
  - intros Hgood Hplain HM.
    assert (Middleware.BasicAuth username password req = Func [CallNext]) as ->.
    { unfold Middleware.BasicAuth. rewrite Hgood.
      by rewrite decide_False by (by intros [?|[?|?]]). }
    apply (nextLoop_pass_through M); try done. lia.
Qed.

Lemma BasicAuth_guards_the_chain_witness :
  let req := Request.mk "GET" ∅ (bytes "127.0.0.1:8080")
               (Some (bytes "admin", bytes "guess")) in
  let auth := Middleware.BasicAuth (bytes "admin") (bytes "secret") req in
  Context.nextLoop 11 [] (Context.mk ∅ 0 ([] ++ auth :: [Func [Emit "h"]]) [])
  = Ok (Context.mk ∅ (Z.of_nat (length ([] ++ auth :: [Func [Emit "h"]])) + 1)
          ([] ++ auth :: [Func [Emit "h"]])
          ([] ++ Context.Invoke 0
              :: (Context.Emitted ∘ tagOf <$>
                    Middleware.SetHeader "WWW-Authenticate"
                      ("Basic realm=" +:+ Middleware.quote +:+ "Restricted"
                       +:+ Middleware.quote)
                    :: Middleware.JSON "401" "error: Unauthorized"))).
Proof.
  intros req auth.
  apply (proj1 (BasicAuth_guards_the_chain 1 [] ∅ [] [Func [Emit "h"]]
                  (bytes "admin") (bytes "secret") req [] 11 ltac:(simpl; lia))).
  discriminate.
Defined.

Lemma CORS_allowed (allowOrigins : list str) (origin : str) :
  existsb (λ allowOrigin,
             bool_decide (allowOrigin = bytes "*" ∨ allowOrigin = origin))
    allowOrigins = true
  ↔ bytes "*" ∈ allowOrigins ∨ origin ∈ allowOrigins.
Proof.
  rewrite existsb_exists. split.
  - intros (a & Hin%list_elem_of_In & Ha%bool_decide_eq_true).
    destruct Ha as [->| ->]; [by left|by right].
  - intros [Hin|Hin]; eexists; (split; [by apply list_elem_of_In|]);
      apply bool_decide_eq_true; [by left|by right].
Qed.

(** X13.  The headers of [CORS].  When the list of allowed origins has
    neither ["*"] nor the origin of the request, no header is set.  When it
    has one of them, the four CORS headers are set, and the allowed origin
    is ["*"] only for the list that is exactly ["*"]: in every other case,
    a list that holds ["*"] among others included, the origin of the request
    is echoed. *)
Theorem CORS_policy (allowOrigins : list str) (allowMethods allowHeaders : list string)
    (req : Request.Request) :
  let tail := if decide (Request.Method req = "OPTIONS")
              then Middleware.AbortWithStatus "204" else [CallNext] in
  (bytes "*" ∉ allowOrigins → Context.Header req "Origin" ∉ allowOrigins →
   Middleware.CORS allowOrigins allowMethods allowHeaders req = Func tail) ∧
  (bytes "*" ∈ allowOrigins ∨ Context.Header req "Origin" ∈ allowOrigins →
   Middleware.CORS allowOrigins allowMethods allowHeaders req
   = Func ([Middleware.SetHeader "Access-Control-Allow-Origin"
              (if decide (allowOrigins = [bytes "*"]) then "*"
               else string_of_list_ascii (Context.Header req "Origin"));
            Middleware.SetHeader "Access-Control-Allow-Methods"
              (String.concat ", " allowMethods);
            Middleware.SetHeader "Access-Control-Allow-Headers"
              (String.concat ", " allowHeaders);
            Middleware.SetHeader "Access-Control-Allow-Credentials" "true"]
           ++ tail)).
Proof.
  intros tail. unfold Middleware.CORS. split.
  - intros Hstar Horigin.
    destruct (existsb _ allowOrigins) eqn:Hex; [|done].
    apply CORS_allowed in Hex as [?|?]; done.
  - intros Hallowed. apply CORS_allowed in Hallowed. rewrite Hallowed.
    rewrite !(proj2 (joinMethods_join _)).
    assert (Hone : length allowOrigins = 1 ∧ allowOrigins !! 0 = Some (bytes "*")
                   ↔ allowOrigins = [bytes "*"]).
    { split; [|by intros ->].
      destruct allowOrigins as [|a [|b l]]; intros [Hlen Ha]; try done.
      simpl in Ha. by injection Ha as ->. }
    destruct (decide (allowOrigins = [bytes "*"])) as [Heq|Hne].
    + by rewrite decide_True by (by apply Hone).
    + by rewrite decide_False by (by rewrite Hone).
Qed.

Lemma CORS_policy_witness :
  Middleware.CORS [bytes "https://a.example"] ["GET"; "POST"] ["Content-Type"]
    (Request.mk "GET" {[ "Origin" := bytes "https://b.example" ]}
       (bytes "127.0.0.1:8080") None)
  = Func [CallNext].
Proof.
  apply (proj1 (CORS_policy [bytes "https://a.example"] ["GET"; "POST"]
                  ["Content-Type"]
                  (Request.mk "GET" {[ "Origin" := bytes "https://b.example" ]}
                     (bytes "127.0.0.1:8080") None))).
  - by_compute.
  - by_compute.
Defined.

(** X14.  [CORS] answers a preflight request itself: when the method
    of the request is OPTIONS it writes status 204 after its headers and
    aborts, for an allowed origin or not, and no later handler is called. *)
Theorem CORS_preflight_stops_the_chain (gs : list RouterGroup.RouterGroup)
    (ps : gmap str str) (done rest : list HandlerFunc)
    (allowOrigins : list str) (allowMethods allowHeaders : list string)
    (req : Request.Request) (tr : list Context.event) (fuel : nat) :
  Request.Method req = "OPTIONS" → 10 ≤ fuel →
  ∃ headers,
    Forall isEmit headers ∧
    Middleware.CORS allowOrigins allowMethods allowHeaders req
    = Func (headers ++ Middleware.AbortWithStatus "204") ∧
    Context.nextLoop fuel gs
      (Context.mk ps (Z.of_nat (length done))
         (done ++ Middleware.CORS allowOrigins allowMethods allowHeaders req
               :: rest) tr)
    = Ok (Context.mk ps
            (Z.of_nat (length (done ++ Middleware.CORS allowOrigins allowMethods
                                         allowHeaders req :: rest)) + 1)
            (done ++ Middleware.CORS allowOrigins allowMethods allowHeaders req
                  :: rest)
            (tr ++ Context.Invoke (Z.of_nat (length done))
                :: (Context.Emitted ∘ tagOf <$>
                      headers ++ [Middleware.Status "204"]))).
Proof.
  intros Hm Hfuel.
  assert (∃ headers, Forall isEmit headers ∧ length headers ≤ 4 ∧
            Middleware.CORS allowOrigins allowMethods allowHeaders req
            = Func (headers ++ Middleware.AbortWithStatus "204"))
    as (headers & Hemit & Hlen & Hcors).
  { unfold Middleware.CORS.
    rewrite (decide_True (P := Request.Method req = "OPTIONS")) by done.
    destruct (existsb _ allowOrigins).
    - eexists. split; [|split; [|reflexivity]]; [repeat constructor|simpl; lia].
    - exists []. split; [constructor|]. split; [simpl; lia|done]. }
  exists headers. split; [done|]. split; [done|]. rewrite Hcors.
  unfold Middleware.AbortWithStatus.
  replace (headers ++ [Middleware.Status "204"; CallAbort])
    with ((headers ++ [Middleware.Status "204"]) ++ CallAbort :: [])
    by (by rewrite <- app_assoc).
  rewrite nextLoop_abort.
  - by rewrite app_nil_r.
  - apply Forall_app. split; [done|]. repeat constructor.
  - constructor.
  - rewrite length_app. simpl. lia.
Qed.

Lemma CORS_preflight_stops_the_chain_witness :
  let req := Request.mk "OPTIONS" {[ "Origin" := bytes "https://b.example" ]}
               (bytes "127.0.0.1:8080") None in
  let cors := Middleware.CORS [bytes "https://a.example"] ["GET"] [] req in
  ∃ headers,
    Forall isEmit headers ∧
    cors = Func (headers ++ Middleware.AbortWithStatus "204") ∧
    Context.nextLoop 10 [] (Context.mk ∅ 0 ([] ++ cors :: [Func [Emit "h"]]) [])
    = Ok (Context.mk ∅ (Z.of_nat (length ([] ++ cors :: [Func [Emit "h"]])) + 1)
            ([] ++ cors :: [Func [Emit "h"]])
            ([] ++ Context.Invoke 0
                :: (Context.Emitted ∘ tagOf <$>
                      headers ++ [Middleware.Status "204"]))).
Proof.
  intros req cors.
  apply (CORS_preflight_stops_the_chain [] ∅ [] [Func [Emit "h"]]
           [bytes "https://a.example"] ["GET"] [] req [] 10).
  - reflexivity.
  - lia.
Defined.

(** ** Registration through the router *)

(** X15.  A successful [Router.addRoute] was given a path that begins
    with ['/'], leaves the middleware of the router alone, and changes no
    lookup under another method, whatever the path registered. *)
Theorem Router_addRoute_other_methods (r r' : Router.Router)
    (method : string) (p : str) (handler : HandlerFunc) :
  Router.addRoute r method p handler = Ok r' →
  head p = Some "/"%char ∧
  Router.middleware r' = Router.middleware r ∧
  ∀ m q, m ≠ method → ownHandler r' m q = ownHandler r m q.
Proof.
  unfold Router.addRoute. destruct p as [|c p]; [done|].
  destruct (decide (c ≠ "/"%char)) as [|Hc]; [done|].
  intros (t & _ & [= <-])%bind_Ok_inv.
  split; [|split; [done|]].
  - simpl. f_equal. by destruct (decide (c = "/"%char)).
  - intros m q Hm. unfold ownHandler. simpl.
    by rewrite lookup_insert_ne.
Qed.

Lemma Router_addRoute_other_methods_witness :
  let r' := unwrap Router.New
              (Router.addRoute Router.New "GET" (bytes "/x") (Func [Emit "h"])) in
  head (bytes "/x") = Some "/"%char ∧
  Router.middleware r' = Router.middleware Router.New ∧
  ∀ m q, m ≠ "GET" → ownHandler r' m q = ownHandler Router.New m q.
Proof.
  apply (Router_addRoute_other_methods Router.New _ "GET" (bytes "/x")
           (Func [Emit "h"])).
  vm_compute. reflexivity.
Defined.

(** ** The group store *)

(** X16.  A nested group: [g.Group] allocates a group whose prefix is
    the concatenation of the prefixes, whose parent is [g] and whose own
    middleware is what [g] combines followed by the new middleware; so
    [combineMiddleware] of the new group yields what [g] combines twice,
    then the new middleware. *)
Theorem Group_doubles_parent_middleware (gs : list RouterGroup.RouterGroup)
    (g : nat) (G : RouterGroup.RouterGroup) (prefix : str)
    (mws ms : list HandlerFunc) :
  gs !! g = Some G →
  RouterGroup.combineMiddleware gs g = Ok ms →
  RouterGroup.Group gs g prefix mws
  = Ok (gs ++ [RouterGroup.mk (RouterGroup.prefix G ++ prefix) (Some g)
                 (ms ++ mws) None], length gs) ∧
  RouterGroup.combineMiddleware
    (gs ++ [RouterGroup.mk (RouterGroup.prefix G ++ prefix) (Some g) (ms ++ mws)
              None])
    (length gs)
  = Ok (ms ++ ms ++ mws).
Proof.
  intros HG Hms.
  destruct (Group_combines_parent_twice gs g prefix mws ms Hms)
    as (gs' & g' & Hgroup & Hcomb).
  unfold RouterGroup.Group in *. rewrite HG, Hms in *.
  injection Hgroup as <- <-. by split.
Qed.

Lemma Group_doubles_parent_middleware_witness :
  RouterGroup.Group apiStore 0 (bytes "/v1") [around "v1>" "v1<"]
  = Ok (apiStore ++ [RouterGroup.mk (bytes "/api" ++ bytes "/v1") (Some 0)
                       ([around "api>" "api<"] ++ [around "v1>" "v1<"]) None], 1) ∧
  RouterGroup.combineMiddleware
    (apiStore ++ [RouterGroup.mk (bytes "/api" ++ bytes "/v1") (Some 0)
                    ([around "api>" "api<"] ++ [around "v1>" "v1<"]) None]) 1
  = Ok ([around "api>" "api<"] ++ [around "api>" "api<"] ++ [around "v1>" "v1<"]).
Proof.
  apply (Group_doubles_parent_middleware apiStore 0
           (RouterGroup.mk (bytes "/api") None [around "api>" "api<"] None)
           (bytes "/v1") [around "v1>" "v1<"] [around "api>" "api<"]).
  - reflexivity.
  - reflexivity.
Defined.

(** X17.  [Use] on a group whose slice lies over an array of its own, as
    the slice of every nested group does and that of a group made with
    listed middleware, changes what its own chain of descendants combines
    only: for a group that has the group neither as itself nor among its
    ancestors, [combineMiddleware] is the same before and after. *)
Theorem Use_leaves_other_groups (gs gs' : list RouterGroup.RouterGroup)
    (a g : nat) (A : RouterGroup.RouterGroup) (late : list HandlerFunc) :
  gs !! a = Some A → RouterGroup.backing A = None →
  RouterGroup.Use gs a late = Ok gs' →
  ¬ onChain gs g a →
  RouterGroup.combineMiddleware gs' g = RouterGroup.combineMiddleware gs g.
Proof.
  intros HA Hown Huse Hoff. unfold RouterGroup.combineMiddleware.
  rewrite (Use_length _ _ _ _ Huse).
  by apply (combineMiddlewareFrom_off_chain gs gs' a late Huse A).
Qed.

Lemma Use_leaves_other_groups_witness :
  RouterGroup.combineMiddleware
    (unwrap [] (RouterGroup.Use nestedStore 1 [around "late>" "late<"])) 0
  = RouterGroup.combineMiddleware nestedStore 0.
Proof.
  apply (Use_leaves_other_groups nestedStore _ 1 0
           (RouterGroup.mk (bytes "/api" ++ bytes "/v1") (Some 0)
              ([around "api>" "api<"] ++ [around "v1>" "v1<"]) None)
           [around "late>" "late<"]).
  - reflexivity.
  - reflexivity.
  - reflexivity.
  - intros H. inversion H as [g G HG|g G p a HG Hp Hchain]; subst.
    vm_compute in HG. injection HG as <-. discriminate Hp.
Defined.

(** X27.  [Use] on groups whose slices share an array.  With
    [ms := make([]HandlerFunc, 1, 2)], [a := router.Group("/a", ms...)] and
    [b := router.Group("/b", ms...)], [a.Use(x)] appends in place and [a]
    combines [m, x]; [b.Use(y)] then appends in place as well, at the same
    position of the array: [a], which is neither [b] nor a descendant of
    it, combines [m, y] afterwards, and [x] runs for no route. *)
Theorem Use_shared_slice_overwrites :
  ∃ gs1 gs2,
    RouterGroup.Use sharedStore 0 [around "x>" "x<"] = Ok gs1 ∧
    RouterGroup.combineMiddleware gs1 0
    = Ok [around "m>" "m<"; around "x>" "x<"] ∧
    RouterGroup.combineMiddleware gs1 1 = Ok [around "m>" "m<"] ∧
    ¬ onChain gs1 0 1 ∧
    RouterGroup.Use gs1 1 [around "y>" "y<"] = Ok gs2 ∧
    RouterGroup.combineMiddleware gs2 0
    = Ok [around "m>" "m<"; around "y>" "y<"] ∧
    RouterGroup.combineMiddleware gs2 1
    = Ok [around "m>" "m<"; around "y>" "y<"].
Proof.
  eexists _, _. split; [reflexivity|]. split; [reflexivity|].
  split; [reflexivity|]. split.
  - intros H. inversion H as [g G HG|g G p a HG Hp Hchain]; subst.
    vm_compute in HG. injection HG as <-. discriminate Hp.
  - split; [reflexivity|]. split; reflexivity.
Qed.

(** ** The helpers of the tree *)

(** X18.  [longestCommonPrefix] returns a length within both strings
    up to which they agree, and at which, when both go on, they differ. *)
Theorem longestCommonPrefix_spec (a b : str) :
  longestCommonPrefix a b ≤ length a ∧
  longestCommonPrefix a b ≤ length b ∧
  take (longestCommonPrefix a b) a = take (longestCommonPrefix a b) b ∧
  (longestCommonPrefix a b < length a → longestCommonPrefix a b < length b →
   a !! longestCommonPrefix a b ≠ b !! longestCommonPrefix a b).
Proof.
  split; [apply longestCommonPrefix_le_l|].
  split; [apply longestCommonPrefix_le_r|].
  split; [apply longestCommonPrefix_take|apply longestCommonPrefix_differ].
Qed.

(** X19.  [findWildcard].  A path without [':'] and ['*'] has no
    wildcard (index -1).  Otherwise the wildcard found is the first one: it
    starts at the first [':'] or ['*'], runs to the next ['/'] or to the end
    of the path, and is valid exactly when it holds no further [':'] or
    ['*']. *)
Theorem findWildcard_spec :
  (∀ p, literal p → findWildcard p = ([], (-1)%Z, false)) ∧
  (∀ pre c seg post,
     literal pre → isWild c = true → "/"%char ∉ seg →
     post = [] ∨ head post = Some "/"%char →
     findWildcard (pre ++ c :: seg ++ post)
     = (c :: seg, Z.of_nat (length pre), bool_decide (literal seg))).
Proof.
  split.
  - intros p Hp. by apply findWildcardFrom_literal.
  - intros pre c seg post Hpre Hc Hseg Hpost.
    by apply (findWildcardFrom_wildcard pre seg post c 0).
Qed.

Lemma findWildcard_spec_witness :
  findWildcard (bytes "/users/list") = ([], (-1)%Z, false) ∧
  findWildcard (bytes "/users/" ++ ":"%char :: bytes "id" ++ bytes "/posts")
  = (":"%char :: bytes "id", 7%Z, true).
Proof.
  destruct findWildcard_spec as [Hliteral Hwild]. split.
  - apply Hliteral. unfold literal. by_compute.
  - apply (Hwild (bytes "/users/") ":"%char (bytes "id") (bytes "/posts")).
    + unfold literal. by_compute.
    + reflexivity.
    + by_compute.
    + right. reflexivity.
Defined.

(** X20.  [incrementChildPrio] keeps [indices] in step with the
    children: the child whose counter it incremented is at the position it
    returns, the byte of that child selects it, and every other byte selects
    the child it selected before. *)
Theorem incrementChildPrio_keeps_selection (n n' : node) (pos k : nat)
    (c0 : ascii) (child : node) :
  length (indices n) = length (children n) →
  indexByte c0 (indices n) = Some pos →
  children n !! pos = Some child →
  incrementChildPrio n pos = Ok (n', k) →
  k ≤ pos ∧ children n' !! k = Some (bumped child) ∧
  ∀ c, childAt n' c = if decide (c = c0) then Some (bumped child)
                      else childAt n c.
Proof.
  intros Hlen Hidx Hchild Hinc.
  pose proof Hidx as Hlt%indexByte_lookup%lookup_lt_Some.
  pose proof (incrementChildPrio_indices _ _ _ _ Hinc Hlt) as Hi.
  apply incrementChildPrio_inv in Hinc as (c & Hc & Hle & Hch & _).
  assert (c = child) as -> by congruence.
  split; [done|]. split.
  - rewrite Hch, rot_lookup by (rewrite length_insert; lia).
    rewrite decide_False by lia. rewrite decide_True by done.
    apply list_lookup_insert_eq. lia.
  - apply (childAt_descend n n' (bumped child) (bumped child) c0 pos k); try done.
    rewrite Hch. symmetry. apply list_insert_id.
    rewrite rot_lookup by (rewrite length_insert; lia).
    rewrite decide_False by lia. rewrite decide_True by done.
    apply list_lookup_insert_eq. lia.
Qed.

Lemma incrementChildPrio_keeps_selection_witness :
  let n := treeOf [("GET", bytes "/a", Func [Emit "a"]);
                   ("GET", bytes "/b", Func [Emit "b"])] in
  let child := default empty (children n !! 1) in
  let n' := (unwrap (n, 1) (incrementChildPrio n 1)).1 in
  0 ≤ 1 ∧ children n' !! 0 = Some (bumped child) ∧
  ∀ c, childAt n' c = if decide (c = "b"%char) then Some (bumped child)
                      else childAt n c.
Proof.
  intros n child n'.
  apply (incrementChildPrio_keeps_selection n n' 1 0 "b"%char child).
  - reflexivity.
  - reflexivity.
  - reflexivity.
  - vm_compute. reflexivity.
Defined.

Lemma addRoute_fresh (p : str) (method : string) (handler : HandlerFunc) :
  addRoute empty p method handler
  = (n ← insertChild (bumped empty) p method handler; Ok (set_nType n root)).
Proof. unfold addRoute. by rewrite decide_True. Qed.

(** X21.  Wildcard names, on a fresh tree: a wildcard that stops at
    once (at the end of the path or at a ['/']) is refused as unnamed, and a
    segment with a second [':'] or ['*'] is refused as two wildcards in one
    segment. *)
Theorem addRoute_wildcard_name_errors (pre seg post : str) (c : ascii)
    (method : string) (handler : HandlerFunc) :
  literal pre → isWild c = true → post = [] ∨ head post = Some "/"%char →
  addRoute empty (pre ++ c :: post) method handler
  = Panic "wildcards must be named with a non-empty name" ∧
  ("/"%char ∉ seg → ¬ literal seg →
   addRoute empty (pre ++ c :: seg ++ post) method handler
   = Panic "only one wildcard per path segment is allowed").
Proof.
  intros Hpre Hc Hpost. rewrite !addRoute_fresh. split.
  - by rewrite insertChild_unnamed_wildcard.
  - intros Hseg Hnl. by rewrite insertChild_two_wildcards.
Qed.

Lemma addRoute_wildcard_name_errors_witness :
  addRoute empty (bytes "/users/" ++ ":"%char :: bytes "/posts") "GET"
    (Func [Emit "h"])
  = Panic "wildcards must be named with a non-empty name" ∧
  addRoute empty (bytes "/users/" ++ ":"%char :: bytes "a*b" ++ bytes "/posts")
    "GET" (Func [Emit "h"])
  = Panic "only one wildcard per path segment is allowed".
Proof.
  destruct (addRoute_wildcard_name_errors (bytes "/users/") (bytes "a*b")
              (bytes "/posts") ":"%char "GET" (Func [Emit "h"]))
    as [Hunnamed Htwo].
  - unfold literal. by_compute.
  - reflexivity.
  - right. reflexivity.
  - split; [exact Hunnamed|]. apply Htwo.
    + by_compute.
    + unfold literal. by_compute.
Defined.

(** X22.  Catch-all placement, on a fresh tree: a catch-all followed
    by a further segment is refused; one that follows a byte other than
    ['/'] is refused with "no / before catch-all"; and one at the very start
    of the path is a runtime index error, the code reading [path[-1]]. *)
Theorem addRoute_catchAll_errors (pre name : str) (method : string)
    (handler : HandlerFunc) :
  literal pre → wildcardName name →
  (∀ rest,
     addRoute empty (pre ++ "*"%char :: name ++ "/"%char :: rest) method handler
     = Panic "catch-all routes are only allowed at the end of the path") ∧
  (∀ x, isWild x = false → x ≠ "/"%char →
     addRoute empty (pre ++ x :: "*"%char :: name) method handler
     = Panic "no / before catch-all") ∧
  addRoute empty ("*"%char :: name) method handler
  = Panic "runtime error: index out of range [-1]".
Proof.
  intros Hpre Hname. split; [|split].
  - intros rest. rewrite addRoute_fresh.
    by rewrite insertChild_catchAll_not_last.
  - intros x Hx Hxs. rewrite addRoute_fresh.
    by rewrite insertChild_catchAll_no_slash.
  - rewrite addRoute_fresh. by rewrite insertChild_catchAll_at_start.
Qed.

Lemma addRoute_catchAll_errors_witness :
  (∀ rest,
     addRoute empty (bytes "/files/" ++ "*"%char :: bytes "path"
                     ++ "/"%char :: rest) "GET" (Func [Emit "h"])
     = Panic "catch-all routes are only allowed at the end of the path") ∧
  addRoute empty (bytes "/files/" ++ "x"%char :: "*"%char :: bytes "path") "GET"
    (Func [Emit "h"])
  = Panic "no / before catch-all" ∧
  addRoute empty ("*"%char :: bytes "path") "GET" (Func [Emit "h"])
  = Panic "runtime error: index out of range [-1]".
Proof.
  destruct (addRoute_catchAll_errors (bytes "/files/") (bytes "path") "GET"
              (Func [Emit "h"])) as (Hlast & Hslash & Hstart).
  - unfold literal. by_compute.
  - unfold wildcardName. by_compute.
  - split; [exact Hlast|]. split; [|exact Hstart].
    apply Hslash; [reflexivity|discriminate].
Defined.

Lemma addRoute_insertChild_here (n : node) (c : ascii) (rest : str)
    (method : string) (handler : HandlerFunc) :
  path n ≠ [] ∨ children n ≠ [] →
  isWild c = true → indexByte c (indices n) = None →
  addRoute n (path n ++ c :: rest) method handler
  = insertChild (bumped n) (c :: rest) method handler.
Proof.
  intros Hne Hc Hidx. unfold addRoute. fold (bumped n).
  rewrite decide_False.
  2:{ intros [Hp Hcs]. destruct n as [pa ? ? ? ? cs ? ?]. simpl in *.
      destruct Hne as [Hne|Hne]; [by destruct pa|by destruct cs]. }
  pose proof (height_pos (bumped n)) as Hh.
  destruct (height (bumped n)) as [|fuel]; [lia|].
  cbn [addRouteWalk].
  change (path (bumped n)) with (path n).
  rewrite longestCommonPrefix_app.
  rewrite !(decide_False (P := length (path n) < length (path n))) by lia.
  rewrite decide_True by (rewrite length_app; simpl; lia).
  change (indices (bumped n)) with (indices n).
  by rewrite drop_app_length, Hidx, Hc.
Qed.

(** X23.  A catch-all appended, without a ['/'], to the full path of a
    leaf of the tree: [addRoute] hands the remaining path, which starts with
    ['*'], to [insertChild], which reads [path[-1]]: a runtime index error
    instead of "no / before catch-all". *)
Theorem addRoute_catchAll_after_route (n : node) (name : str)
    (method : string) (handler : HandlerFunc) :
  path n ≠ [] → last (path n) ≠ Some "/"%char → children n = [] →
  indexByte "*"%char (indices n) = None → wildcardName name →
  addRoute n (path n ++ "*"%char :: name) method handler
  = Panic "runtime error: index out of range [-1]".
Proof.
  intros Hp Hlast Hcs Hidx Hname.
  rewrite addRoute_insertChild_here by (done || by left).
  apply insertChild_catchAll_at_start; try done; by destruct n.
Qed.

Lemma addRoute_catchAll_after_route_witness :
  let n := treeOf [("GET", bytes "/a", Func [Emit "a"])] in
  addRoute n (path n ++ "*"%char :: bytes "x") "GET" (Func [Emit "x"])
  = Panic "runtime error: index out of range [-1]".
Proof.
  apply (addRoute_catchAll_after_route
           (treeOf [("GET", bytes "/a", Func [Emit "a"])]) (bytes "x") "GET"
           (Func [Emit "x"])).
  - by_compute.
  - by_compute.
  - reflexivity.
  - reflexivity.
  - unfold wildcardName. by_compute.
Defined.

(** X24.  The conflict the tree detects: at a node that has
    children, none of them under the wildcard byte, a route that continues
    with a named wildcard is refused with "wildcard segment conflicts with
    existing children". *)
Theorem addRoute_wildcard_conflicts_with_children (n : node) (c : ascii)
    (name post : str) (method : string) (handler : HandlerFunc) :
  children n ≠ [] → isWild c = true → indexByte c (indices n) = None →
  wildcardName name → post = [] ∨ head post = Some "/"%char →
  addRoute n (path n ++ c :: name ++ post) method handler
  = Panic "wildcard segment conflicts with existing children".
Proof.
  intros Hcs Hc Hidx Hname Hpost.
  destruct (wildcardName_segment name Hname) as (Hseg & Hlit & Hne).
  rewrite addRoute_insertChild_here by (done || by right).
  change (c :: name ++ post) with ([] ++ c :: name ++ post).
  assert (Hpre : literal []) by constructor.
  insertChild_findWildcard.
  rewrite bool_decide_eq_true_2 by done. cbn [negb].
  rewrite decide_False by (destruct name; simpl; [done|lia]).
  rewrite decide_True; [done|].
  destruct n as [? ? ? ? ? cs ? ?]. simpl in *. destruct cs; [done|simpl; lia].
Qed.

Lemma addRoute_wildcard_conflicts_with_children_witness :
  let n := treeOf [("GET", bytes "/a", Func [Emit "a"]);
                   ("GET", bytes "/b", Func [Emit "b"])] in
  addRoute n (path n ++ ":"%char :: bytes "id" ++ []) "GET" (Func [Emit "id"])
  = Panic "wildcard segment conflicts with existing children".
Proof.
  apply (addRoute_wildcard_conflicts_with_children
           (treeOf [("GET", bytes "/a", Func [Emit "a"]);
                    ("GET", bytes "/b", Func [Emit "b"])])
           ":"%char (bytes "id") [] "GET" (Func [Emit "id"])).
  - vm_compute. discriminate.
  - reflexivity.
  - reflexivity.
  - unfold wildcardName. by_compute.
  - by left.
Defined.

(** X25.  A parameter route, round trip.  Registering [prefix:name] on
    the empty tree yields the tree of that route; there, the prefix followed
    by a non-empty segment without ['/'] is matched, with the segment as the
    value of [name]; followed by anything that holds a ['/'] it is not
    matched; and the prefix alone is not matched. *)
Theorem param_route_lookup (prefix name : str) (method : string)
    (handler : HandlerFunc) :
  literal prefix → wildcardName name →
  addRoute empty (prefix ++ ":"%char :: name) method handler
  = Ok (paramTree prefix name method handler) ∧
  (∀ v, v ≠ [] →
     getValue (paramTree prefix name method handler) (prefix ++ v) method
     = if decide ("/"%char ∈ v) then Ok None
       else Ok (Some (handler, {[ name := v ]}))) ∧
  getValue (paramTree prefix name method handler) prefix method = Ok None.
Proof.
  intros Hprefix Hname. split; [by apply addRoute_param|]. split.
  - intros v Hv. by apply getValue_param.
  - unfold getValue. simpl. rewrite decide_False by lia.
    by rewrite decide_True.
Qed.

Lemma param_route_lookup_witness :
  addRoute empty (bytes "/users/" ++ ":"%char :: bytes "id") "GET"
    (Func [Emit "user"])
  = Ok (paramTree (bytes "/users/") (bytes "id") "GET" (Func [Emit "user"])) ∧
  (∀ v, v ≠ [] →
     getValue (paramTree (bytes "/users/") (bytes "id") "GET" (Func [Emit "user"]))
       (bytes "/users/" ++ v) "GET"
     = if decide ("/"%char ∈ v) then Ok None
       else Ok (Some (Func [Emit "user"], {[ bytes "id" := v ]}))) ∧
  getValue (paramTree (bytes "/users/") (bytes "id") "GET" (Func [Emit "user"]))
    (bytes "/users/") "GET" = Ok None.
Proof.
  apply (param_route_lookup (bytes "/users/") (bytes "id") "GET"
           (Func [Emit "user"])).
  - unfold literal. by_compute.
  - unfold wildcardName. by_compute.
Defined.

(** X26.  A parameter route through the router: [addRoute(method,
    prefix:name, h)] on a new router returns; the lookup of the prefix
    followed by a segment in the tree of the method then finds [h] with a
    parameter map, and [Param] of [name] on a context that holds this map is
    the segment. *)
Theorem Router_param_route (method : string) (prefix name v : str)
    (h : HandlerFunc) :
  head prefix = Some "/"%char → literal prefix → wildcardName name →
  v ≠ [] → "/"%char ∉ v →
  ∃ r ps,
    Router.addRoute Router.New method (prefix ++ ":"%char :: name) h = Ok r ∧
    ownHandler r method (prefix ++ v) = Ok (Some (h, ps)) ∧
    ∀ c, Context.Params c = ps → Context.Param c name = v.
Proof.
  intros Hhead Hprefix Hname Hv Hslash.
  destruct prefix as [|x prefix]; [done|]. injection Hhead as ->.
  eexists _, {[ name := v ]}. split; [|split].
  - unfold Router.addRoute. cbn [app].
    rewrite decide_False by (by intros H; apply H).
    change (addRoute (default empty (Router.trees Router.New !! method)))
      with (addRoute empty).
    change ("/"%char :: prefix ++ ":"%char :: name)
      with (("/"%char :: prefix) ++ ":"%char :: name).
    rewrite addRoute_param by done. reflexivity.
  - unfold ownHandler. cbn [Router.trees Router.set_trees].
    rewrite lookup_insert_eq.
    rewrite getValue_param by done. by rewrite decide_False.
  - intros c Hc. unfold Context.Param. rewrite Hc.
    by rewrite lookup_singleton_eq.
Qed.

Lemma Router_param_route_witness :
  ∃ r ps,
    Router.addRoute Router.New "GET" (bytes "/users/" ++ ":"%char :: bytes "id")
      (Func [Emit "user"]) = Ok r ∧
    ownHandler r "GET" (bytes "/users/" ++ bytes "42")
    = Ok (Some (Func [Emit "user"], ps)) ∧
    ∀ c, Context.Params c = ps → Context.Param c (bytes "id") = bytes "42".
Proof.
  apply (Router_param_route "GET" (bytes "/users/") (bytes "id") (bytes "42")
           (Func [Emit "user"])).
  - reflexivity.
  - unfold literal. by_compute.
  - unfold wildcardName. by_compute.
  - by_compute.
  - by_compute.
Defined.

